(** * Sliding-window rate limiter: queue, admission check, lock discipline

    A shallow embedding of [rate-limiter.c] (the single-threaded form, module
    [ST]) and [rate-limiter-mt.c] (the form with a lock per queue, module
    [MT]).  Nodes live in a heap indexed by addresses, a [queue_t] header is
    the triple of [head], [tail] and [size], and a tenant's table entry
    [queue_t*] is either [NULL] or a header.  Dereferencing [NULL] or a freed
    node is a [Crash].  The clock and the allocator are inputs of every call. *)

From stdpp Require Import base gmap list sorting.
From Stdlib Require Import ZArith Lia.

Local Open Scope Z_scope.

(** ** Constants of both files *)

Definition SUCCESS : Z := 0.
Definition FAILURE : Z := 1.
Definition MAX_TENANTS : Z := 100.
Definition WINDOW_SIZE : Z := 10000.
Definition MAX_REQ : Z := 10.

(** ** Machine integers *)

(** [unsigned int]: arithmetic modulo 2^32. *)
Definition UINT_RANGE : Z := 4294967296.
Definition uint (x : Z) : Z := x mod UINT_RANGE.

(** [long]: 64 bits, two's complement.  [long_sub] is the subtraction the
    eviction test performs.  C leaves its overflow undefined; the model wraps
    around as the machine does.  It is the exact difference whenever that
    difference is representable (lemma [long_sub_exact]), as it always is for
    timestamps that are milliseconds since the epoch (lemma
    [long_sub_times]). *)
Definition LONG_MIN : Z := -9223372036854775808.
Definition LONG_MAX : Z := 9223372036854775807.
Definition long (x : Z) : Z := (x - LONG_MIN) mod 18446744073709551616 + LONG_MIN.
Definition long_sub (a b : Z) : Z := long (a - b).

(** ** Memory *)

Definition addr := positive.

(** [struct node]: [None] is the [NULL] pointer. *)
Record qnode_t := Qnode { data : Z; next : option addr }.

(** [queue_t] of rate-limiter.c.  The [qlock] field that rate-limiter-mt.c
    adds holds no data of the queue; the calls on it are the [Lock] and
    [Unlock] events of [MT.check_allowed]. *)
Record queue_t := Queue { head : option addr; tail : option addr; size : Z }.

Abbreviation heap := (gmap addr qnode_t).

(** What a run of C code yields: a value, or a crash on undefined behaviour. *)
Inductive fault := NullDeref | DanglingDeref | OutOfFuel.

Inductive result (A : Type) : Type :=
| Ok (a : A)
| Crash (f : fault).
Arguments Ok {A} a.
Arguments Crash {A} f.

#[global] Instance result_ret : MRet result := @Ok.
#[global] Instance result_bind : MBind result :=
  λ A B k m, match m with Ok a => k a | Crash f => Crash f end.

(** [p->field] for a pointer [p]: [NULL] and freed nodes crash. *)
Definition deref (p : option addr) : result addr :=
  match p with Some a => Ok a | None => Crash NullDeref end.

Definition load (h : heap) (a : addr) : result qnode_t :=
  match h !! a with Some n => Ok n | None => Crash DanglingDeref end.

(** The allocator: where [malloc] puts a node when it succeeds.  Whatever the
    policy, the block it returns is not one in use. *)
Class Malloc := {
  malloc_addr : heap → addr;
  malloc_fresh : ∀ h, h !! malloc_addr h = None
}.

(** One concrete policy, for running examples. *)
Definition first_fit (h : heap) : addr := fresh (dom h).

(** What the outside world answers during one admission check:
    - [clock]: the value [get_current_time_ms()] returns;
    - [queue_mem]: the answer of [malloc(sizeof(queue_t))]: [None] for [NULL],
      [Some g] for a block whose (uninitialised) [size] field reads [g];
    - [node_mem]: whether [malloc(sizeof(qnode_t))] succeeds. *)
Record env := Env { clock : Z; queue_mem : option Z; node_mem : bool }.

Definition get_current_time_ms (e : env) : Z := clock e.

(** ** The queue (shared by both files, line for line) *)

Section Queue.
Context `{!Malloc}.

Definition allocate_node (e : env) (h : heap) (d : Z) : heap * option addr :=
  if node_mem e then
    let temp := malloc_addr h in (<[temp := Qnode d None]> h, Some temp)
  else (h, None).

(** [*q] is overwritten by the new header, whatever it was. *)
Definition initialize_queue (e : env) (h : heap) (d : Z)
  : heap * option queue_t * Z :=
  match queue_mem e with
  | None => (h, None, FAILURE)
  | Some g =>
      match allocate_node e h d with
      | (h1, None) => (h1, Some (Queue None None (uint g)), FAILURE)
      | (h1, Some p) => (h1, Some (Queue (Some p) (Some p) 1), SUCCESS)
      end
  end.

(** Returns the new heap, the new [*q] and the value returned ([-1] when there
    is nothing to remove).  [free(p)] removes the node from the heap. *)
Definition dequeue (h : heap) (q : option queue_t)
  : result (heap * option queue_t * Z) :=
  match q with
  | None => Ok (h, None, -1)
  | Some qu =>
      match head qu with
      | None => Ok (h, Some qu, -1)
      | Some p =>
          n ← load h p;
          let hd := next n in
          let tl := match hd with None => None | Some _ => tail qu end in
          Ok (delete p h, Some (Queue hd tl (uint (size qu - 1))), data n)
      end
  end.

(** The [while] loop of both admission checks: the list returned holds the
    timestamps removed, in order (the ones the loop prints).  Every turn frees
    a node, so [fuel] above the number of nodes is never used up
    (lemmas [evict_fuel] and [evict_total]). *)
Fixpoint evict (fuel : nat) (h : heap) (q : option queue_t) (timestamp : Z)
  : result (heap * option queue_t * list Z) :=
  match q with
  | None => Ok (h, q, [])
  | Some qu =>
      match head qu with
      | None => Ok (h, q, [])
      | Some p =>
          n ← load h p;
          if bool_decide (WINDOW_SIZE ≤ long_sub timestamp (data n)) then
            match fuel with
            | O => Crash OutOfFuel
            | S k =>
                '(h1, q1, d) ← dequeue h q;
                '(h2, q2, out) ← evict k h1 q1 timestamp;
                Ok (h2, q2, d :: out)
            end
          else Ok (h, q, [])
      end
  end.

(** [!(\*q) || (\*q)->size < MAX_REQ] *)
Definition has_room (q : option queue_t) : bool :=
  match q with
  | None => true
  | Some qu => bool_decide (size qu < MAX_REQ)
  end.

End Queue.

(** ** rate-limiter.c *)

Module ST.
Section WithMalloc.
Context `{!Malloc}.

Definition enqueue (e : env) (h : heap) (q : option queue_t) (d : Z)
  : result (heap * option queue_t * Z) :=
  match q with
  | None => Ok (initialize_queue e h d)
  | Some qu =>
      match allocate_node e h d with
      | (h1, None) => Ok (h1, Some qu, FAILURE)
      | (h1, Some temp) =>
          '(h2, hd) ←
            (if bool_decide (size qu ≠ 0) then
               t ← deref (tail qu);
               n ← load h1 t;
               Ok (<[t := Qnode (data n) (Some temp)]> h1, head qu)
             else Ok (h1, Some temp));
          Ok (h2, Some (Queue hd (Some temp) (uint (size qu + 1))), SUCCESS)
      end
  end.

(** Returns the heap, [*q], the value returned and the timestamps removed. *)
Definition check_tenant_allowed (e : env) (h : heap) (q : option queue_t)
    (timestamp : Z) : result (heap * option queue_t * Z * list Z) :=
  '(h1, q1, out) ← evict (S (base.size h)) h q timestamp;
  if has_room q1 then
    '(h2, q2, _) ← enqueue e h1 q1 (get_current_time_ms e);
    Ok (h2, q2, SUCCESS, out)
  else Ok (h1, q1, FAILURE, out).

(** A tenant's calls one after the other: each call comes with the answers of
    the outside world and its [timestamp] argument.  The result lists, for
    every call, the state it left and what it returned. *)
Fixpoint run (calls : list (env * Z)) (h : heap) (q : option queue_t)
  : result (list (heap * option queue_t * Z * list Z)) :=
  match calls with
  | [] => Ok []
  | (e, timestamp) :: rest =>
      r ← check_tenant_allowed e h q timestamp;
      later ← run rest r.1.1.1 r.1.1.2;
      Ok (r :: later)
  end.

(** The queue on its own: any sequence of the three operations, each with the
    answers of the allocator. *)
Inductive qop :=
| OpInitialize (d : Z)
| OpEnqueue (d : Z)
| OpDequeue.

Definition apply_op (e : env) (o : qop) (h : heap) (q : option queue_t)
  : result (heap * option queue_t * Z) :=
  match o with
  | OpInitialize d => Ok (initialize_queue e h d)
  | OpEnqueue d => enqueue e h q d
  | OpDequeue => dequeue h q
  end.

Fixpoint run_ops (ops : list (env * qop)) (h : heap) (q : option queue_t)
  : result (heap * option queue_t) :=
  match ops with
  | [] => Ok (h, q)
  | (e, o) :: rest =>
      r ← apply_op e o h q;
      run_ops rest r.1.1 r.1.2
  end.

End WithMalloc.
End ST.

(** ** rate-limiter-mt.c *)

Module MT.

(** What a call does to the lock and to the queue, in program order.  The
    program never initialises [qlock]; [pthread_mutex_lock] and
    [pthread_mutex_unlock] on it are taken as plain events. *)
Inductive event :=
| Lock
| Unlock
| Removed (d : Z)
| Enqueue (ret : Z).

Section WithMalloc.
Context `{!Malloc}.

(** No test of [size]: the old tail is always dereferenced. *)
Definition enqueue (e : env) (h : heap) (q : option queue_t) (d : Z)
  : result (heap * option queue_t * Z) :=
  match q with
  | None => Ok (initialize_queue e h d)
  | Some qu =>
      match allocate_node e h d with
      | (h1, None) => Ok (h1, Some qu, FAILURE)
      | (h1, Some temp) =>
          t ← deref (tail qu);
          n ← load h1 t;
          Ok (<[t := Qnode (data n) (Some temp)]> h1,
              Some (Queue (head qu) (Some temp) (uint (size qu + 1))), SUCCESS)
      end
  end.

Definition lock_if (q : option queue_t) (ev : event) : list event :=
  match q with Some _ => [ev] | None => [] end.

Definition check_allowed (e : env) (h : heap) (q : option queue_t)
    (timestamp : Z) : result (heap * option queue_t * Z * list event) :=
  let locked := lock_if q Lock in
  '(h1, q1, out) ← evict (S (base.size h)) h q timestamp;
  '(h2, q2, ret, did) ←
    (if has_room q1 then
       '(h2, q2, r) ← enqueue e h1 q1 (get_current_time_ms e);
       Ok (h2, q2, SUCCESS, [Enqueue r])
     else Ok (h1, q1, FAILURE, []));
  Ok (h2, q2, ret, locked ++ (Removed <$> out) ++ did ++ lock_if q2 Unlock).

Fixpoint run (calls : list (env * Z)) (h : heap) (q : option queue_t)
  : result (list (heap * option queue_t * Z * list event)) :=
  match calls with
  | [] => Ok []
  | (e, timestamp) :: rest =>
      r ← check_allowed e h q timestamp;
      later ← run rest r.1.1.1 r.1.1.2;
      Ok (r :: later)
  end.

End WithMalloc.
End MT.

(** ** A concrete allocator *)

#[global] Program Instance first_fit_malloc : Malloc := {| malloc_addr := first_fit |}.
Next Obligation.
  intros h. apply not_elem_of_dom. unfold first_fit. apply is_fresh.
Qed.

(** ** What a queue holds *)

(** The nodes reached from [p] by following [next] up to [NULL]: their
    addresses and timestamps, head first. *)
Fixpoint lseg (h : heap) (p : option addr) (cells : list (addr * Z)) : Prop :=
  match cells with
  | [] => p = None
  | (a, d) :: rest =>
      p = Some a ∧ ∃ nx, h !! a = Some (Qnode d nx) ∧ lseg h nx rest
  end.

Definition last_addr (cells : list (addr * Z)) : option addr :=
  fst <$> last cells.

(** A well-formed header: [head] starts the list, [tail] is its last node
    and [size] counts it, as an [unsigned int] does. *)
Record queue_rep (h : heap) (qu : queue_t) (cells : list (addr * Z)) : Prop := {
  rep_chain : lseg h (head qu) cells;
  rep_tail : tail qu = last_addr cells;
  rep_size : size qu = uint (Z.of_nat (length cells))
}.

(** A table entry: [NULL] holds nothing. *)
Definition slot_rep (h : heap) (q : option queue_t) (cells : list (addr * Z))
  : Prop :=
  match q with
  | None => cells = []
  | Some qu => queue_rep h qu cells
  end.

(** The same list, computed: the timestamps met from [p] on. *)
Fixpoint walk (fuel : nat) (h : heap) (p : option addr) : list Z :=
  match fuel, p with
  | S k, Some a =>
      match h !! a with
      | Some n => data n :: walk k h (next n)
      | None => []
      end
  | _, _ => []
  end.

Definition entries (h : heap) (q : option queue_t) : list Z :=
  match q with
  | None => []
  | Some qu => walk (base.size h) h (head qu)
  end.

(** The timestamp at the head, if any. *)
Definition head_data (h : heap) (q : option queue_t) : option Z :=
  qu ← q; a ← head qu; n ← h !! a; Some (data n).

(** The timestamp at the tail, if any. *)
Definition tail_data (h : heap) (q : option queue_t) : option Z :=
  qu ← q; a ← tail qu; n ← h !! a; Some (data n).

(** ** The admission rule on plain lists of timestamps *)

Definition expired (timestamp d : Z) : bool :=
  bool_decide (WINDOW_SIZE ≤ long_sub timestamp d).

Fixpoint drop_while {A} (f : A → bool) (l : list A) : list A :=
  match l with
  | [] => []
  | x :: r => if f x then drop_while f r else l
  end.

Fixpoint take_while {A} (f : A → bool) (l : list A) : list A :=
  match l with
  | [] => []
  | x :: r => if f x then x :: take_while f r else []
  end.

(** One admission check on the list of stored timestamps, with the clock
    reading [c]: the list left, the value returned and the timestamps
    removed. *)
Definition window_step (timestamp c : Z) (l : list Z) : list Z * Z * list Z :=
  let l1 := drop_while (expired timestamp) l in
  if bool_decide (Z.of_nat (length l1) < MAX_REQ)
  then (l1 ++ [c], SUCCESS, take_while (expired timestamp) l)
  else (l1, FAILURE, take_while (expired timestamp) l).

(** The same for a sequence of checks, call after call. *)
Fixpoint window_steps (calls : list (env * Z)) (l : list Z)
  : list (list Z * Z * list Z) :=
  match calls with
  | [] => []
  | (e, timestamp) :: rest =>
      let r := window_step timestamp (clock e) l in r :: window_steps rest r.1.1
  end.

(** What is seen of a call: the timestamps its queue holds afterwards, the
    value returned and the timestamps removed. *)
Definition observe {A} (st : heap * option queue_t * Z * A) : list Z * Z * A :=
  (entries st.1.1.1 st.1.1.2, st.1.2, st.2).

(** The timestamps the events say were removed. *)
Definition removed_of (evs : list MT.event) : list Z :=
  omap (λ ev, match ev with MT.Removed d => Some d | _ => None end) evs.

Definition observe_mt (st : heap * option queue_t * Z * list MT.event)
  : list Z * Z * list Z :=
  (entries st.1.1.1 st.1.1.2, st.1.2, removed_of st.2).

(** A state a tenant can be in: a well-formed queue of at most [MAX_REQ]
    entries. *)
Definition tenant_ok (h : heap) (q : option queue_t) : Prop :=
  ∃ cells, slot_rep h q cells ∧ Z.of_nat (length cells) ≤ MAX_REQ.

(** rate-limiter-mt.c dereferences the tail it does not have when a call
    finds the queue allocated and every entry expired.  [keeps_tail] says that
    no call of the sequence does: [allocated] tells whether the queue exists
    before the first call, [l] is what it holds. *)
Fixpoint keeps_tail (allocated : bool) (calls : list (env * Z)) (l : list Z)
  : Prop :=
  match calls with
  | [] => True
  | (e, timestamp) :: rest =>
      (allocated = false ∨ drop_while (expired timestamp) l ≠ [])
      ∧ keeps_tail true rest (window_step timestamp (clock e) l).1.1
  end.

(** What [initialize_queue] leaves when it gets a header and no node: no
    entry, both pointers [NULL], and a [size] that was never written and
    happens not to be 0. *)
Definition half_built (q : option queue_t) : Prop :=
  ∃ g, q = Some (Queue None None g) ∧ g ≠ 0.

(** The states a tenant can be in when memory may run out. *)
Definition tenant_inv (h : heap) (q : option queue_t) : Prop :=
  tenant_ok h q ∨ half_built q.

(** What any admission check that returns does to the stored timestamps:
    it removes the expired run at the head and appends the clock reading or
    nothing. *)
Definition step_rel (timestamp c : Z) (l : list Z) (o : list Z * Z * list Z)
  : Prop :=
  o.2 = take_while (expired timestamp) l
  ∧ (o.1.1 = drop_while (expired timestamp) l
     ∨ o.1.1 = drop_while (expired timestamp) l ++ [c]).

Fixpoint steps_rel (calls : list (env * Z)) (l : list Z)
    (tr : list (list Z * Z * list Z)) : Prop :=
  match calls, tr with
  | [], [] => True
  | (e, timestamp) :: rest, o :: tr' =>
      step_rel timestamp (clock e) l o ∧ steps_rel rest o.1.1 tr'
  | _, _ => False
  end.

(** The allocator answers: memory for the header and for the node. *)
Definition mem_ok (e : env) : Prop := is_Some (queue_mem e) ∧ node_mem e = true.

(** The allocation [enqueue] needs fails: the header or its first node for a
    queue not yet allocated, the node otherwise. *)
Definition alloc_fails (e : env) (q : option queue_t) : Prop :=
  match q with
  | None => queue_mem e = None ∨ node_mem e = false
  | Some _ => node_mem e = false
  end.

(** The [size] field is the number of entries, and that is at most
    [MAX_REQ]. *)
Definition size_bounded (h : heap) (q : option queue_t) : Prop :=
  Z.of_nat (length (entries h q)) ≤ MAX_REQ
  ∧ ∀ qu, q = Some qu → size qu = Z.of_nat (length (entries h q)).

(** The memory a tenant takes: the heap [h] holds the nodes that [h0] held
    when the tenant had no queue and one node for every stored timestamp,
    that is, at most [MAX_REQ] nodes more. *)
Definition heap_bounded (h0 h : heap) (q : option queue_t) : Prop :=
  base.size h = (base.size h0 + length (entries h q))%nat
  ∧ Z.of_nat (base.size h) ≤ Z.of_nat (base.size h0) + MAX_REQ.

(** The clock readings of a sequence of calls. *)
Definition clocks (calls : list (env * Z)) : list Z := (clock ∘ fst) <$> calls.

(** The three orders a sequence of observations can have: every queue is in
    non-decreasing order from head to tail; the head never decreases from one
    call to a later one; a timestamp removed is at most the head after that
    call and after every later one. *)
Definition queues_sorted (tr : list (list Z * Z * list Z)) : Prop :=
  Forall (λ o, StronglySorted Z.le o.1.1) tr.

Definition heads_monotone (tr : list (list Z * Z * list Z)) : Prop :=
  ∀ i j oi oj a b, (i ≤ j)%nat →
    tr !! i = Some oi → tr !! j = Some oj →
    oi.1.1 !! 0%nat = Some a → oj.1.1 !! 0%nat = Some b → a ≤ b.

Definition removed_below_heads (tr : list (list Z * Z * list Z)) : Prop :=
  ∀ i j oi oj x b, (i ≤ j)%nat →
    tr !! i = Some oi → tr !! j = Some oj →
    x ∈ oi.2 → oj.1.1 !! 0%nat = Some b → x ≤ b.

(** [initialize_queue] got a header and then no node: it returns [FAILURE]
    and leaves the header with [size] never written. *)
Definition half_init (e : env) : bool :=
  match queue_mem e with
  | Some _ => negb (node_mem e)
  | None => false
  end.

(** The [size] the capacity test reads, 0 standing for no queue. *)
Definition size_of (q : option queue_t) : Z :=
  match q with Some qu => size qu | None => 0 end.

(** ** Example states *)

(** Ten requests stored at time 0. *)
Definition full_cells : list (addr * Z) :=
  (λ a, (a, 0)) <$> [1; 2; 3; 4; 5; 6; 7; 8; 9; 10]%positive.

Definition full_heap : heap :=
  list_to_map
    ((λ a, (a, Qnode 0 (if decide (a = 10%positive) then None else Some (Pos.succ a))))
       <$> [1; 2; 3; 4; 5; 6; 7; 8; 9; 10]%positive).

Definition full_queue : option queue_t :=
  Some (Queue (Some 1%positive) (Some 10%positive) 10).

(** A queue that was allocated and then emptied by [dequeue]. *)
Definition drained_queue : option queue_t := Some (Queue None None 0).

(** An allocator that answers and a clock that reads [c]. *)
Definition answering (c : Z) : env := Env c (Some 0) true.

(** ** The rest of both files *)

Definition TEST_NUM_TENANTS : Z := 3.
Definition TEST_MAX_REQUESTS : Z := 200.

(** The value [get_current_time_ms] computes from the [struct timeval] that
    [gettimeofday] fills: [(tv.tv_sec * 1000L) + (tv.tv_usec / 1000)], in
    [long] arithmetic, the division truncating. *)
Definition timeval_ms (tv_sec tv_usec : Z) : Z :=
  long (long (tv_sec * 1000) + tv_usec ÷ 1000).

(** The loop of [destroy_queue]: [next = temp->next; free(temp); temp = next]
    until [temp] is [NULL]. *)
Fixpoint free_nodes (fuel : nat) (h : heap) (temp : option addr) : result heap :=
  match temp with
  | None => Ok h
  | Some a =>
      n ← load h a;
      match fuel with
      | O => Crash OutOfFuel
      | S k => free_nodes k (delete a h) (next n)
      end
  end.

(** [destroy_queue] takes the pointer by value: nothing happens for [NULL],
    otherwise every node linked from [head] is freed, and then the header,
    which the heap of nodes does not hold. *)
Definition destroy_queue (h : heap) (q : option queue_t) : result heap :=
  match q with
  | None => Ok h
  | Some qu => free_nodes (base.size h) h (head qu)
  end.

(** [n] calls of [dequeue], with the values they return. *)
Fixpoint dequeues (n : nat) (h : heap) (q : option queue_t)
  : result (heap * option queue_t * list Z) :=
  match n with
  | O => Ok (h, q, [])
  | S k =>
      '(h1, q1, d) ← dequeue h q;
      '(h2, q2, ds) ← dequeues k h1 q1;
      Ok (h2, q2, d :: ds)
  end.

(** Calls of [enqueue], one for each timestamp, each with the answers of the
    allocator. *)
Definition enqueue_ops (ds : list (env * Z)) : list (env * ST.qop) :=
  (λ x, (x.1, ST.OpEnqueue x.2)) <$> ds.

(** What the [DEBUG] lines of [main] and [client_thread] read after a check:
    [q->size], [q->head->data] and [q->tail->data]. *)
Definition debug_fields (h : heap) (q : option queue_t) : result (Z * Z * Z) :=
  match q with
  | None => Crash NullDeref
  | Some qu =>
      a ← deref (head qu);
      n ← load h a;
      b ← deref (tail qu);
      m ← load h b;
      Ok (size qu, data n, data m)
  end.

(** The clock readings stored for the calls that returned [SUCCESS]. *)
Fixpoint admitted_clocks (calls : list (env * Z)) (rets : list Z) : list Z :=
  match calls, rets with
  | (e, _) :: calls', r :: rets' =>
      if bool_decide (r = SUCCESS) then clock e :: admitted_clocks calls' rets'
      else admitted_clocks calls' rets'
  | _, _ => []
  end.

(** No more than [MAX_REQ] in a window: of any [MAX_REQ] + 1 consecutive
    timestamps of the list the last is at least [WINDOW_SIZE] after the
    first. *)
Definition window_bounded (l : list Z) : Prop :=
  ∀ j a b, l !! j = Some a → l !! (j + Z.to_nat MAX_REQ)%nat = Some b →
           a + WINDOW_SIZE ≤ b.

(** A call made at a time: the [timestamp] it is given is not negative, the
    clock does not read less inside the call than that [timestamp], and the
    reading is a [long], at most [LONG_MAX].  Both are then milliseconds since
    the epoch, whose differences the eviction test computes without wrapping
    around. *)
Definition timely (c : env * Z) : Prop := 0 ≤ c.2 ≤ clock c.1 ∧ clock c.1 ≤ LONG_MAX.

(** ** [main] of rate-limiter.c *)

(** [queue_t *tenant_queues[MAX_TENANTS] = { NULL }] *)
Definition tenant_queues : list (option queue_t) :=
  replicate (Z.to_nat MAX_TENANTS) None.

(** What [main] yields: its result, a crash, or an access outside
    [tenant_queues]. *)
Inductive outcome (A : Type) : Type :=
| Done (a : A)
| Fault (f : fault)
| OutOfBounds.
Arguments Done {A} a.
Arguments Fault {A} f.
Arguments OutOfBounds {A}.

Section Main.
Context `{!Malloc}.

(** The body of the loop, for the tenant picked:
    [check_tenant_allowed(&tenant_queues[tenant_id], curr_time_ms)].  It
    yields the heap, the table, the value returned and the timestamps
    removed. *)
Definition request (e : env) (h : heap) (tq : list (option queue_t))
    (tenant_id : nat) (curr_time_ms : Z)
  : outcome (heap * list (option queue_t) * Z * list Z) :=
  match tq !! tenant_id with
  | None => OutOfBounds
  | Some q =>
      match ST.check_tenant_allowed e h q curr_time_ms with
      | Ok r => Done (r.1.1.1, <[tenant_id := r.1.1.2]> tq, r.1.2, r.2)
      | Crash f => Fault f
      end
  end.

(** The loop: each request comes with the tenant picked, the clock reading
    [main] takes and the answers given to the check.  [main] makes
    [TEST_MAX_REQUESTS] + 1 of them, for tenants below [TEST_NUM_TENANTS].
    The lines it prints say, for every request, the tenant and whether the
    request was allowed. *)
Fixpoint serve_all (reqs : list (nat * Z * env)) (h : heap)
    (tq : list (option queue_t))
  : outcome (heap * list (option queue_t) * list (nat * Z)) :=
  match reqs with
  | [] => Done (h, tq, [])
  | (tenant_id, curr_time_ms, e) :: rest =>
      match request e h tq tenant_id curr_time_ms with
      | Done r =>
          match serve_all rest r.1.1.1 r.1.1.2 with
          | Done r' => Done (r'.1.1, r'.1.2, (tenant_id, r.1.2) :: r'.2)
          | Fault f => Fault f
          | OutOfBounds => OutOfBounds
          end
      | Fault f => Fault f
      | OutOfBounds => OutOfBounds
      end
  end.

(** [for (i = 0; i < MAX_TENANTS; i++) destroy_queue(tenant_queues[i]);] *)
Fixpoint destroy_all (h : heap) (tq : list (option queue_t)) : result heap :=
  match tq with
  | [] => Ok h
  | q :: rest => h1 ← destroy_queue h q; destroy_all h1 rest
  end.

(** [main]: the requests, then the teardown.  It yields the heap it leaves
    and the lines printed. *)
Definition main (reqs : list (nat * Z * env)) (h : heap)
  : outcome (heap * list (nat * Z)) :=
  match serve_all reqs h tenant_queues with
  | Done r =>
      match destroy_all r.1.1 r.1.2 with
      | Ok h' => Done (h', r.2)
      | Crash f => Fault f
      end
  | Fault f => Fault f
  | OutOfBounds => OutOfBounds
  end.

End Main.

(** The calls a sequence of requests makes for one tenant. *)
Definition calls_of (i : nat) (reqs : list (nat * Z * env)) : list (env * Z) :=
  omap (λ r, if decide (r.1.1 = i) then Some (r.2, r.1.2) else None) reqs.

(** The values returned for one tenant, in the lines [main] prints. *)
Definition rets_of (i : nat) (lines : list (nat * Z)) : list Z :=
  omap (λ r, if decide (r.1 = i) then Some r.2 else None) lines.

(** Every request gets memory, names a tenant of the table, and is made at
    a time. *)
Definition request_ok (r : nat * Z * env) : Prop :=
  (r.1.1 < Z.to_nat MAX_TENANTS)%nat ∧ mem_ok r.2.

(** What a tenant's queue holds after a sequence of checks. *)
Fixpoint window_after (calls : list (env * Z)) (l : list Z) : list Z :=
  match calls with
  | [] => l
  | (e, timestamp) :: rest =>
      window_after rest (window_step timestamp (clock e) l).1.1
  end.

(** The values returned by a sequence of checks. *)
Definition returned (tr : list (list Z * Z * list Z)) : list Z :=
  (λ o, o.1.2) <$> tr.

(** The timestamps of a list that fall in the window of [WINDOW_SIZE]
    milliseconds that starts at [t]. *)
Definition in_window (t : Z) (l : list Z) : list Z :=
  filter (λ c, t ≤ c < t + WINDOW_SIZE) l.

(** A well-formed table over the heap [h], which was [h0] when [main]
    started: every entry is a well-formed queue of at most [MAX_REQ] nodes, no
    node is in two queues, and the nodes of the queues are all that was
    allocated since. *)
Record table_rep (h0 h : heap) (tq : list (option queue_t))
    (cs : list (list (addr * Z))) : Prop := {
  table_length : length tq = Z.to_nat MAX_TENANTS;
  table_slots : Forall2 (slot_rep h) tq cs;
  table_sizes : Forall (λ c, Z.of_nat (length c) ≤ MAX_REQ) cs;
  table_apart : ∀ i j ci cj a, i ≠ j → cs !! i = Some ci → cs !! j = Some cj →
                               a ∈ ci.*1 → a ∉ cj.*1;
  table_fresh : ∀ i c a, cs !! i = Some c → a ∈ c.*1 → h0 !! a = None;
  table_frame : ∀ a, (∀ i c, cs !! i = Some c → a ∉ c.*1) → h !! a = h0 !! a
}.

(** ** Machine arithmetic *)

Lemma uint_small x : 0 ≤ x < UINT_RANGE → uint x = x.
Proof. intros Hx. unfold uint. now apply Z.mod_small. Qed.

Lemma uint_range x : 0 ≤ uint x < UINT_RANGE.
Proof. unfold uint, UINT_RANGE. apply Z.mod_pos_bound. lia. Qed.

Lemma uint_succ x : uint (uint x + 1) = uint (x + 1).
Proof. unfold uint, UINT_RANGE. now rewrite Zplus_mod_idemp_l. Qed.

Lemma uint_pred x : uint (uint x - 1) = uint (x - 1).
Proof. unfold uint, UINT_RANGE. now rewrite Zminus_mod_idemp_l. Qed.

Lemma long_sub_exact a b :
  LONG_MIN ≤ a - b ≤ LONG_MAX → long_sub a b = a - b.
Proof.
  unfold long_sub, long, LONG_MIN, LONG_MAX. intros Hr.
  rewrite Z.mod_small; lia.
Qed.

(** Milliseconds since the epoch are not negative: their differences never
    leave the range of [long]. *)
Lemma long_sub_times a b :
  0 ≤ a ≤ LONG_MAX → 0 ≤ b ≤ LONG_MAX → long_sub a b = a - b.
Proof.
  intros Ha Hb. apply long_sub_exact. unfold LONG_MIN, LONG_MAX in *. lia.
Qed.

Lemma expired_times timestamp d :
  0 ≤ timestamp ≤ LONG_MAX → 0 ≤ d ≤ LONG_MAX →
  expired timestamp d = bool_decide (WINDOW_SIZE ≤ timestamp - d).
Proof.
  intros Ht Hd. unfold expired. now rewrite long_sub_times.
Qed.

(** ** Lists of nodes in the heap *)

Lemma lseg_functional h p l1 l2 : lseg h p l1 → lseg h p l2 → l1 = l2.
Proof.
  revert p l2. induction l1 as [|[a d] l1 IH]; intros p [|[b c] l2]; simpl.
  - done.
  - intros -> [? _]. done.
  - intros [-> _] ?. done.
  - intros [-> (nx & Ha & Hl1)] [Hb (ny & Hb' & Hl2)].
    injection Hb as <-. rewrite Ha in Hb'. injection Hb' as <- <-.
    f_equal. eauto.
Qed.

Lemma lseg_lookup h p cells a :
  lseg h p cells → a ∈ cells.*1 → is_Some (h !! a).
Proof.
  revert p. induction cells as [|[b d] cells IH]; simpl; intros p Hl Ha.
  - apply elem_of_nil in Ha. done.
  - destruct Hl as [-> (nx & Hb & Hl)].
    apply elem_of_cons in Ha as [->|Ha]; eauto.
Qed.

Lemma lseg_suffix h p l1 l2 :
  lseg h p (l1 ++ l2) → ∃ r, lseg h r l2.
Proof.
  revert p. induction l1 as [|[a d] l1 IH]; simpl; intros p Hl.
  - eauto.
  - destruct Hl as [-> (nx & _ & Hl)]. eauto.
Qed.

(** A list that ends at [NULL] never meets a node twice. *)
Lemma lseg_NoDup h p cells : lseg h p cells → NoDup cells.*1.
Proof.
  revert p. induction cells as [|[a d] cells IH]; simpl; intros p Hl.
  - constructor.
  - destruct Hl as [-> (nx & Ha & Hl)]. constructor; [|eauto].
    intros Hin. apply list_elem_of_fmap in Hin as ([a' d'] & Heq & Hin).
    simpl in Heq. subst a'.
    apply list_elem_of_split in Hin as (l1 & l2 & ->).
    destruct (lseg_suffix _ _ _ _ Hl) as (r & Hr).
    pose proof Hr as Hr'. simpl in Hr'. destruct Hr' as [-> (ny & Ha' & Hl2)].
    rewrite Ha in Ha'. injection Ha' as <- <-.
    pose proof (lseg_functional _ _ _ _ Hl Hl2) as Heq.
    apply (f_equal length) in Heq. rewrite length_app in Heq. simpl in Heq.
    lia.
Qed.

(** Writing a node that is not in the list leaves the list as it is. *)
Lemma lseg_insert_other h p cells a n :
  a ∉ cells.*1 → lseg h p cells → lseg (<[a := n]> h) p cells.
Proof.
  revert p. induction cells as [|[b d] cells IH]; simpl; intros p Hna Hl.
  - done.
  - destruct Hl as [-> (nx & Hb & Hl)]. apply not_elem_of_cons in Hna as [Hab Hna].
    split; [done|]. exists nx. rewrite lookup_insert_ne by done. eauto.
Qed.

Lemma lseg_delete_other h p cells a :
  a ∉ cells.*1 → lseg h p cells → lseg (delete a h) p cells.
Proof.
  revert p. induction cells as [|[b d] cells IH]; simpl; intros p Hna Hl.
  - done.
  - destruct Hl as [-> (nx & Hb & Hl)]. apply not_elem_of_cons in Hna as [Hab Hna].
    split; [done|]. exists nx. rewrite lookup_delete_ne by done. eauto.
Qed.

Lemma lseg_fresh h p cells a :
  h !! a = None → lseg h p cells → a ∉ cells.*1.
Proof.
  intros Hnone Hl Hin. destruct (lseg_lookup _ _ _ _ Hl Hin) as [n Hn].
  congruence.
Qed.

(** Linking a new last node behind the old one. *)
Lemma lseg_snoc h p cells t d a c :
  lseg h p (cells ++ [(t, d)]) → h !! a = None →
  lseg (<[t := Qnode d (Some a)]> (<[a := Qnode c None]> h)) p
       (cells ++ [(t, d); (a, c)]).
Proof.
  intros Hl Hfresh.
  pose proof (lseg_NoDup _ _ _ Hl) as Hnd.
  pose proof (lseg_fresh _ _ _ _ Hfresh Hl) as Hna.
  rewrite fmap_app in Hnd, Hna. simpl in Hnd, Hna.
  apply NoDup_app in Hnd as (_ & Hdisj & _).
  apply not_elem_of_app in Hna as [Hna Hat].
  assert (a ≠ t) as Hne by (intros ->; apply Hat; left).
  revert p Hl Hdisj Hna. induction cells as [|[b x] cells IH]; simpl; intros p Hl Hdisj Hna.
  - destruct Hl as [-> (nx & Ht & ->)]. split; [done|].
    exists (Some a). rewrite lookup_insert_eq. split; [done|].
    split; [done|]. exists None.
    rewrite lookup_insert_ne by done. rewrite lookup_insert_eq. done.
  - destruct Hl as [-> (nx & Hb & Hl)].
    apply not_elem_of_cons in Hna as [Hab Hna].
    assert (b ≠ t) as Hbt.
    { intros ->. apply (Hdisj t); left. }
    split; [done|]. exists nx.
    rewrite lookup_insert_ne by done. rewrite lookup_insert_ne by done.
    split; [done|]. apply IH; [done| |done].
    intros y Hy. apply Hdisj. now right.
Qed.

Lemma lseg_length h p cells : lseg h p cells → (length cells ≤ base.size h)%nat.
Proof.
  revert h p. induction cells as [|[a d] cells IH]; simpl; intros h p Hl.
  - lia.
  - pose proof (lseg_NoDup h p ((a, d) :: cells) Hl) as Hnd.
    destruct Hl as [-> (nx & Ha & Hl)].
    apply NoDup_cons in Hnd as [Hna _].
    apply (lseg_delete_other _ _ _ a Hna) in Hl. apply IH in Hl.
    rewrite map_size_delete_Some in Hl by eauto.
    assert (base.size h ≠ 0%nat).
    { intros Hz. apply map_size_empty_inv in Hz. subst h.
      rewrite lookup_empty in Ha. done. }
    lia.
Qed.

Lemma walk_lseg fuel h p cells :
  lseg h p cells → (length cells ≤ fuel)%nat → walk fuel h p = cells.*2.
Proof.
  revert fuel p. induction cells as [|[a d] cells IH]; simpl; intros fuel p Hl Hf.
  - subst p. destruct fuel; done.
  - destruct Hl as [-> (nx & Ha & Hl)]. destruct fuel as [|fuel]; [lia|].
    simpl. rewrite Ha. simpl. f_equal. apply IH; [done|lia].
Qed.

Lemma entries_rep h q cells : slot_rep h q cells → entries h q = cells.*2.
Proof.
  destruct q as [qu|]; simpl.
  - intros [Hl _ _]. apply walk_lseg; [done|]. eapply lseg_length; eauto.
  - intros ->. done.
Qed.

Lemma lseg_last h p cells t d :
  lseg h p (cells ++ [(t, d)]) → h !! t = Some (Qnode d None).
Proof.
  revert p. induction cells as [|[b x] cells IH]; simpl; intros p Hl.
  - destruct Hl as [_ (nx & Ht & ->)]. done.
  - destruct Hl as [_ (nx & _ & Hl)]. eauto.
Qed.

Lemma last_addr_snoc cells c : last_addr (cells ++ [c]) = Some c.1.
Proof. unfold last_addr. now rewrite last_snoc. Qed.

Lemma last_addr_cons c1 c2 cells :
  last_addr (c1 :: c2 :: cells) = last_addr (c2 :: cells).
Proof. done. Qed.

Lemma drop_while_fmap {A B} (g : A → B) (f : B → bool) (l : list A) :
  g <$> drop_while (f ∘ g) l = drop_while f (g <$> l).
Proof.
  induction l as [|x l IH]; simpl; [done|].
  destruct (f (g x)); simpl; [done|done].
Qed.

Lemma take_while_fmap {A B} (g : A → B) (f : B → bool) (l : list A) :
  g <$> take_while (f ∘ g) l = take_while f (g <$> l).
Proof.
  induction l as [|x l IH]; simpl; [done|].
  destruct (f (g x)); simpl; [by f_equal|done].
Qed.

Lemma take_drop_while {A} (f : A → bool) (l : list A) :
  take_while f l ++ drop_while f l = l.
Proof.
  induction l as [|x l IH]; simpl; [done|].
  destruct (f x); simpl; [by f_equal|done].
Qed.

Lemma drop_while_length {A} (f : A → bool) (l : list A) :
  (length (drop_while f l) ≤ length l)%nat.
Proof.
  induction l as [|x l IH]; simpl; [lia|]. destruct (f x); simpl; lia.
Qed.

Lemma drop_while_head {A} (f : A → bool) (l : list A) x r :
  drop_while f l = x :: r → f x = false.
Proof.
  induction l as [|y l IH]; simpl; [done|].
  destruct (f y) eqn:Hy; [done|]. intros [= -> _]. done.
Qed.

Lemma take_while_all {A} (f : A → bool) (l : list A) :
  Forall (λ x, f x = true) (take_while f l).
Proof.
  induction l as [|y l IH]; simpl; [constructor|].
  destruct (f y) eqn:Hy; [by constructor|constructor].
Qed.

(** ** The operations on a well-formed queue *)

Arguments dequeue : simpl never.
Arguments ST.enqueue : simpl never.
Arguments MT.enqueue : simpl never.

Lemma dequeue_rep h qu a d cells :
  queue_rep h qu ((a, d) :: cells) →
  ∃ qu', dequeue h (Some qu) = Ok (delete a h, Some qu', d)
         ∧ queue_rep (delete a h) qu' cells
         ∧ size qu' = uint (size qu - 1).
Proof.
  intros [Hl Ht Hs].
  pose proof (lseg_NoDup _ _ _ Hl) as Hnd. simpl in Hnd.
  apply NoDup_cons in Hnd as [Hna _].
  simpl in Hl. destruct Hl as [Hh (nx & Ha & Hl)].
  unfold dequeue, load. rewrite Hh, Ha. simpl.
  eexists. split; [done|]. split; [|done]. split; simpl.
  - by apply lseg_delete_other.
  - destruct cells as [|[b x] cells]; simpl in Hl.
    + subst nx. done.
    + destruct Hl as [-> _]. rewrite Ht. done.
  - rewrite Hs, uint_pred. f_equal. simpl length. lia.
Qed.

Lemma dequeue_nothing h q :
  head_data h q = None → (∀ qu a, q = Some qu → head qu = Some a → is_Some (h !! a)) →
  dequeue h q = Ok (h, q, -1).
Proof.
  intros Hhd Hok. destruct q as [qu|]; [|done]. unfold dequeue.
  destruct (head qu) as [a|] eqn:Ha; [|done].
  destruct (Hok qu a eq_refl Ha) as [n Hn].
  unfold head_data in Hhd. simpl in Hhd. rewrite Ha in Hhd. simpl in Hhd.
  rewrite Hn in Hhd. done.
Qed.

(** The loop stops at once at a head that has not expired. *)
Lemma evict_stop fuel h qu a n timestamp :
  head qu = Some a → h !! a = Some n → expired timestamp (data n) = false →
  evict fuel h (Some qu) timestamp = Ok (h, Some qu, []).
Proof.
  intros Ha Hn Hex. unfold expired in Hex.
  destruct fuel; simpl; unfold load; rewrite Ha, Hn; simpl; now rewrite Hex.
Qed.

Lemma evict_empty fuel h q timestamp :
  (∀ qu, q = Some qu → head qu = None) →
  evict fuel h q timestamp = Ok (h, q, []).
Proof.
  intros Hq. destruct q as [qu|]; [|by destruct fuel].
  destruct fuel; simpl; now rewrite (Hq qu eq_refl).
Qed.

(** The loop never runs out of turns: each turn frees a node. *)
Lemma evict_fuel fuel fuel' h q timestamp :
  (base.size h ≤ fuel)%nat → (base.size h ≤ fuel')%nat →
  evict fuel h q timestamp = evict fuel' h q timestamp.
Proof.
  revert fuel' h q. induction fuel as [|k IH]; intros fuel' h q Hf Hf'.
  - assert (h = ∅) as -> by (apply map_size_empty_inv; lia).
    destruct q as [qu|]; [|by destruct fuel'].
    destruct fuel'; simpl; destruct (head qu); try done;
      unfold load; now rewrite lookup_empty.
  - destruct q as [qu|]; [|by destruct fuel'].
    destruct (head qu) as [a|] eqn:Ha; [|destruct fuel'; simpl; now rewrite Ha].
    destruct (h !! a) as [n|] eqn:Hn;
      [|destruct fuel'; simpl; unfold load; now rewrite Ha, Hn].
    assert (base.size h ≠ 0%nat) as Hnz.
    { intros Hz. apply map_size_empty_inv in Hz. subst h.
      rewrite lookup_empty in Hn. done. }
    destruct fuel' as [|k']; [lia|].
    simpl. unfold dequeue, load. rewrite Ha, Hn. simpl.
    destruct (bool_decide _); [|done].
    rewrite (IH k' (delete a h)); [done| |];
      rewrite map_size_delete_Some by eauto; lia.
Qed.

Lemma evict_total h q timestamp :
  evict (S (base.size h)) h q timestamp ≠ Crash OutOfFuel.
Proof.
  remember (S (base.size h)) as fuel eqn:Hfuel.
  assert (base.size h < fuel)%nat as Hlt by lia. clear Hfuel.
  revert h q Hlt. induction fuel as [|k IH]; intros h q Hlt; [lia|].
  destruct q as [qu|]; [|done]. simpl. unfold dequeue.
  destruct (head qu) as [a|]; [|done]. unfold load.
  destruct (h !! a) as [n|] eqn:Hn; [|done]. simpl.
  destruct (bool_decide _); [|done].
  assert (base.size h ≠ 0%nat) as Hnz.
  { intros Hz. apply map_size_empty_inv in Hz. subst h.
    rewrite lookup_empty in Hn. done. }
  specialize (IH (delete a h) (Some (Queue (next n)
     match next n with Some _ => tail qu | None => None end (uint (size qu - 1))))).
  destruct (evict k (delete a h) _ timestamp) as [[[h2 q2] out]|f] eqn:He; [done|].
  simpl. intros [= ->]. apply IH; [|done].
  rewrite map_size_delete_Some by eauto. lia.
Qed.

(** On a well-formed queue the loop removes the longest run of expired
    entries at the head, and nothing else. *)
Lemma evict_rep fuel h q cells timestamp :
  slot_rep h q cells → (length cells ≤ fuel)%nat →
  ∃ h' q',
    evict fuel h q timestamp
      = Ok (h', q', (take_while (expired timestamp ∘ snd) cells).*2)
    ∧ slot_rep h' q' (drop_while (expired timestamp ∘ snd) cells)
    ∧ (q = None ↔ q' = None)
    ∧ (take_while (expired timestamp ∘ snd) cells = [] → h' = h ∧ q' = q).
Proof.
  revert fuel h q. induction cells as [|[a d] cells IH]; intros fuel h q Hrep Hf.
  - exists h, q. simpl. split; [|done].
    apply evict_empty. intros qu ->. destruct Hrep as [Hl _ _]. done.
  - destruct q as [qu|]; [|done]. simpl in Hrep.
    pose proof Hrep as [Hl _ _]. simpl in Hl. destruct Hl as [Hh (nx & Ha & _)].
    simpl. destruct (expired timestamp d) eqn:Hex.
    + destruct fuel as [|k]; [simpl in Hf; lia|].
      destruct (dequeue_rep _ _ _ _ _ Hrep) as (qu' & Hdq & Hrep' & _).
      destruct (IH k (delete a h) (Some qu') Hrep') as (h' & q' & Hev & Hr & Hnone & _).
      { simpl in Hf. lia. }
      exists h', q'. split; [|split; [done|split; [|done]]].
      * cbn [evict]. rewrite Hh. unfold load at 1. rewrite Ha. simpl.
        unfold expired in Hex. rewrite Hex. rewrite Hdq. simpl.
        rewrite Hev. done.
      * split; [done|]. intros Hq'. apply Hnone in Hq'. done.
    + exists h, (Some qu). split; [|done].
      eapply evict_stop; eauto.
Qed.

Section Refinement.
Context `{!Malloc}.

Lemma allocate_node_ok e h d :
  node_mem e = true →
  allocate_node e h d = (<[malloc_addr h := Qnode d None]> h, Some (malloc_addr h)).
Proof. intros Hn. unfold allocate_node. now rewrite Hn. Qed.

Lemma allocate_node_fail e h d :
  node_mem e = false → allocate_node e h d = (h, None).
Proof. intros Hn. unfold allocate_node. now rewrite Hn. Qed.

Lemma initialize_queue_ok e h d :
  mem_ok e →
  ∃ h' qu, initialize_queue e h d = (h', Some qu, SUCCESS)
           ∧ queue_rep h' qu [(malloc_addr h, d)].
Proof.
  intros [[g Hg] Hn]. unfold initialize_queue.
  rewrite Hg, allocate_node_ok by done.
  eexists _, _. split; [done|]. split; simpl.
  - split; [done|]. exists None. now rewrite lookup_insert_eq.
  - done.
  - done.
Qed.

(** [enqueue] of rate-limiter.c appends at the tail of a well-formed queue
    that holds fewer entries than [size] can count. *)
Lemma enqueue_rep e h q cells d :
  slot_rep h q cells → Z.of_nat (length cells) < UINT_RANGE → mem_ok e →
  ∃ h' qu', ST.enqueue e h q d = Ok (h', Some qu', SUCCESS)
            ∧ queue_rep h' qu' (cells ++ [(malloc_addr h, d)])
            ∧ (∀ qu, q = Some qu → size qu' = uint (size qu + 1)).
Proof.
  intros Hrep Hlen Hmem. destruct q as [qu|]; simpl in Hrep.
  - destruct Hmem as [_ Hn]. destruct Hrep as [Hl Ht Hs].
    pose proof (malloc_fresh h) as Hfresh.
    unfold ST.enqueue. rewrite allocate_node_ok by done.
    rewrite uint_small in Hs by lia.
    destruct cells as [|c cells _] using rev_ind.
    + simpl in *. rewrite Hs. simpl.
      eexists _, _. split; [done|]. split; [|by intros ? [= <-]; rewrite Hs].
      split; simpl; [|done|done].
      split; [done|]. exists None. now rewrite lookup_insert_eq.
    + destruct c as [t x]. rewrite last_addr_snoc in Ht. simpl in Ht.
      rewrite length_app in Hs, Hlen. simpl in Hs, Hlen.
      rewrite bool_decide_true by lia.
      pose proof (lseg_last _ _ _ _ _ Hl) as Hlast.
      assert (malloc_addr h ≠ t) as Hne by congruence.
      rewrite Ht. simpl. unfold load.
      rewrite lookup_insert_ne, Hlast by done. simpl.
      eexists _, _. split; [done|]. split; [|by intros ? [= <-]].
      split; simpl.
      * rewrite <- app_assoc. simpl. by apply lseg_snoc.
      * now rewrite last_addr_snoc.
      * rewrite Hs. f_equal. rewrite !length_app. simpl. lia.
  - subst cells. unfold ST.enqueue.
    destruct (initialize_queue_ok e h d Hmem) as (h' & qu & -> & Hq).
    eexists _, _. split; [done|]. split; [done|]. intros ? [=].
Qed.

(** When the allocator has nothing to give, [enqueue] changes no list. *)
Lemma enqueue_node_fail e h qu d :
  node_mem e = false → ST.enqueue e h (Some qu) d = Ok (h, Some qu, FAILURE).
Proof. intros Hn. unfold ST.enqueue. now rewrite allocate_node_fail. Qed.

(** [enqueue] of rate-limiter-mt.c: the same as long as there is a tail. *)
Lemma mt_enqueue_absent e h d : MT.enqueue e h None d = ST.enqueue e h None d.
Proof. done. Qed.

Lemma mt_enqueue_nonempty e h qu d :
  size qu ≠ 0 → MT.enqueue e h (Some qu) d = ST.enqueue e h (Some qu) d.
Proof.
  intros Hs. unfold MT.enqueue, ST.enqueue.
  destruct (allocate_node e h d) as [h1 [temp|]]; [|done].
  rewrite bool_decide_true by done.
  destruct (tail qu) as [t|]; [|done]. simpl. unfold load.
  destruct (h1 !! t); done.
Qed.

Lemma mt_enqueue_empty e h qu d :
  tail qu = None → node_mem e = true →
  MT.enqueue e h (Some qu) d = Crash NullDeref.
Proof.
  intros Ht Hn. unfold MT.enqueue. rewrite allocate_node_ok by done.
  now rewrite Ht.
Qed.

Lemma has_room_rep h q cells :
  slot_rep h q cells → Z.of_nat (length cells) < UINT_RANGE →
  has_room q = bool_decide (Z.of_nat (length cells) < MAX_REQ).
Proof.
  intros Hrep Hlen. destruct q as [qu|]; simpl in *.
  - destruct Hrep as [_ _ Hs]. rewrite Hs, uint_small by lia. done.
  - subst cells. done.
Qed.

(** One admission check of rate-limiter.c on a well-formed queue does to the
    stored timestamps what [window_step] does to a list. *)
Lemma check_rep e h q cells timestamp :
  slot_rep h q cells → Z.of_nat (length cells) < UINT_RANGE → mem_ok e →
  ∃ h' q' cells',
    ST.check_tenant_allowed e h q timestamp
      = Ok (h', q', (window_step timestamp (clock e) cells.*2).1.2,
            (window_step timestamp (clock e) cells.*2).2)
    ∧ slot_rep h' q' cells'
    ∧ cells'.*2 = (window_step timestamp (clock e) cells.*2).1.1.
Proof.
  intros Hrep Hlen Hmem.
  destruct (evict_rep (S (base.size h)) h q cells timestamp Hrep)
    as (h1 & q1 & Hev & Hrep1 & _ & _).
  { destruct q as [qu|]; simpl in Hrep.
    - destruct Hrep as [Hl _ _]. apply lseg_length in Hl. lia.
    - subst cells. simpl. lia. }
  set (cells1 := drop_while (expired timestamp ∘ snd) cells) in *.
  assert (Z.of_nat (length cells1) < UINT_RANGE) as Hlen1.
  { pose proof (drop_while_length (expired timestamp ∘ snd) cells) as Hle.
    fold cells1 in Hle. lia. }
  unfold ST.check_tenant_allowed. rewrite Hev. simpl.
  rewrite (has_room_rep _ _ _ Hrep1 Hlen1).
  unfold window_step. rewrite <- drop_while_fmap, <- take_while_fmap.
  fold cells1. rewrite length_fmap.
  destruct (bool_decide (Z.of_nat (length cells1) < MAX_REQ)) eqn:Hroom.
  - destruct (enqueue_rep e h1 q1 cells1 (clock e) Hrep1 Hlen1 Hmem)
      as (h2 & qu2 & Heq & Hrep2 & _).
    unfold get_current_time_ms. rewrite Heq. simpl.
    eexists _, _, _. split; [done|]. split; [exact Hrep2|].
    now rewrite fmap_app.
  - eexists _, _, _. split; [done|]. split; [exact Hrep1|done].
Qed.

Lemma removed_of_fmap (l : list Z) : removed_of (MT.Removed <$> l) = l.
Proof.
  induction l as [|x l IH]; [done|].
  change (x :: removed_of (MT.Removed <$> l) = x :: l). by f_equal.
Qed.

Lemma removed_of_app (l : list Z) evs :
  removed_of ((MT.Removed <$> l) ++ evs) = l ++ removed_of evs.
Proof.
  unfold removed_of. rewrite omap_app. f_equal. apply removed_of_fmap.
Qed.

Lemma removed_of_trace q q2 (out : list Z) did :
  removed_of did = [] →
  removed_of (MT.lock_if q MT.Lock ++ (MT.Removed <$> out) ++ did
              ++ MT.lock_if q2 MT.Unlock) = out.
Proof.
  intros Hdid.
  assert (removed_of (MT.lock_if q MT.Lock) = []) as Hl by (by destruct q).
  assert (removed_of (MT.lock_if q2 MT.Unlock) = []) as Hu by (by destruct q2).
  unfold removed_of in *. rewrite !omap_app, Hl, Hdid, Hu. simpl.
  rewrite app_nil_r. apply removed_of_fmap.
Qed.

(** The check of rate-limiter-mt.c on a well-formed queue: it crashes when
    the queue is allocated and the loop leaves it empty, and does what
    rate-limiter.c does otherwise, between [Lock] and [Unlock]. *)
Lemma mt_check_rep e h q cells timestamp :
  slot_rep h q cells → Z.of_nat (length cells) < UINT_RANGE → mem_ok e →
  (q ≠ None ∧ drop_while (expired timestamp) cells.*2 = []
   ∧ MT.check_allowed e h q timestamp = Crash NullDeref)
  ∨ ((q = None ∨ drop_while (expired timestamp) cells.*2 ≠ [])
     ∧ ∃ h' q' ret out evs,
         ST.check_tenant_allowed e h q timestamp = Ok (h', q', ret, out)
         ∧ MT.check_allowed e h q timestamp = Ok (h', q', ret, evs)
         ∧ removed_of evs = out).
Proof.
  intros Hrep Hlen Hmem.
  destruct (evict_rep (S (base.size h)) h q cells timestamp Hrep)
    as (h1 & q1 & Hev & Hrep1 & Hnone & _).
  { destruct q as [qu|]; simpl in Hrep.
    - destruct Hrep as [Hl _ _]. apply lseg_length in Hl. lia.
    - subst cells. simpl. lia. }
  rewrite <- drop_while_fmap.
  set (cells1 := drop_while (expired timestamp ∘ snd) cells) in *.
  set (out := (take_while (expired timestamp ∘ snd) cells).*2) in *.
  assert (Z.of_nat (length cells1) < UINT_RANGE) as Hlen1.
  { pose proof (drop_while_length (expired timestamp ∘ snd) cells) as Hle.
    fold cells1 in Hle. lia. }
  pose proof removed_of_fmap as Hrem.
  pose proof removed_of_app as Hrem_app.
  unfold MT.check_allowed, ST.check_tenant_allowed. rewrite Hev. simpl.
  rewrite (has_room_rep _ _ _ Hrep1 Hlen1).
  destruct q1 as [qu1|]; simpl in Hrep1.
  - assert (q ≠ None) as Hq by (intros Hq; apply Hnone in Hq; done).
    destruct q as [qu|]; [clear Hq|done].
    pose proof Hrep1 as [Hl1 Ht1 Hs1]. rewrite uint_small in Hs1 by lia.
    destruct (decide (cells1 = [])) as [Hnil|Hcons].
    + left. split; [done|]. split; [by rewrite Hnil|].
      rewrite Hnil in Ht1 |- *. simpl in Ht1. simpl.
      rewrite mt_enqueue_empty by (done || apply Hmem). done.
    + right. split; [right; intros Hnil; by destruct cells1|].
      destruct (bool_decide (Z.of_nat (length cells1) < MAX_REQ)) eqn:Hroom.
      * rewrite mt_enqueue_nonempty.
        2:{ rewrite Hs1. destruct cells1; [done|]. simpl length. lia. }
        destruct (enqueue_rep e h1 (Some qu1) cells1 (get_current_time_ms e)
                    Hrep1 Hlen1 Hmem) as (h2 & qu2 & Heq & _ & _).
        rewrite Heq. simpl. eexists _, _, _, _, _. split; [done|].
        split; [done|]. change (MT.Lock :: ?l) with ([MT.Lock] ++ l).
        unfold removed_of at 1. rewrite omap_app. cbn [omap].
        fold (removed_of ((MT.Removed <$> out) ++ [MT.Enqueue SUCCESS; MT.Unlock])).
        rewrite Hrem_app. apply app_nil_r.
      * simpl. eexists _, _, _, _, _. split; [done|]. split; [done|].
        change (MT.Lock :: ?l) with ([MT.Lock] ++ l).
        unfold removed_of at 1. rewrite omap_app. cbn [omap].
        fold (removed_of ((MT.Removed <$> out) ++ [MT.Unlock])).
        rewrite Hrem_app. apply app_nil_r.
  - assert (q = None) as -> by (by apply Hnone).
    right. split; [by left|]. rewrite Hrep1. simpl.
    destruct (initialize_queue_ok e h1 (get_current_time_ms e) Hmem)
      as (h2 & qu2 & Heq & _).
    rewrite Heq. simpl. eexists _, _, _, _, _. split; [done|].
    split; [done|]. rewrite Hrem_app. simpl. apply app_nil_r.
Qed.

End Refinement.

(** ** Sequences of admission checks *)

Lemma window_step_length timestamp c l :
  Z.of_nat (length l) ≤ MAX_REQ →
  Z.of_nat (length (window_step timestamp c l).1.1) ≤ MAX_REQ.
Proof.
  intros Hl. unfold window_step.
  pose proof (drop_while_length (expired timestamp) l) as Hd.
  case_bool_decide as Hroom; simpl; [|lia].
  rewrite length_app. simpl. lia.
Qed.

Lemma window_step_nonempty timestamp c l : (window_step timestamp c l).1.1 ≠ [].
Proof.
  unfold window_step. case_bool_decide as Hroom; simpl.
  - intros Hnil. by apply app_eq_nil in Hnil as [_ ?].
  - intros Hnil. rewrite Hnil in Hroom. simpl in Hroom.
    unfold MAX_REQ in Hroom. lia.
Qed.

Section Runs.
Context `{!Malloc}.

Lemma check_ok e h q timestamp :
  tenant_ok h q → mem_ok e →
  ∃ st, ST.check_tenant_allowed e h q timestamp = Ok st
        ∧ tenant_ok st.1.1.1 st.1.1.2
        ∧ observe st = window_step timestamp (clock e) (entries h q)
        ∧ st.1.1.2 ≠ None.
Proof.
  intros (cells & Hrep & Hlen) Hmem.
  destruct (check_rep e h q cells timestamp Hrep) as (h' & q' & cells' & Hc & Hrep' & Hd);
    [unfold UINT_RANGE, MAX_REQ in *; lia|done|].
  rewrite (entries_rep _ _ _ Hrep).
  eexists. split; [exact Hc|]. split; [|split]; simpl.
  - exists cells'. split; [done|].
    rewrite <- (length_fmap snd cells'), Hd. apply window_step_length.
    now rewrite length_fmap.
  - unfold observe. simpl. rewrite (entries_rep _ _ _ Hrep'), Hd.
    by destruct (window_step _ _ _) as [[? ?] ?].
  - intros ->. simpl in Hrep'. subst cells'.
    symmetry in Hd. by apply window_step_nonempty in Hd.
Qed.

(** A tenant's calls never crash in rate-limiter.c, and leave what
    [window_steps] computes. *)
Lemma run_ok calls h q :
  tenant_ok h q → Forall (λ c, mem_ok c.1) calls →
  ∃ steps, ST.run calls h q = Ok steps
           ∧ Forall (λ st, tenant_ok st.1.1.1 st.1.1.2) steps
           ∧ observe <$> steps = window_steps calls (entries h q).
Proof.
  revert h q. induction calls as [|[e ts] calls IH]; intros h q Hok Hmem.
  - exists []. done.
  - apply Forall_cons in Hmem as [Hm Hmem]. simpl in Hm.
    destruct (check_ok e h q ts Hok Hm) as (st & Hc & Hok' & Hobs & _).
    destruct (IH _ _ Hok' Hmem) as (steps & Hr & Hall & Hobss).
    exists (st :: steps). simpl. rewrite Hc. simpl. rewrite Hr. simpl.
    split; [done|]. split; [by constructor|].
    change (observe st :: (observe <$> steps)
            = window_step ts (clock e) (entries h q)
              :: window_steps calls (window_step ts (clock e) (entries h q)).1.1).
    rewrite Hobss, <- Hobs. done.
Qed.

Lemma mt_check_ok e h q timestamp st :
  tenant_ok h q → mem_ok e →
  MT.check_allowed e h q timestamp = Ok st →
  tenant_ok st.1.1.1 st.1.1.2
  ∧ observe_mt st = window_step timestamp (clock e) (entries h q)
  ∧ (q = None ∨ drop_while (expired timestamp) (entries h q) ≠ []).
Proof.
  intros Hok Hmem Hmt. pose proof Hok as (cells & Hrep & Hlen).
  destruct (mt_check_rep e h q cells timestamp Hrep) as
    [(_ & _ & Hcrash)|(Hcase & h' & q' & ret & out & evs & Hst & Hmt' & Hout)];
    [unfold UINT_RANGE, MAX_REQ in *; lia|done|congruence|].
  rewrite Hmt in Hmt'. injection Hmt' as ->.
  destruct (check_ok e h q timestamp Hok Hmem) as (st' & Hc & Hok' & Hobs & _).
  rewrite Hst in Hc. injection Hc as <-.
  rewrite (entries_rep _ _ _ Hrep). split; [done|]. split; [|done].
  rewrite <- (entries_rep _ _ _ Hrep), <- Hobs.
  unfold observe, observe_mt. simpl. now rewrite Hout.
Qed.

(** Whatever rate-limiter-mt.c completes is what rate-limiter.c does. *)
Lemma mt_run_ok calls h q steps :
  tenant_ok h q → Forall (λ c, mem_ok c.1) calls →
  MT.run calls h q = Ok steps →
  Forall (λ st, tenant_ok st.1.1.1 st.1.1.2) steps
  ∧ observe_mt <$> steps = window_steps calls (entries h q).
Proof.
  revert h q steps. induction calls as [|[e ts] calls IH]; intros h q steps Hok Hmem Hrun.
  - injection Hrun as <-. done.
  - apply Forall_cons in Hmem as [Hm Hmem]. simpl in Hm, Hrun.
    destruct (MT.check_allowed e h q ts) as [st|f] eqn:Hc; [|done].
    simpl in Hrun.
    destruct (MT.run calls st.1.1.1 st.1.1.2) as [later|f] eqn:Hr; [|done].
    injection Hrun as <-.
    destruct (mt_check_ok _ _ _ _ _ Hok Hm Hc) as (Hok' & Hobs & _).
    destruct (IH _ _ _ Hok' Hmem Hr) as (Hall & Hobss).
    split; [by constructor|].
    change (observe_mt st :: (observe_mt <$> later)
            = window_step ts (clock e) (entries h q)
              :: window_steps calls (window_step ts (clock e) (entries h q)).1.1).
    rewrite Hobss, <- Hobs. done.
Qed.

(** And it completes as long as no call finds the queue allocated and every
    entry expired. *)
Lemma mt_run_safe calls h q :
  tenant_ok h q → Forall (λ c, mem_ok c.1) calls →
  keeps_tail (bool_decide (q ≠ None)) calls (entries h q) →
  ∃ steps, MT.run calls h q = Ok steps.
Proof.
  revert h q. induction calls as [|[e ts] calls IH]; intros h q Hok Hmem Hkeep.
  - by exists [].
  - apply Forall_cons in Hmem as [Hm Hmem]. simpl in Hm.
    destruct Hkeep as [Hhere Hkeep].
    pose proof Hok as (cells & Hrep & Hlen).
    destruct (mt_check_rep e h q cells ts Hrep) as
      [(Hq & Hnil & _)|(_ & h' & q' & ret & out & evs & Hst & Hmt & Hout)];
      [unfold UINT_RANGE, MAX_REQ in *; lia|done| |].
    + rewrite (entries_rep _ _ _ Hrep) in Hhere.
      destruct Hhere as [Hb|Hne]; [|done].
      apply bool_decide_eq_false in Hb. done.
    + destruct (mt_check_ok _ _ _ _ _ Hok Hm Hmt) as (Hok' & Hobs & _).
      simpl in Hok'.
      assert (q' ≠ None) as Hq'.
      { destruct (check_ok e h q ts Hok Hm) as (st' & Hc & _ & _ & Hsome).
        rewrite Hst in Hc. injection Hc as <-. done. }
      destruct (IH h' q') as (steps & Hr); [done|done| |].
      { rewrite bool_decide_true by done.
        unfold observe_mt in Hobs. simpl in Hobs.
        replace (entries h' q') with (window_step ts (clock e) (entries h q)).1.1;
          [done|]. rewrite <- Hobs. done. }
      exists ((h', q', ret, evs) :: steps). simpl. rewrite Hmt. simpl.
      rewrite Hr. done.
Qed.

End Runs.

(** ** Calls that may get no memory *)

Lemma drained_rep h : slot_rep h (Some (Queue None None 0)) [].
Proof. by split. Qed.

Lemma half_built_entries h q : half_built q → entries h q = [].
Proof. intros (g & -> & _). simpl. by destruct (base.size h). Qed.

Section AnyMemory.
Context `{!Malloc}.

(** On an allocated queue only the node is asked for. *)
Lemma st_enqueue_env e e' h qu d :
  node_mem e = node_mem e' →
  ST.enqueue e h (Some qu) d = ST.enqueue e' h (Some qu) d.
Proof. intros Hn. unfold ST.enqueue, allocate_node. now rewrite Hn. Qed.

(** What [enqueue] of rate-limiter.c that returns leaves of a well-formed
    queue of fewer than [MAX_REQ] entries, whatever the allocator answers. *)
Lemma st_enqueue_inv e h q cells d h' q' r :
  slot_rep h q cells → Z.of_nat (length cells) < MAX_REQ →
  ST.enqueue e h q d = Ok (h', q', r) →
  tenant_inv h' q'
  ∧ (entries h' q' = cells.*2 ∨ entries h' q' = cells.*2 ++ [d]).
Proof.
  intros Hrep Hlen Henq. destruct (node_mem e) eqn:Hn.
  - destruct q as [qu|].
    + rewrite (st_enqueue_env e (Env 0 (Some 0) true)) in Henq by done.
      destruct (enqueue_rep (Env 0 (Some 0) true) h (Some qu) cells d Hrep)
        as (h2 & qu2 & Heq & Hrep2 & _);
        [unfold UINT_RANGE, MAX_REQ in *; lia|split; [by eexists|done]|].
      rewrite Heq in Henq. injection Henq as <- <- <-. split.
      * left. exists (cells ++ [(malloc_addr h, d)]). split; [done|].
        rewrite length_app. simpl length. lia.
      * right. rewrite (entries_rep h2 (Some qu2) _ Hrep2), fmap_app. done.
    + simpl in Hrep. subst cells.
      destruct (queue_mem e) as [g|] eqn:Hg.
      * destruct (enqueue_rep e h None [] d eq_refl) as (h2 & qu2 & Heq & Hrep2 & _);
          [done|split; [by eexists|done]|].
        rewrite Heq in Henq. injection Henq as <- <- <-. split.
        -- left. exists [(malloc_addr h, d)]. split; [done|]. simpl.
           unfold MAX_REQ. lia.
        -- right. by rewrite (entries_rep h2 (Some qu2) _ Hrep2).
      * unfold ST.enqueue, initialize_queue in Henq. rewrite Hg in Henq.
        injection Henq as <- <- <-. split; [|by left].
        left. exists []. split; [done|]. simpl. unfold MAX_REQ. lia.
  - destruct q as [qu|].
    + rewrite enqueue_node_fail in Henq by done. injection Henq as <- <- <-.
      split; [|left; by apply entries_rep].
      left. exists cells. split; [done|]. lia.
    + simpl in Hrep. subst cells.
      unfold ST.enqueue, initialize_queue in Henq.
      destruct (queue_mem e) as [g|] eqn:Hg.
      * rewrite allocate_node_fail in Henq by done. injection Henq as <- <- <-.
        split; [|left; simpl; by destruct (base.size h)].
        destruct (decide (uint g = 0)) as [->|Hg0].
        -- left. exists []. split; [apply drained_rep|]. simpl. unfold MAX_REQ. lia.
        -- right. by exists (uint g).
      * injection Henq as <- <- <-. split; [|by left].
        left. exists []. split; [done|]. simpl. unfold MAX_REQ. lia.
Qed.

(** [enqueue] of rate-limiter-mt.c that returns did what rate-limiter.c
    does. *)
Lemma mt_enqueue_returns e h q cells d st :
  slot_rep h q cells → Z.of_nat (length cells) < UINT_RANGE →
  MT.enqueue e h q d = Ok st → ST.enqueue e h q d = Ok st.
Proof.
  intros Hrep Hlen Hmt. destruct q as [qu|]; [|done].
  destruct (node_mem e) eqn:Hn.
  - pose proof Hrep as [_ Ht Hs]. rewrite uint_small in Hs by lia.
    destruct cells as [|c cells].
    + simpl in Ht. rewrite mt_enqueue_empty in Hmt by done. done.
    + rewrite mt_enqueue_nonempty in Hmt; [done|].
      rewrite Hs. simpl length. lia.
  - rewrite enqueue_node_fail by done.
    unfold MT.enqueue in Hmt. by rewrite allocate_node_fail in Hmt.
Qed.

Lemma half_built_check e h q timestamp :
  half_built q →
  (∀ st, ST.check_tenant_allowed e h q timestamp = Ok st →
         st.1.1.1 = h ∧ st.1.1.2 = q ∧ st.2 = [])
  ∧ (∀ st, MT.check_allowed e h q timestamp = Ok st →
           st.1.1.1 = h ∧ st.1.1.2 = q ∧ removed_of st.2 = []).
Proof.
  intros (g & -> & Hg).
  assert (∀ fuel, evict fuel h (Some (Queue None None g)) timestamp
                  = Ok (h, Some (Queue None None g), [])) as Hev
    by (by intros []).
  unfold ST.check_tenant_allowed, MT.check_allowed. rewrite Hev. simpl.
  destruct (bool_decide (g < MAX_REQ)); [|split; by intros st [= <-]].
  unfold ST.enqueue, MT.enqueue, allocate_node.
  destruct (node_mem e); simpl.
  - rewrite bool_decide_true by done. simpl. split; by intros st.
  - split; by intros st [= <-].
Qed.

(** One check that returns, in any state a tenant can be in. *)
Lemma check_any e h q timestamp st :
  tenant_inv h q →
  ST.check_tenant_allowed e h q timestamp = Ok st →
  tenant_inv st.1.1.1 st.1.1.2
  ∧ step_rel timestamp (clock e) (entries h q) (observe st).
Proof.
  intros [Hok|Hhalf] Hst.
  - destruct Hok as (cells & Hrep & Hlen).
    destruct (evict_rep (S (base.size h)) h q cells timestamp Hrep)
      as (h1 & q1 & Hev & Hrep1 & _ & _).
    { destruct q as [qu|]; simpl in Hrep.
      - destruct Hrep as [Hl _ _]. apply lseg_length in Hl. lia.
      - subst cells. simpl. lia. }
    rewrite (entries_rep _ _ _ Hrep). unfold step_rel.
    rewrite <- take_while_fmap, <- !drop_while_fmap.
    set (cells1 := drop_while (expired timestamp ∘ snd) cells) in *.
    assert (Z.of_nat (length cells1) ≤ MAX_REQ) as Hlen1.
    { pose proof (drop_while_length (expired timestamp ∘ snd) cells) as Hle.
      fold cells1 in Hle. lia. }
    unfold ST.check_tenant_allowed in Hst. rewrite Hev in Hst. simpl in Hst.
    rewrite (has_room_rep _ _ _ Hrep1) in Hst
      by (unfold UINT_RANGE, MAX_REQ in *; lia).
    case_bool_decide as Hroom.
    + destruct (ST.enqueue e h1 q1 _) as [[[h2 q2] r]|] eqn:Henq; [|done].
      simpl in Hst. injection Hst as <-.
      destruct (st_enqueue_inv _ _ _ _ _ _ _ _ Hrep1 Hroom Henq) as [Hinv Hent].
      split; [done|]. split; [done|]. exact Hent.
    + injection Hst as <-. split; [left; by exists cells1|].
      split; [done|]. left. by apply entries_rep.
  - destruct (half_built_check e h q timestamp Hhalf) as [Hsame _].
    destruct (Hsame st Hst) as (Hh & Hq & Hout).
    rewrite Hh, Hq. split; [by right|].
    unfold step_rel, observe. rewrite Hh, Hq, Hout.
    rewrite (half_built_entries _ _ Hhalf). split; [done|]. by left.
Qed.

Lemma mt_check_any e h q timestamp st :
  tenant_inv h q →
  MT.check_allowed e h q timestamp = Ok st →
  tenant_inv st.1.1.1 st.1.1.2
  ∧ step_rel timestamp (clock e) (entries h q) (observe_mt st).
Proof.
  intros [Hok|Hhalf] Hmt.
  - pose proof Hok as (cells & Hrep & Hlen).
    destruct (evict_rep (S (base.size h)) h q cells timestamp Hrep)
      as (h1 & q1 & Hev & Hrep1 & _ & _).
    { destruct q as [qu|]; simpl in Hrep.
      - destruct Hrep as [Hl _ _]. apply lseg_length in Hl. lia.
      - subst cells. simpl. lia. }
    assert (Z.of_nat (length (drop_while (expired timestamp ∘ snd) cells))
            < UINT_RANGE) as Hlen1.
    { pose proof (drop_while_length (expired timestamp ∘ snd) cells) as Hle.
      unfold UINT_RANGE, MAX_REQ in *. lia. }
    unfold MT.check_allowed in Hmt. rewrite Hev in Hmt. simpl in Hmt.
    destruct (has_room q1) eqn:Hroom.
    + destruct (MT.enqueue e h1 q1 _) as [[[h2 q2] r]|] eqn:Henq; [|done].
      simpl in Hmt. injection Hmt as <-.
      apply (mt_enqueue_returns _ _ _ _ _ _ Hrep1 Hlen1) in Henq.
      destruct (check_any e h q timestamp (h2, q2, SUCCESS,
                  (take_while (expired timestamp ∘ snd) cells).*2)) as [Hinv Hrel];
        [by left| |].
      { unfold ST.check_tenant_allowed. rewrite Hev. simpl. rewrite Hroom.
        by rewrite Henq. }
      split; [done|]. unfold observe_mt. simpl.
      change (MT.Enqueue r :: MT.lock_if q2 MT.Unlock)
        with ([MT.Enqueue r] ++ MT.lock_if q2 MT.Unlock).
      rewrite removed_of_trace by done. exact Hrel.
    + injection Hmt as <-.
      destruct (check_any e h q timestamp (h1, q1, FAILURE,
                  (take_while (expired timestamp ∘ snd) cells).*2)) as [Hinv Hrel];
        [by left| |].
      { unfold ST.check_tenant_allowed. rewrite Hev. simpl. by rewrite Hroom. }
      split; [done|]. unfold observe_mt. simpl.
      change (MT.lock_if q1 MT.Unlock) with ([] ++ MT.lock_if q1 MT.Unlock).
      rewrite removed_of_trace by done. exact Hrel.
  - destruct (half_built_check e h q timestamp Hhalf) as [_ Hsame].
    destruct (Hsame st Hmt) as (Hh & Hq & Hout).
    rewrite Hh, Hq. split; [by right|].
    unfold step_rel, observe_mt. rewrite Hh, Hq, Hout.
    rewrite (half_built_entries _ _ Hhalf). split; [done|]. by left.
Qed.

(** Every run that returns, memory or not, follows [steps_rel]. *)
Lemma run_any calls h q steps :
  tenant_inv h q → ST.run calls h q = Ok steps →
  steps_rel calls (entries h q) (observe <$> steps).
Proof.
  revert h q steps. induction calls as [|[e ts] calls IH]; intros h q steps Hinv Hrun.
  - by injection Hrun as <-.
  - simpl in Hrun.
    destruct (ST.check_tenant_allowed e h q ts) as [st|] eqn:Hc; [|done].
    simpl in Hrun.
    destruct (ST.run calls st.1.1.1 st.1.1.2) as [later|] eqn:Hr; [|done].
    injection Hrun as <-.
    destruct (check_any _ _ _ _ _ Hinv Hc) as [Hinv' Hrel].
    split; [exact Hrel|]. exact (IH _ _ _ Hinv' Hr).
Qed.

Lemma mt_run_any calls h q steps :
  tenant_inv h q → MT.run calls h q = Ok steps →
  steps_rel calls (entries h q) (observe_mt <$> steps).
Proof.
  revert h q steps. induction calls as [|[e ts] calls IH]; intros h q steps Hinv Hrun.
  - by injection Hrun as <-.
  - simpl in Hrun.
    destruct (MT.check_allowed e h q ts) as [st|] eqn:Hc; [|done].
    simpl in Hrun.
    destruct (MT.run calls st.1.1.1 st.1.1.2) as [later|] eqn:Hr; [|done].
    injection Hrun as <-.
    destruct (mt_check_any _ _ _ _ _ Hinv Hc) as [Hinv' Hrel].
    split; [exact Hrel|]. exact (IH _ _ _ Hinv' Hr).
Qed.

End AnyMemory.

(** ** Single calls *)

Lemma drop_while_unexpired {A} (f : A → bool) (l : list A) :
  (∀ x, l !! 0%nat = Some x → f x = false) →
  drop_while f l = l ∧ take_while f l = [].
Proof.
  destruct l as [|x l]; simpl; [done|]. intros Hx.
  now rewrite (Hx x eq_refl).
Qed.

Section Calls.
Context `{!Malloc}.

(** A full queue whose head has not expired: both checks return [FAILURE]
    and touch nothing, whatever the clock and the allocator would answer. *)
Lemma check_reject e h q cells timestamp :
  slot_rep h q cells →
  MAX_REQ ≤ Z.of_nat (length cells) < UINT_RANGE →
  (∀ c, cells !! 0%nat = Some c → expired timestamp c.2 = false) →
  ST.check_tenant_allowed e h q timestamp = Ok (h, q, FAILURE, [])
  ∧ MT.check_allowed e h q timestamp = Ok (h, q, FAILURE, [MT.Lock; MT.Unlock]).
Proof.
  intros Hrep Hlen Hhead.
  destruct (drop_while_unexpired (expired timestamp ∘ snd) cells) as [Hd Ht].
  { intros c Hc. simpl. eauto. }
  destruct (evict_rep (S (base.size h)) h q cells timestamp Hrep)
    as (h1 & q1 & Hev & Hrep1 & _ & Hsame).
  { destruct q as [qu|]; simpl in Hrep.
    - destruct Hrep as [Hl _ _]. apply lseg_length in Hl. lia.
    - subst cells. simpl. lia. }
  destruct (Hsame Ht) as [-> ->]. rewrite Ht, fmap_nil in Hev.
  unfold ST.check_tenant_allowed, MT.check_allowed. rewrite Hev. simpl.
  rewrite (has_room_rep _ _ _ Hrep) by lia.
  rewrite bool_decide_false by lia. simpl.
  destruct q as [qu|]; [done|].
  simpl in Hrep. subst cells. simpl in Hlen. unfold MAX_REQ in Hlen. lia.
Qed.

Lemma evict_some fuel h qu timestamp h1 q1 out :
  evict fuel h (Some qu) timestamp = Ok (h1, q1, out) → is_Some q1.
Proof.
  revert h qu h1 q1 out. induction fuel as [|k IH]; intros h qu h1 q1 out.
  - simpl. destruct (head qu); [|by intros [= <- <- <-]; eauto].
    destruct (load h a) as [n|]; simpl; [|done].
    destruct (bool_decide _); [done|by intros [= <- <- <-]; eauto].
  - simpl. destruct (head qu) as [a|] eqn:Ha; [|by intros [= <- <- <-]; eauto].
    destruct (load h a) as [n|] eqn:Hn; simpl; [|done].
    destruct (bool_decide _); [|by intros [= <- <- <-]; eauto].
    unfold dequeue. rewrite Ha, Hn. simpl.
    destruct (evict k _ _ _) as [[[h2 q2] out2]|] eqn:He; simpl; [|done].
    intros [= <- <- <-]. eauto.
Qed.

Lemma st_enqueue_some e h qu d h' q' r :
  ST.enqueue e h (Some qu) d = Ok (h', q', r) → is_Some q'.
Proof.
  unfold ST.enqueue. destruct (allocate_node e h d) as [h1 [temp|]].
  - destruct (bool_decide _); simpl.
    + destruct (deref _) as [t|]; simpl; [|done].
      destruct (load _ _); simpl; [|done]. intros [= <- <- <-]. eauto.
    + intros [= <- <- <-]. eauto.
  - intros [= <- <- <-]. eauto.
Qed.

Lemma mt_enqueue_some e h qu d h' q' r :
  MT.enqueue e h (Some qu) d = Ok (h', q', r) → is_Some q'.
Proof.
  unfold MT.enqueue. destruct (allocate_node e h d) as [h1 [temp|]].
  - destruct (deref _) as [t|]; simpl; [|done].
    destruct (load _ _); simpl; [|done]. intros [= <- <- <-]. eauto.
  - intros [= <- <- <-]. eauto.
Qed.

Lemma st_enqueue_fuel e h q d : ST.enqueue e h q d ≠ Crash OutOfFuel.
Proof.
  unfold ST.enqueue. destruct q as [qu|]; [|done].
  destruct (allocate_node e h d) as [h1 [temp|]]; [|done].
  destruct (bool_decide _); simpl; [|done].
  destruct (tail qu) as [t|]; simpl; [|done]. unfold load.
  destruct (h1 !! t); done.
Qed.

Lemma mt_enqueue_fuel e h q d : MT.enqueue e h q d ≠ Crash OutOfFuel.
Proof.
  unfold MT.enqueue. destruct q as [qu|]; [|done].
  destruct (allocate_node e h d) as [h1 [temp|]]; [|done].
  destruct (tail qu) as [t|]; simpl; [|done]. unfold load.
  destruct (h1 !! t); done.
Qed.

(** Both admission checks terminate in every state, well formed or not: the
    turns given to the loop are never used up. *)
Lemma checks_terminate e h q timestamp :
  ST.check_tenant_allowed e h q timestamp ≠ Crash OutOfFuel
  ∧ MT.check_allowed e h q timestamp ≠ Crash OutOfFuel.
Proof.
  pose proof (evict_total h q timestamp) as Hev.
  pose proof (st_enqueue_fuel e) as Hst. pose proof (mt_enqueue_fuel e) as Hmt.
  unfold ST.check_tenant_allowed, MT.check_allowed.
  destruct (evict _ h q timestamp) as [[[h1 q1] out]|f]; simpl.
  - destruct (has_room q1); [|done]. specialize (Hst h1 q1 (get_current_time_ms e)).
    specialize (Hmt h1 q1 (get_current_time_ms e)).
    destruct (ST.enqueue e h1 q1 _) as [[[? ?] ?]|?];
      destruct (MT.enqueue e h1 q1 _) as [[[? ?] ?]|?]; simpl; split; congruence.
  - split; congruence.
Qed.

(** What a successful allocation leaves at the tail, in any state. *)
Lemma st_enqueue_tail e h q d h' q' r :
  mem_ok e → ST.enqueue e h q d = Ok (h', q', r) →
  r = SUCCESS ∧ tail_data h' q' = Some d.
Proof.
  intros [[g Hg] Hn]. unfold ST.enqueue, initialize_queue.
  rewrite allocate_node_ok by done. destruct q as [qu|].
  - destruct (bool_decide _); simpl.
    + destruct (tail qu) as [t|]; simpl; [|done]. unfold load.
      destruct (decide (t = malloc_addr h)) as [->|Hne].
      * rewrite lookup_insert_eq. simpl. intros [= <- <- <-].
        split; [done|]. unfold tail_data. simpl. now rewrite lookup_insert_eq.
      * rewrite lookup_insert_ne by done.
        destruct (h !! t) as [n|]; simpl; [|done]. intros [= <- <- <-].
        split; [done|]. unfold tail_data. simpl.
        rewrite lookup_insert_ne by done. now rewrite lookup_insert_eq.
    + intros [= <- <- <-]. split; [done|].
      unfold tail_data. simpl. now rewrite lookup_insert_eq.
  - rewrite Hg. intros [= <- <- <-]. split; [done|].
    unfold tail_data. simpl. now rewrite lookup_insert_eq.
Qed.

Lemma mt_enqueue_tail e h q d h' q' r :
  mem_ok e → MT.enqueue e h q d = Ok (h', q', r) →
  r = SUCCESS ∧ tail_data h' q' = Some d.
Proof.
  intros [[g Hg] Hn]. unfold MT.enqueue, initialize_queue.
  rewrite allocate_node_ok by done. destruct q as [qu|].
  - destruct (tail qu) as [t|]; simpl; [|done]. unfold load.
    destruct (decide (t = malloc_addr h)) as [->|Hne].
    + rewrite lookup_insert_eq. simpl. intros [= <- <- <-].
      split; [done|]. unfold tail_data. simpl. now rewrite lookup_insert_eq.
    + rewrite lookup_insert_ne by done.
      destruct (h !! t) as [n|]; simpl; [|done]. intros [= <- <- <-].
      split; [done|]. unfold tail_data. simpl.
      rewrite lookup_insert_ne by done. now rewrite lookup_insert_eq.
  - rewrite Hg. intros [= <- <- <-]. split; [done|].
    unfold tail_data. simpl. now rewrite lookup_insert_eq.
Qed.

End Calls.

(** ** The example states are what they are meant to be *)

Lemma full_rep : slot_rep full_heap full_queue full_cells.
Proof.
  split; [|done|done]. simpl.
  repeat (split; [reflexivity|]; eexists; split; [vm_compute; reflexivity|]).
  reflexivity.
Qed.

Lemma answering_ok c : mem_ok (answering c).
Proof. split; [by eexists|done]. Qed.

(** The last [dequeue] leaves the header allocated with both pointers [NULL]
    and [size] 0. *)
Lemma dequeue_last h a d :
  h !! a = Some (Qnode d None) →
  dequeue h (Some (Queue (Some a) (Some a) 1)) = Ok (delete a h, drained_queue, d).
Proof. intros Ha. unfold dequeue, load. simpl. now rewrite Ha. Qed.

(** A tenant's first request, with memory available. *)
Lemma mt_first_request `{!Malloc} e h timestamp :
  mem_ok e →
  MT.check_allowed e h None timestamp
  = Ok (<[malloc_addr h := Qnode (clock e) None]> h,
        Some (Queue (Some (malloc_addr h)) (Some (malloc_addr h)) 1), SUCCESS,
        [MT.Enqueue SUCCESS; MT.Unlock]).
Proof.
  intros [[g Hg] Hn].
  assert (∀ fuel, evict fuel h None timestamp = Ok (h, None, [])) as Hev0
    by (by intros []).
  unfold MT.check_allowed. rewrite Hev0. simpl.
  unfold MT.enqueue, initialize_queue. simpl.
  rewrite !allocate_node_ok, Hg by done. done.
Qed.

(** ** Filling the quota *)

Lemma window_step_room timestamp c l :
  (∀ x, l !! 0%nat = Some x → expired timestamp x = false) →
  Z.of_nat (length l) < MAX_REQ →
  window_step timestamp c l = (l ++ [c], SUCCESS, []).
Proof.
  intros Hhead Hlen. unfold window_step.
  destruct (drop_while_unexpired (expired timestamp) l Hhead) as [-> ->].
  now rewrite bool_decide_true.
Qed.

(** Calls at one [timestamp], stored under clock readings that have not
    expired at it, while there is room: each is admitted and appended. *)
Lemma window_steps_fill timestamp calls l b :
  Forall (λ c, c.2 = timestamp ∧ expired timestamp (clock c.1) = false) calls →
  Forall (λ d, expired timestamp d = false) l →
  Z.of_nat (length l) + Z.of_nat (length calls) ≤ MAX_REQ →
  b = false ∨ l ≠ [] →
  Forall (λ o, o.1.2 = SUCCESS) (window_steps calls l)
  ∧ (∀ o, last (window_steps calls l) = Some o →
          o.1.1 = l ++ ((clock ∘ fst) <$> calls))
  ∧ keeps_tail b calls l.
Proof.
  revert l b. induction calls as [|[e ts] calls IH]; intros l b Hcalls Hl Hlen Hb.
  - simpl. split; [constructor|]. split; [done|done].
  - apply Forall_cons in Hcalls as [[Hts Hc] Hcalls]. simpl in Hts, Hc. subst ts.
    assert (∀ x, l !! 0%nat = Some x → expired timestamp x = false) as Hhead.
    { intros x Hx. rewrite Forall_forall in Hl. apply Hl.
      eapply list_elem_of_lookup_2; eauto. }
    assert (window_step timestamp (clock e) l = (l ++ [clock e], SUCCESS, [])) as Hadm.
    { apply window_step_room; [done|]. simpl length in Hlen. lia. }
    destruct (IH (l ++ [clock e]) true Hcalls) as (Hret & Hlast & Hkeep).
    { apply Forall_app. split; [done|]. by constructor. }
    { rewrite length_app. simpl length in *. lia. }
    { right. by destruct l. }
    simpl. rewrite Hadm. simpl. split; [by constructor|]. split; [|split].
    + intros o. rewrite last_cons.
      destruct (last (window_steps calls (l ++ [clock e]))) as [o'|] eqn:Ho'.
      * intros [= <-]. rewrite (Hlast o' eq_refl), <- app_assoc. done.
      * intros [= <-]. apply last_None in Ho'.
        destruct calls as [|[e' ts'] calls]; [|done]. done.
    + destruct Hb as [->|Hne]; [by left|right].
      by destruct (drop_while_unexpired (expired timestamp) l Hhead) as [-> _].
    + done.
Qed.

Lemma tenant_ok_absent h : tenant_ok h None.
Proof. exists []. split; [done|]. simpl. unfold MAX_REQ. lia. Qed.

(** What [tenant_ok] says of the [size] field. *)
Lemma tenant_ok_size h q :
  tenant_ok h q →
  Z.of_nat (length (entries h q)) ≤ MAX_REQ
  ∧ ∀ qu, q = Some qu → size qu = Z.of_nat (length (entries h q)).
Proof.
  intros (cells & Hrep & Hlen). rewrite (entries_rep _ _ _ Hrep), length_fmap.
  split; [done|]. intros qu ->. destruct Hrep as [_ _ Hs].
  rewrite Hs. apply uint_small. unfold UINT_RANGE, MAX_REQ in *. lia.
Qed.

(** A tenant at its quota with an unexpired head is turned away, unchanged. *)
Lemma tenant_full_reject `{!Malloc} e h q timestamp :
  tenant_ok h q →
  Z.of_nat (length (entries h q)) = MAX_REQ →
  (∀ x, entries h q !! 0%nat = Some x → expired timestamp x = false) →
  ST.check_tenant_allowed e h q timestamp = Ok (h, q, FAILURE, [])
  ∧ MT.check_allowed e h q timestamp = Ok (h, q, FAILURE, [MT.Lock; MT.Unlock]).
Proof.
  intros (cells & Hrep & _) Hlen Hhead.
  rewrite (entries_rep _ _ _ Hrep) in Hlen, Hhead. rewrite length_fmap in Hlen.
  apply (check_reject e h q cells timestamp Hrep).
  - unfold UINT_RANGE, MAX_REQ in *. lia.
  - intros c Hc. apply Hhead. now rewrite list_lookup_fmap, Hc.
Qed.

(** ** Order of the stored timestamps *)


Lemma sorted_after_drop (r l1 : list Z) c cs :
  StronglySorted Z.le ((r ++ l1) ++ c :: cs) →
  StronglySorted Z.le ((l1 ++ [c]) ++ cs) ∧ StronglySorted Z.le (l1 ++ cs).
Proof.
  intros Hs.
  assert (StronglySorted Z.le ((l1 ++ [c]) ++ cs)) as Hs1.
  { rewrite <- !app_assoc in Hs. apply StronglySorted_app_1_r in Hs.
    by rewrite <- app_assoc. }
  split; [done|].
  rewrite <- app_assoc in Hs1. simpl in Hs1.
  apply StronglySorted_app in Hs1 as (Hle & Hl1 & Hcs).
  apply StronglySorted_app_2; [|done|].
  - intros x1 x2 H1 H2. apply Hle; [done|]. by right.
  - by apply StronglySorted_cons in Hcs as [_ ?].
Qed.

(** The stored list followed by the clock readings still to come stays in
    order. *)
Lemma step_sorted timestamp e l rest o :
  StronglySorted Z.le (l ++ clocks ((e, timestamp) :: rest)) →
  step_rel timestamp (clock e) l o →
  StronglySorted Z.le (o.1.1 ++ clocks rest).
Proof.
  intros Hs [_ Ho].
  rewrite <- (take_drop_while (expired timestamp) l) in Hs.
  apply sorted_after_drop in Hs as [Hs1 Hs2].
  by destruct Ho as [-> | ->].
Qed.

(** What a check leaves, followed by the clock readings still to come, is
    taken from what the loop kept and the clock readings from this call on. *)
Lemma step_kept e timestamp l rest o y :
  step_rel timestamp (clock e) l o →
  y ∈ o.1.1 ++ clocks rest →
  y ∈ drop_while (expired timestamp) l ++ clocks ((e, timestamp) :: rest).
Proof.
  intros [_ Ho]. unfold clocks. rewrite fmap_cons.
  destruct Ho as [-> | ->]; cbn [fst snd];
    rewrite ?elem_of_app, ?elem_of_cons, ?elem_of_app, ?elem_of_cons;
    pose proof (elem_of_nil y); tauto.
Qed.

Lemma drop_while_elem {A} (f : A → bool) (l : list A) y :
  y ∈ drop_while f l → y ∈ l.
Proof.
  intros Hy. rewrite <- (take_drop_while f l). apply elem_of_app. by right.
Qed.

(** Whatever bounds, from below, the stored entries and the clock readings
    still to come bounds every entry of every later queue. *)
Lemma steps_bound m calls l tr :
  (∀ y, y ∈ l ++ clocks calls → m ≤ y) →
  steps_rel calls l tr →
  ∀ o y, o ∈ tr → y ∈ o.1.1 → m ≤ y.
Proof.
  revert l tr. induction calls as [|[e ts] calls IH]; intros l tr Hm Hrel o y Ho Hy.
  - destruct tr; [by apply elem_of_nil in Ho|done].
  - destruct tr as [|o1 tr]; [done|]. destruct Hrel as [Hstep Hrel].
    assert (∀ y, y ∈ o1.1.1 ++ clocks calls → m ≤ y) as Hm'.
    { intros z Hz. apply Hm. apply (step_kept e ts l calls o1) in Hz; [|done].
      apply elem_of_app in Hz as [Hz|Hz]; apply elem_of_app; [left|by right].
      by apply drop_while_elem in Hz. }
    apply elem_of_cons in Ho as [->|Ho].
    + apply Hm'. apply elem_of_app. by left.
    + eapply IH; eauto.
Qed.

Lemma steps_rel_order calls l tr :
  StronglySorted Z.le (l ++ clocks calls) →
  steps_rel calls l tr →
  queues_sorted tr ∧ heads_monotone tr ∧ removed_below_heads tr.
Proof.
  revert l tr. induction calls as [|[e ts] calls IH]; intros l tr Hs Hrel.
  - destruct tr; [|done].
    split; [constructor|]. split; intros i j oi oj ? ? _ Hi; by destruct i.
  - destruct tr as [|o tr]; [done|]. destruct Hrel as [Hstep Hrel].
    pose proof (step_sorted ts e l calls o Hs Hstep) as Hs'.
    destruct (IH _ _ Hs' Hrel) as (IH1 & IH2 & IH3).
    pose proof Hstep as [Ho2 _].
    split; [|split].
    + constructor; [|done]. by apply StronglySorted_app_1_l in Hs'.
    + intros i j oi oj a b Hij Hi Hj Ha Hb.
      destruct i as [|i]; [|destruct j as [|j]; [lia|]].
      * simpl in Hi. injection Hi as <-.
        destruct j as [|j].
        { simpl in Hj. injection Hj as <-. rewrite Ha in Hb.
          injection Hb as <-. lia. }
        simpl in Hj. apply (steps_bound a calls o.1.1 tr) with (o := oj).
        -- intros y Hy.
           destruct (o.1.1) as [|a' l'] eqn:Hol; [done|].
           simpl in Ha. injection Ha as ->. simpl in Hs', Hy.
           apply StronglySorted_cons in Hs' as [Hall _].
           apply elem_of_cons in Hy as [->|Hy]; [lia|].
           rewrite Forall_forall in Hall. by apply Hall.
        -- done.
        -- eapply list_elem_of_lookup_2; eauto.
        -- eapply list_elem_of_lookup_2; eauto.
      * simpl in Hi, Hj. eapply (IH2 i j); eauto. lia.
    + intros i j oi oj x b Hij Hi Hj Hx Hb.
      destruct i as [|i]; [|destruct j as [|j]; [lia|]].
      * simpl in Hi. injection Hi as <-.
        rewrite Ho2 in Hx.
        assert (∀ y, y ∈ drop_while (expired ts) l ++ clocks ((e, ts) :: calls)
                     → x ≤ y) as Hbound.
        { intros y Hy.
          rewrite <- (take_drop_while (expired ts) l), <- app_assoc in Hs.
          exact (StronglySorted_app_1_elem_of Z.le _ _ x y Hs Hx Hy). }
        destruct j as [|j].
        -- simpl in Hj. injection Hj as <-. apply Hbound.
           apply list_elem_of_lookup_2 in Hb.
           apply (step_kept e ts l calls o b Hstep).
           apply elem_of_app. by left.
        -- simpl in Hj. apply (steps_bound x calls o.1.1 tr) with (o := oj).
           ++ intros y Hy. apply Hbound. by apply (step_kept e ts l calls o y).
           ++ done.
           ++ eapply list_elem_of_lookup_2; eauto.
           ++ eapply list_elem_of_lookup_2; eauto.
      * simpl in Hi, Hj. eapply (IH3 i j); eauto. lia.
Qed.

(** ** The queue on its own *)

Section QueueOps.
Context `{!Malloc}.

(** A successful [enqueue] keeps the queue well formed, whatever the number
    of entries: with [size] at 0 the new node becomes head and tail. *)
Lemma enqueue_any e h q cells d :
  slot_rep h q cells → node_mem e = true → (q = None → is_Some (queue_mem e)) →
  ∃ h' qu' cells',
    ST.enqueue e h q d = Ok (h', Some qu', SUCCESS) ∧ queue_rep h' qu' cells'.
Proof.
  intros Hrep Hn Hq. destruct q as [qu|].
  - simpl in Hrep. pose proof Hrep as [Hl Ht Hs].
    destruct (decide (size qu = 0)) as [Hz|Hnz].
    + unfold ST.enqueue. rewrite allocate_node_ok by done.
      rewrite bool_decide_false by (intros ?; done). rewrite Hz. simpl.
      eexists _, _, [(malloc_addr h, d)]. split; [done|]. split; simpl; [|done|done].
      split; [done|]. exists None. now rewrite lookup_insert_eq.
    + pose proof (malloc_fresh h) as Hfresh.
      unfold ST.enqueue. rewrite allocate_node_ok by done.
      rewrite bool_decide_true by done.
      destruct cells as [|[t x] cells _] using rev_ind; [by rewrite Hs in Hnz|].
      rewrite last_addr_snoc in Ht. simpl in Ht.
      pose proof (lseg_last _ _ _ _ _ Hl) as Hlast.
      assert (malloc_addr h ≠ t) as Hne by congruence.
      rewrite Ht. simpl. unfold load.
      rewrite lookup_insert_ne, Hlast by done. simpl.
      eexists _, _, ((cells ++ [(t, x)]) ++ [(malloc_addr h, d)]).
      split; [done|]. split; simpl.
      * rewrite <- app_assoc. simpl. by apply lseg_snoc.
      * now rewrite last_addr_snoc.
      * rewrite Hs, uint_succ. f_equal. rewrite !length_app. simpl. lia.
  - simpl in Hrep. subst cells. unfold ST.enqueue.
    destruct (initialize_queue_ok e h d) as (h' & qu & -> & Hqu);
      [split; auto|].
    eexists _, _, _. split; [done|exact Hqu].
Qed.

(** Without the half-done initialisation, every operation of rate-limiter.c
    takes a well-formed queue to a well-formed queue and never crashes. *)
Lemma apply_op_rep e o h q cells :
  slot_rep h q cells → half_init e = false →
  ∃ h' q' r cells', ST.apply_op e o h q = Ok (h', q', r) ∧ slot_rep h' q' cells'.
Proof.
  intros Hrep Hhalf. unfold half_init in Hhalf. destruct o as [d|d|]; simpl.
  - unfold initialize_queue. destruct (queue_mem e) as [g|] eqn:Hg.
    + apply negb_false_iff in Hhalf. rewrite allocate_node_ok by done.
      eexists _, _, _, [(malloc_addr h, d)]. split; [done|]. split; simpl.
      * split; [done|]. exists None. now rewrite lookup_insert_eq.
      * done.
      * done.
    + eexists _, _, _, []. split; [done|]. done.
  - destruct (node_mem e) eqn:Hn.
    + destruct q as [qu|].
      * destruct (enqueue_any e h (Some qu) cells d Hrep Hn) as (h' & qu' & cells' & -> & Hq);
          [done|]. eexists _, _, _, _. split; [done|exact Hq].
      * destruct (queue_mem e) as [g|] eqn:Hg.
        -- destruct (enqueue_any e h None cells d Hrep Hn) as (h' & qu' & cells' & -> & Hq);
             [rewrite Hg; eauto|]. eexists _, _, _, _. split; [done|exact Hq].
        -- unfold ST.enqueue, initialize_queue. rewrite Hg.
           eexists _, _, _, []. split; [done|]. done.
    + destruct q as [qu|].
      * rewrite enqueue_node_fail by done. eexists _, _, _, _. split; [done|exact Hrep].
      * destruct (queue_mem e) as [g|] eqn:Hg; [done|].
        unfold ST.enqueue, initialize_queue. rewrite Hg.
        eexists _, _, _, []. split; [done|]. done.
  - destruct q as [qu|]; [|by eexists _, _, _, cells].
    destruct cells as [|[a d] cells].
    + pose proof Hrep as [Hl _ _]. simpl in Hl. unfold dequeue. rewrite Hl.
      eexists _, _, _, []. split; [done|exact Hrep].
    + destruct (dequeue_rep _ _ _ _ _ Hrep) as (qu' & -> & Hq & _).
      eexists _, _, _, _. split; [done|exact Hq].
Qed.

Lemma run_ops_rep ops h q cells :
  slot_rep h q cells → Forall (λ o, half_init o.1 = false) ops →
  ∃ h' q' cells', ST.run_ops ops h q = Ok (h', q') ∧ slot_rep h' q' cells'.
Proof.
  revert h q cells. induction ops as [|[e o] ops IH]; intros h q cells Hrep Hops.
  - by exists h, q, cells.
  - apply Forall_cons in Hops as [He Hops]. simpl in He.
    destruct (apply_op_rep e o h q cells Hrep He) as (h1 & q1 & r & cells1 & Hop & Hrep1).
    destruct (IH _ _ _ Hrep1 Hops) as (h' & q' & cells' & Hrun & Hrep').
    exists h', q', cells'. simpl. rewrite Hop. simpl. done.
Qed.

(** What [SUCCESS] from [enqueue] does to [size], in any state. *)
Lemma enqueue_success_size e h q d h1 q1 :
  ST.enqueue e h q d = Ok (h1, q1, SUCCESS) →
  ∃ qu1, q1 = Some qu1 ∧ size qu1 = uint (size_of q + 1).
Proof.
  unfold ST.enqueue, initialize_queue. destruct q as [qu|]; simpl.
  - destruct (allocate_node e h d) as [h2 [temp|]]; [|done].
    destruct (bool_decide _); simpl.
    + destruct (tail qu) as [t|]; simpl; [|done].
      destruct (load h2 t); simpl; [|done]. intros [= <- <-]. eauto.
    + intros [= <- <-]. eauto.
  - destruct (queue_mem e); [|done].
    destruct (allocate_node e h d) as [h2 [temp|]]; [|done].
    intros [= <- <-]. eauto.
Qed.

(** As long as memory is given, [n] calls of [enqueue] link [n] more entries,
    up to the 4294967296 that [size] cannot count. *)
Lemma enqueue_many n e d h q cells :
  mem_ok e → slot_rep h q cells →
  Z.of_nat (length cells) + Z.of_nat n ≤ UINT_RANGE →
  ∃ h' q' cells',
    ST.run_ops (replicate n (e, ST.OpEnqueue d)) h q = Ok (h', q')
    ∧ slot_rep h' q' cells'
    ∧ Z.of_nat (length cells') = Z.of_nat (length cells) + Z.of_nat n.
Proof.
  intros Hmem. revert h q cells.
  induction n as [|n IH]; intros h q cells Hrep Hlen.
  - exists h, q, cells. split; [done|]. split; [done|]. lia.
  - destruct (enqueue_rep e h q cells d Hrep) as (h1 & qu1 & Henq & Hrep1 & _);
      [lia|done|].
    destruct (IH h1 (Some qu1) _ Hrep1) as (h' & q' & cells' & Hrun & Hrep' & Hlen').
    { rewrite length_app. simpl length. lia. }
    exists h', q', cells'. split; [|split; [done|]].
    + change (replicate (S n) (e, ST.OpEnqueue d))
        with ((e, ST.OpEnqueue d) :: replicate n (e, ST.OpEnqueue d)).
      cbn [ST.run_ops ST.apply_op]. rewrite Henq. exact Hrun.
    + rewrite Hlen', length_app. simpl length. lia.
Qed.

End QueueOps.

(** ** What a tenant's calls take of the heap *)

Lemma last_addr_elem cells a : last_addr cells = Some a → a ∈ cells.*1.
Proof.
  destruct cells as [|c cells _] using rev_ind; [done|].
  rewrite last_addr_snoc. intros [= <-]. rewrite fmap_app.
  apply elem_of_app. right. simpl. left.
Qed.

(** A list of nodes is the same in two heaps that agree on its nodes. *)
Lemma lseg_agree h h' p cells :
  (∀ a, a ∈ cells.*1 → h' !! a = h !! a) → lseg h p cells → lseg h' p cells.
Proof.
  revert p. induction cells as [|[b d] cells IH]; simpl; intros p Hag Hl; [done|].
  destruct Hl as [-> (nx & Hb & Hl)]. split; [done|]. exists nx. split.
  - rewrite Hag; [done|left].
  - apply IH; [|done]. intros a Ha. apply Hag. now right.
Qed.

Lemma slot_rep_agree h h' q cells :
  (∀ a, a ∈ cells.*1 → h' !! a = h !! a) → slot_rep h q cells → slot_rep h' q cells.
Proof.
  intros Hag. destruct q as [qu|]; simpl; [|done].
  intros [Hl Ht Hs]. split; [|done|done]. by apply (lseg_agree h).
Qed.

(** The loop frees the nodes it removes and touches no other. *)
Lemma evict_heap fuel h q cells timestamp h1 q1 out :
  slot_rep h q cells → evict fuel h q timestamp = Ok (h1, q1, out) →
  ∀ a, h1 !! a
       = if bool_decide (a ∈ (take_while (expired timestamp ∘ snd) cells).*1)
         then None else h !! a.
Proof.
  revert fuel h q h1 q1 out.
  induction cells as [|[b d] cells IH]; intros fuel h q h1 q1 out Hrep Hev a.
  - rewrite evict_empty in Hev.
    + by injection Hev as <- <- <-.
    + intros qu ->. by destruct Hrep as [Hl _ _].
  - destruct q as [qu|]; [|done]. simpl in Hrep.
    pose proof Hrep as [Hl _ _]. simpl in Hl. destruct Hl as [Hh (nx & Hb & _)].
    simpl. destruct (expired timestamp d) eqn:Hex.
    + destruct fuel as [|k].
      { simpl in Hev. unfold load in Hev. rewrite Hh, Hb in Hev. simpl in Hev.
        unfold expired in Hex. by rewrite Hex in Hev. }
      destruct (dequeue_rep _ _ _ _ _ Hrep) as (qu' & Hdq & Hrep' & _).
      cbn [evict] in Hev. rewrite Hh in Hev. unfold load at 1 in Hev.
      rewrite Hb in Hev. simpl in Hev. unfold expired in Hex.
      rewrite Hex, Hdq in Hev. simpl in Hev.
      destruct (evict k (delete b h) (Some qu') timestamp)
        as [[[h2 q2] out2]|] eqn:Hev2; [|done].
      simpl in Hev. injection Hev as <- <- <-.
      rewrite (IH k (delete b h) (Some qu') _ _ _ Hrep' Hev2 a).
      rewrite fmap_cons. cbn [fst].
      destruct (decide (a = b)) as [->|Hne].
      * rewrite (bool_decide_true (b ∈ b :: _)) by left.
        rewrite lookup_delete_eq. destruct (bool_decide (b ∈ _)); reflexivity.
      * rewrite lookup_delete_ne by done.
        apply (f_equal (λ c : bool, if c then None else h !! a)).
        apply bool_decide_ext. rewrite elem_of_cons. tauto.
    + rewrite (evict_stop fuel h qu b (Qnode d nx)) in Hev by done.
      by injection Hev as <- <- <-.
Qed.

Section Frame.
Context `{!Malloc}.

(** [enqueue] writes the new node and the [next] of the old tail. *)
Lemma st_enqueue_outside e h q d h' q' r a :
  ST.enqueue e h q d = Ok (h', q', r) → a ≠ malloc_addr h →
  (∀ qu, q = Some qu → tail qu ≠ Some a) → h' !! a = h !! a.
Proof.
  intros Henq Hne Htail. unfold ST.enqueue, initialize_queue, allocate_node in Henq.
  destruct q as [qu|].
  - specialize (Htail qu eq_refl). destruct (node_mem e).
    + destruct (bool_decide _); simpl in Henq.
      * destruct (tail qu) as [t|]; simpl in Henq; [|done].
        destruct (load _ t); simpl in Henq; [|done].
        injection Henq as <- <- <-.
        rewrite !lookup_insert_ne by congruence. done.
      * injection Henq as <- <- <-. by rewrite lookup_insert_ne.
    + by injection Henq as <- <- <-.
  - destruct (queue_mem e); [|by injection Henq as <- <- <-].
    destruct (node_mem e); injection Henq as <- <- <-; [|done].
    by rewrite lookup_insert_ne.
Qed.

(** One admission check of rate-limiter.c that gets memory, with what it
    does to the heap: the nodes of the queue are old ones or were free, and
    outside the new queue the heap is the old one without the old queue. *)
Lemma check_frame e h q cells timestamp :
  slot_rep h q cells → Z.of_nat (length cells) < UINT_RANGE → mem_ok e →
  ∃ h' q' cells',
    ST.check_tenant_allowed e h q timestamp
      = Ok (h', q', (window_step timestamp (clock e) cells.*2).1.2,
            (window_step timestamp (clock e) cells.*2).2)
    ∧ slot_rep h' q' cells'
    ∧ cells'.*2 = (window_step timestamp (clock e) cells.*2).1.1
    ∧ (∀ a, a ∈ cells'.*1 → a ∈ cells.*1 ∨ h !! a = None)
    ∧ (∀ a, a ∉ cells'.*1 →
            h' !! a = if bool_decide (a ∈ cells.*1) then None else h !! a).
Proof.
  intros Hrep Hlen Hmem.
  destruct (evict_rep (S (base.size h)) h q cells timestamp Hrep)
    as (h1 & q1 & Hev & Hrep1 & _ & _).
  { destruct q as [qu|]; simpl in Hrep.
    - destruct Hrep as [Hl _ _]. apply lseg_length in Hl. lia.
    - subst cells. simpl. lia. }
  pose proof (evict_heap _ _ _ _ _ _ _ _ Hrep Hev) as Hh1.
  pose proof (take_drop_while (expired timestamp ∘ snd) cells) as Hsplit.
  set (cells1 := drop_while (expired timestamp ∘ snd) cells) in *.
  set (gone := take_while (expired timestamp ∘ snd) cells) in *.
  assert (NoDup cells.*1) as Hnd.
  { destruct q as [qu|]; simpl in Hrep.
    - destruct Hrep as [Hl _ _]. by apply lseg_NoDup in Hl.
    - subst cells. constructor. }
  rewrite <- Hsplit, fmap_app in Hnd. apply NoDup_app in Hnd as (_ & Hdisj & _).
  assert (∀ a, a ∈ cells.*1 ↔ a ∈ gone.*1 ∨ a ∈ cells1.*1) as Hmem_cells.
  { intros a. rewrite <- Hsplit, fmap_app. apply elem_of_app. }
  assert (Z.of_nat (length cells1) < UINT_RANGE) as Hlen1.
  { pose proof (drop_while_length (expired timestamp ∘ snd) cells) as Hle.
    fold cells1 in Hle. lia. }
  unfold ST.check_tenant_allowed. rewrite Hev. simpl.
  rewrite (has_room_rep _ _ _ Hrep1 Hlen1).
  unfold window_step. rewrite <- drop_while_fmap, <- take_while_fmap.
  fold cells1. fold gone. rewrite length_fmap.
  destruct (bool_decide (Z.of_nat (length cells1) < MAX_REQ)) eqn:Hroom.
  - destruct (enqueue_rep e h1 q1 cells1 (clock e) Hrep1 Hlen1 Hmem)
      as (h2 & qu2 & Heq & Hrep2 & _).
    unfold get_current_time_ms. rewrite Heq. simpl.
    pose proof (malloc_fresh h1) as Hfresh. rewrite Hh1 in Hfresh.
    eexists _, _, _. split; [done|]. split; [exact Hrep2|].
    split; [now rewrite fmap_app|]. split.
    + intros a. rewrite fmap_app, elem_of_app. simpl. rewrite list_elem_of_singleton.
      intros [Ha| ->].
      * left. apply Hmem_cells. by right.
      * case_bool_decide as Hg; [left; apply Hmem_cells; by left|by right].
    + intros a. rewrite fmap_app, not_elem_of_app. simpl.
      rewrite list_elem_of_singleton. intros [Ha1 Hap].
      rewrite (st_enqueue_outside _ _ _ _ _ _ _ a Heq Hap).
      * rewrite Hh1. apply (f_equal (λ c : bool, if c then None else h !! a)).
        apply bool_decide_ext. rewrite Hmem_cells. tauto.
      * intros qu -> Ht. apply Ha1. apply last_addr_elem.
        destruct Hrep1 as [_ <- _]. done.
  - eexists _, _, _. split; [done|]. split; [exact Hrep1|]. split; [done|]. split.
    + intros a Ha. left. apply Hmem_cells. by right.
    + intros a Ha. rewrite Hh1.
      apply (f_equal (λ c : bool, if c then None else h !! a)).
      apply bool_decide_ext. rewrite Hmem_cells. tauto.
Qed.

End Frame.

Lemma slot_rep_NoDup h q cells : slot_rep h q cells → NoDup cells.*1.
Proof.
  destruct q as [qu|]; simpl.
  - intros [Hl _ _]. exact (lseg_NoDup _ _ _ Hl).
  - intros ->. constructor.
Qed.

Lemma slot_rep_lookup h q cells a :
  slot_rep h q cells → a ∈ cells.*1 → is_Some (h !! a).
Proof.
  destruct q as [qu|]; simpl.
  - intros [Hl _ _]. exact (lseg_lookup _ _ _ _ Hl).
  - intros -> Ha. by apply elem_of_nil in Ha.
Qed.

(** A heap that is another one and, besides, the nodes of a list. *)
Lemma size_with_cells (cells : list addr) (h0 h : heap) :
  NoDup cells →
  (∀ a, a ∈ cells → h0 !! a = None ∧ is_Some (h !! a)) →
  (∀ a, a ∉ cells → h !! a = h0 !! a) →
  base.size h = (base.size h0 + length cells)%nat.
Proof.
  revert h. induction cells as [|b cells IH]; intros h Hnd Hin Hout.
  - simpl. rewrite Nat.add_0_r. f_equal. apply map_eq. intros a.
    apply Hout. apply not_elem_of_nil.
  - apply NoDup_cons in Hnd as [Hb Hnd].
    destruct (Hin b) as [Hb0 Hbh]; [left|].
    simpl length. rewrite Nat.add_succ_r, <- (IH (delete b h) Hnd).
    + rewrite map_size_delete_Some by done.
      assert (base.size h ≠ 0%nat); [|lia].
      intros Hz. apply map_size_empty_inv in Hz. subst h.
      destruct Hbh as [n Hn]. by rewrite lookup_empty in Hn.
    + intros a Ha. destruct (Hin a) as [Ha0 Hah]; [by right|].
      split; [done|]. rewrite lookup_delete_ne; [done|]. by intros ->.
    + intros a Ha. destruct (decide (a = b)) as [->|Hne].
      * by rewrite lookup_delete_eq.
      * rewrite lookup_delete_ne by done. apply Hout.
        by intros [?|?]%elem_of_cons.
Qed.

(** A tenant's calls with memory, and what its queue takes of the heap:
    the nodes of the queue were free at the start, and nothing else has
    changed. *)
Lemma run_owned `{!Malloc} calls (h0 h : heap) q cells :
  slot_rep h q cells → Z.of_nat (length cells) ≤ MAX_REQ →
  (∀ a, a ∈ cells.*1 → h0 !! a = None) →
  (∀ a, a ∉ cells.*1 → h !! a = h0 !! a) →
  Forall (λ c, mem_ok c.1) calls →
  ∃ steps,
    ST.run calls h q = Ok steps
    ∧ Forall (λ st, ∃ cells',
                slot_rep st.1.1.1 st.1.1.2 cells'
                ∧ Z.of_nat (length cells') ≤ MAX_REQ
                ∧ (∀ a, a ∈ cells'.*1 → h0 !! a = None)
                ∧ (∀ a, a ∉ cells'.*1 → st.1.1.1 !! a = h0 !! a)) steps.
Proof.
  revert h q cells.
  induction calls as [|[e ts] calls IH]; intros h q cells Hrep Hlen Hin Hout Hmem.
  - by exists [].
  - apply Forall_cons in Hmem as [Hm Hmem]. simpl in Hm.
    destruct (check_frame e h q cells ts Hrep)
      as (h' & q' & cells' & Hc & Hrep' & Hd & Hnew & Hrest);
      [unfold UINT_RANGE, MAX_REQ in *; lia|done|].
    assert (Z.of_nat (length cells') ≤ MAX_REQ) as Hlen'.
    { rewrite <- (length_fmap snd cells'), Hd. apply window_step_length.
      by rewrite length_fmap. }
    assert (∀ a, a ∈ cells'.*1 → h0 !! a = None) as Hin'.
    { intros a Ha. destruct (Hnew a Ha) as [Hold|Hnone]; [by apply Hin|].
      destruct (decide (a ∈ cells.*1)) as [Hold|Hnold]; [by apply Hin|].
      by rewrite <- (Hout a Hnold). }
    assert (∀ a, a ∉ cells'.*1 → h' !! a = h0 !! a) as Hout'.
    { intros a Ha. rewrite (Hrest a Ha).
      case_bool_decide as Hold; [symmetry; by apply Hin|by apply Hout]. }
    destruct (IH h' q' cells' Hrep' Hlen' Hin' Hout' Hmem) as (steps & Hrun & Hall).
    eexists. split.
    + simpl. rewrite Hc. simpl. rewrite Hrun. done.
    + constructor; [|done]. by exists cells'.
Qed.

(** Whatever the allocator answers, a check of rate-limiter-mt.c that
    returns did what the check of rate-limiter.c does. *)
Lemma mt_check_returns `{!Malloc} e h q timestamp st :
  tenant_ok h q → MT.check_allowed e h q timestamp = Ok st →
  ST.check_tenant_allowed e h q timestamp = Ok (st.1, removed_of st.2).
Proof.
  intros (cells & Hrep & Hlen) Hmt.
  destruct (evict_rep (S (base.size h)) h q cells timestamp Hrep)
    as (h1 & q1 & Hev & Hrep1 & _ & _).
  { destruct q as [qu|]; simpl in Hrep.
    - destruct Hrep as [Hl _ _]. apply lseg_length in Hl. lia.
    - subst cells. simpl. lia. }
  assert (Z.of_nat (length (drop_while (expired timestamp ∘ snd) cells))
          < UINT_RANGE) as Hlen1.
  { pose proof (drop_while_length (expired timestamp ∘ snd) cells) as Hle.
    unfold UINT_RANGE, MAX_REQ in *. lia. }
  unfold MT.check_allowed in Hmt. rewrite Hev in Hmt.
  simpl in Hmt. unfold ST.check_tenant_allowed. rewrite Hev. simpl.
  destruct (has_room q1) eqn:Hroom.
  - destruct (MT.enqueue e h1 q1 _) as [[[h2 q2] r]|] eqn:Henq; [|done].
    simpl in Hmt. injection Hmt as <-.
    apply (mt_enqueue_returns _ _ _ _ _ _ Hrep1 Hlen1) in Henq.
    rewrite Henq. simpl.
    change (MT.Enqueue r :: MT.lock_if q2 MT.Unlock)
      with ([MT.Enqueue r] ++ MT.lock_if q2 MT.Unlock).
    by rewrite removed_of_trace.
  - injection Hmt as <-. simpl.
    change (MT.lock_if q1 MT.Unlock) with ([] ++ MT.lock_if q1 MT.Unlock).
    by rewrite removed_of_trace.
Qed.

(** With memory, the heap after every call is the heap of the start and one
    node for every stored timestamp. *)
Lemma run_heap_bounded `{!Malloc} calls h :
  Forall (λ c, mem_ok c.1) calls →
  ∃ steps, ST.run calls h None = Ok steps
           ∧ Forall (λ s, heap_bounded h s.1.1.1 s.1.1.2) steps.
Proof.
  intros Hmem.
  destruct (run_owned calls h h None [] eq_refl) as (steps & Hrun & Hall);
    [simpl; unfold MAX_REQ; lia| |done|done|].
  { intros a Ha. by apply elem_of_nil in Ha. }
  exists steps. split; [done|]. eapply Forall_impl; [exact Hall|].
  intros [[[h' q'] ret] out] (cells' & Hrep' & Hlen' & Hin & Hout).
  cbn [fst snd] in *.
  assert (base.size h' = (base.size h + length (entries h' q'))%nat) as Hsize.
  { rewrite (entries_rep _ _ _ Hrep'), length_fmap, <- (length_fmap fst cells').
    apply size_with_cells; [by eapply slot_rep_NoDup| |done].
    intros a Ha. split; [by apply Hin|by eapply slot_rep_lookup]. }
  split; [done|]. rewrite Hsize, (entries_rep _ _ _ Hrep'), length_fmap. lia.
Qed.

(** A sequence of calls that rate-limiter-mt.c completes went through the
    states rate-limiter.c goes through. *)
Lemma mt_run_returns `{!Malloc} calls h q steps :
  tenant_ok h q → Forall (λ c, mem_ok c.1) calls →
  MT.run calls h q = Ok steps →
  ST.run calls h q = Ok ((λ st, (st.1, removed_of st.2)) <$> steps).
Proof.
  revert h q steps.
  induction calls as [|[e ts] calls IH]; intros h q steps Hok Hmem Hrun.
  - by injection Hrun as <-.
  - apply Forall_cons in Hmem as [Hm Hmem]. simpl in Hm, Hrun.
    destruct (MT.check_allowed e h q ts) as [st|f] eqn:Hc; [|done].
    simpl in Hrun.
    destruct (MT.run calls st.1.1.1 st.1.1.2) as [later|f] eqn:Hr; [|done].
    injection Hrun as <-.
    destruct (mt_check_ok _ _ _ _ _ Hok Hm Hc) as (Hok' & _ & _).
    apply (mt_check_returns _ _ _ _ _ Hok) in Hc.
    specialize (IH _ _ _ Hok' Hmem Hr).
    cbn [ST.run]. rewrite Hc. cbn [mbind result_bind fst snd].
    rewrite IH. done.
Qed.

(** ** The claims *)

(** C1, as the claim has it, fails.  The timestamps stored are clock
    readings: when the clock reads 0 while the caller passes 10000, every call
    removes the entry of the call before and the eleventh call is admitted
    too.  And a call that gets no memory is reported as admitted without
    being stored, so no call is ever rejected. *)
Lemma C1_counterexample :
  (∃ steps, ST.run (replicate 11 (answering 0, 10000)) ∅ None = Ok steps
            ∧ (λ s, s.1.2) <$> steps = replicate 11 SUCCESS)
  ∧ (∃ steps, ST.run (replicate 11 (Env 0 None false, 0)) ∅ None = Ok steps
              ∧ (λ s, s.1.2) <$> steps = replicate 11 SUCCESS).
Proof.
  split.
  - eexists. split; [vm_compute; reflexivity|]. reflexivity.
  - eexists. split; [vm_compute; reflexivity|]. reflexivity.
Qed.

(** C1.  A tenant without a queue, [MAX_REQ] calls with one [timestamp], each
    given memory and stored under a clock reading that has not expired at
    that [timestamp] (the [timestamp] itself, for one): every call returns
    [SUCCESS], and in the state they leave a further call with that
    [timestamp] returns [FAILURE] and changes nothing.  Both files. *)
Theorem C1_quota_at_one_timestamp `{!Malloc} h timestamp calls :
  Z.of_nat (length calls) = MAX_REQ →
  Forall (λ c, mem_ok c.1 ∧ c.2 = timestamp
               ∧ expired timestamp (clock c.1) = false) calls →
  (∃ steps st,
      ST.run calls h None = Ok steps
      ∧ length steps = length calls
      ∧ Forall (λ s, s.1.2 = SUCCESS) steps
      ∧ last steps = Some st
      ∧ ∀ e, ST.check_tenant_allowed e st.1.1.1 st.1.1.2 timestamp
             = Ok (st.1.1.1, st.1.1.2, FAILURE, []))
  ∧ (∃ steps st,
      MT.run calls h None = Ok steps
      ∧ length steps = length calls
      ∧ Forall (λ s, s.1.2 = SUCCESS) steps
      ∧ last steps = Some st
      ∧ ∀ e, MT.check_allowed e st.1.1.1 st.1.1.2 timestamp
             = Ok (st.1.1.1, st.1.1.2, FAILURE, [MT.Lock; MT.Unlock])).
Proof.
  intros Hlen Hcalls.
  assert (Forall (λ c, mem_ok c.1) calls) as Hmem.
  { eapply Forall_impl; [exact Hcalls|]. by intros c [? _]. }
  assert (Forall (λ c, c.2 = timestamp ∧ expired timestamp (clock c.1) = false)
                 calls) as Hts.
  { eapply Forall_impl; [exact Hcalls|]. by intros c [_ ?]. }
  destruct (window_steps_fill timestamp calls [] false Hts) as (Hret & Hlast & Hkeep);
    [constructor|simpl; lia|by left|].
  assert (Forall (λ d, expired timestamp d = false) ((clock ∘ fst) <$> calls))
    as Hfresh.
  { apply Forall_fmap. eapply Forall_impl; [exact Hts|]. by intros c [_ ?]. }
  (* what holds of any run whose observations are [window_steps calls []] *)
  assert (∀ (A : Type) (obs : heap * option queue_t * Z * A → list Z * Z * list Z)
            (steps : list (heap * option queue_t * Z * A)),
            (∀ s, (obs s).1.1 = entries s.1.1.1 s.1.1.2 ∧ (obs s).1.2 = s.1.2) →
            Forall (λ s, tenant_ok s.1.1.1 s.1.1.2) steps →
            obs <$> steps = window_steps calls [] →
            length steps = length calls
            ∧ Forall (λ s, s.1.2 = SUCCESS) steps
            ∧ ∃ s, last steps = Some s
                   ∧ tenant_ok s.1.1.1 s.1.1.2
                   ∧ Z.of_nat (length (entries s.1.1.1 s.1.1.2)) = MAX_REQ
                   ∧ (∀ x, entries s.1.1.1 s.1.1.2 !! 0%nat = Some x
                           → expired timestamp x = false)) as Hgen.
  { intros A obs steps Hobs Hok Heq.
    assert (length steps = length calls) as Hsteps.
    { rewrite <- (length_fmap obs), Heq. clear. generalize (@nil Z).
      induction calls as [|[e ts] calls IH]; intros l; simpl; [done|].
      by rewrite IH. }
    split; [done|]. split.
    - rewrite <- Heq in Hret. apply Forall_fmap in Hret.
      eapply Forall_impl; [exact Hret|]. intros s Hs. simpl in Hs.
      by rewrite (proj2 (Hobs s)) in Hs.
    - destruct (last steps) as [s|] eqn:Hs.
      + exists s. split; [done|]. split.
        * rewrite Forall_forall in Hok. apply Hok.
          apply last_Some in Hs as [l' ->]. apply elem_of_app. right. left.
        * assert (last (window_steps calls []) = Some (obs s)) as Hlo
            by (by rewrite <- Heq, fmap_last, Hs).
          apply Hlast in Hlo. rewrite (proj1 (Hobs s)) in Hlo. simpl in Hlo.
          rewrite Hlo. split; [by rewrite length_fmap|].
          intros x Hx. rewrite Forall_forall in Hfresh. apply Hfresh.
          eapply list_elem_of_lookup_2; eauto.
      + apply last_None in Hs. subst steps. simpl in Hsteps.
        unfold MAX_REQ in Hlen. lia. }
  split.
  - destruct (run_ok calls h None (tenant_ok_absent h) Hmem)
      as (steps & Hrun & Hok & Hobs).
    destruct (Hgen _ observe steps) as (Hn & Hs & st & Hl & Hst & Hfull & Hhead);
      [done|done|done|].
    exists steps, st. repeat (split; [done|]).
    intros e. by apply tenant_full_reject.
  - destruct (mt_run_safe calls h None (tenant_ok_absent h) Hmem)
      as (steps & Hrun); [done|].
    destruct (mt_run_ok calls h None steps (tenant_ok_absent h) Hmem Hrun)
      as (Hok & Hobs).
    destruct (Hgen _ observe_mt steps) as (Hn & Hs & st & Hl & Hst & Hfull & Hhead);
      [done|done|done|].
    exists steps, st. repeat (split; [done|]).
    intros e. by apply tenant_full_reject.
Qed.

Lemma C1_witness :
  (∃ steps st,
      ST.run (replicate 10 (answering 42, 42)) ∅ None = Ok steps
      ∧ length steps = length (replicate 10 (answering 42, 42))
      ∧ Forall (λ s, s.1.2 = SUCCESS) steps
      ∧ last steps = Some st
      ∧ ∀ e, ST.check_tenant_allowed e st.1.1.1 st.1.1.2 42
             = Ok (st.1.1.1, st.1.1.2, FAILURE, []))
  ∧ (∃ steps st,
      MT.run (replicate 10 (answering 42, 42)) ∅ None = Ok steps
      ∧ length steps = length (replicate 10 (answering 42, 42))
      ∧ Forall (λ s, s.1.2 = SUCCESS) steps
      ∧ last steps = Some st
      ∧ ∀ e, MT.check_allowed e st.1.1.1 st.1.1.2 42
             = Ok (st.1.1.1, st.1.1.2, FAILURE, [MT.Lock; MT.Unlock])).
Proof.
  apply (C1_quota_at_one_timestamp ∅ 42 (replicate 10 (answering 42, 42))).
  - reflexivity.
  - simpl.
    repeat (constructor; [split; [apply answering_ok|split; reflexivity]|]).
    constructor.
Defined.

(** C2.  The loop of both files removes, from a well-formed queue, exactly
    the longest run of entries at the head with
    [timestamp - head_timestamp >= WINDOW_SIZE] (which is what [expired] says
    of timestamps that are milliseconds since the epoch) and keeps the rest.
    A queue of ten entries stored at time 0 is rejected at 9999 by both
    files; at 10000 its ten entries are removed, rate-limiter.c then admits
    the request as the only entry, and rate-limiter-mt.c dereferences the
    [NULL] tail in [enqueue]. *)
Theorem C2_window_edge `{!Malloc} h q cells e :
  slot_rep h q cells →
  mem_ok e →
  (∀ timestamp, ∃ h1 q1,
      evict (S (base.size h)) h q timestamp
        = Ok (h1, q1, take_while (expired timestamp) cells.*2)
      ∧ entries h1 q1 = drop_while (expired timestamp) cells.*2)
  ∧ (∀ timestamp d, 0 ≤ timestamp ≤ LONG_MAX → 0 ≤ d ≤ LONG_MAX →
       expired timestamp d = true ↔ WINDOW_SIZE ≤ timestamp - d)
  ∧ (cells.*2 = replicate 10 0 →
     ST.check_tenant_allowed e h q 9999 = Ok (h, q, FAILURE, [])
     ∧ (∃ h' q', ST.check_tenant_allowed e h q 10000
                 = Ok (h', q', SUCCESS, replicate 10 0)
                 ∧ entries h' q' = [clock e])
     ∧ MT.check_allowed e h q 9999 = Ok (h, q, FAILURE, [MT.Lock; MT.Unlock])
     ∧ MT.check_allowed e h q 10000 = Crash NullDeref).
Proof.
  intros Hrep Hmem.
  assert (length cells ≤ S (base.size h))%nat as Hfuel.
  { destruct q as [qu|]; simpl in Hrep.
    - destruct Hrep as [Hl _ _]. apply lseg_length in Hl. lia.
    - subst cells. simpl. lia. }
  split; [|split].
  - intros timestamp.
    destruct (evict_rep _ h q cells timestamp Hrep Hfuel)
      as (h1 & q1 & Hev & Hrep1 & _ & _).
    exists h1, q1. rewrite <- take_while_fmap, <- drop_while_fmap.
    split; [done|]. by apply entries_rep.
  - intros timestamp d Ht Hd. rewrite expired_times by done.
    apply bool_decide_eq_true.
  - intros Hzero.
    assert (length cells = 10%nat) as Hlen.
    { rewrite <- (length_fmap snd), Hzero. done. }
    assert (ST.check_tenant_allowed e h q 9999 = Ok (h, q, FAILURE, [])
            ∧ MT.check_allowed e h q 9999
              = Ok (h, q, FAILURE, [MT.Lock; MT.Unlock])) as [Hst Hmt].
    { apply (check_reject e h q cells 9999 Hrep).
      - unfold MAX_REQ, UINT_RANGE. lia.
      - intros c Hc.
        assert (cells.*2 !! 0%nat = Some c.2) as Hc2 by (by rewrite list_lookup_fmap, Hc).
        rewrite Hzero in Hc2. injection Hc2 as <-. done. }
    split; [done|]. split; [|split; [done|]].
    + destruct (check_rep e h q cells 10000 Hrep) as (h' & q' & cells' & Hc & Hrep' & Hd);
        [unfold UINT_RANGE; lia|done|].
      rewrite Hzero in Hc, Hd. exists h', q'. split; [exact Hc|].
      rewrite (entries_rep _ _ _ Hrep'), Hd. done.
    + destruct (mt_check_rep e h q cells 10000 Hrep)
        as [(_ & _ & Hcrash)|([Hq|Hne] & _)];
        [unfold UINT_RANGE; lia|done|done| |].
      * subst q. simpl in Hrep. subst cells. done.
      * rewrite Hzero in Hne. done.
Qed.

Lemma C2_witness :
  ST.check_tenant_allowed (answering 10000) full_heap full_queue 9999
    = Ok (full_heap, full_queue, FAILURE, [])
  ∧ (∃ h' q', ST.check_tenant_allowed (answering 10000) full_heap full_queue 10000
              = Ok (h', q', SUCCESS, replicate 10 0)
              ∧ entries h' q' = [clock (answering 10000)])
  ∧ MT.check_allowed (answering 10000) full_heap full_queue 9999
    = Ok (full_heap, full_queue, FAILURE, [MT.Lock; MT.Unlock])
  ∧ MT.check_allowed (answering 10000) full_heap full_queue 10000
    = Crash NullDeref.
Proof.
  apply (C2_window_edge full_heap full_queue full_cells (answering 10000)).
  - exact full_rep.
  - apply answering_ok.
  - reflexivity.
Defined.

(** The failing run of C2 and C4, computed: one request stored at time 0,
    then a check at 10000 in rate-limiter-mt.c. *)
Example mt_crash_after_expiry :
  MT.run [(answering 0, 0); (answering 10000, 10000)] ∅ None = Crash NullDeref.
Proof. vm_compute. reflexivity. Qed.

(** C3.  A well-formed queue that still holds [MAX_REQ] entries (or more, as
    far as [size] counts) once the loop has removed what expired at
    [timestamp]: the admission check of either file returns [FAILURE] and
    does nothing but that eviction, it neither reads the clock nor allocates;
    when no entry had expired the heap and the header are exactly what they
    were (same entries, same [size]).  Any number of further calls with that
    [timestamp] returns [FAILURE] and leaves heap and header as they are, in
    rate-limiter-mt.c between one [Lock] and one [Unlock]. *)
Theorem C3_saturated_rejected_unchanged `{!Malloc} h q cells timestamp :
  slot_rep h q cells →
  MAX_REQ ≤ Z.of_nat (length (drop_while (expired timestamp) cells.*2))
          < UINT_RANGE →
  ∃ h1 q1,
    evict (S (base.size h)) h q timestamp
      = Ok (h1, q1, take_while (expired timestamp) cells.*2)
    ∧ entries h1 q1 = drop_while (expired timestamp) cells.*2
    ∧ (Forall (λ d, expired timestamp d = false) cells.*2 → h1 = h ∧ q1 = q)
    ∧ (∀ e, ST.check_tenant_allowed e h q timestamp
            = Ok (h1, q1, FAILURE, take_while (expired timestamp) cells.*2))
    ∧ (∀ e, MT.check_allowed e h q timestamp
            = Ok (h1, q1, FAILURE,
                  [MT.Lock]
                  ++ (MT.Removed <$> take_while (expired timestamp) cells.*2)
                  ++ [MT.Unlock]))
    ∧ (∀ calls, Forall (λ c, c.2 = timestamp) calls →
         ST.run calls h1 q1 = Ok ((λ _, (h1, q1, FAILURE, [])) <$> calls)
         ∧ MT.run calls h1 q1
           = Ok ((λ _, (h1, q1, FAILURE, [MT.Lock; MT.Unlock])) <$> calls)).
Proof.
  intros Hrep [Hfull Hlen1].
  rewrite <- drop_while_fmap, length_fmap in Hfull, Hlen1.
  rewrite <- take_while_fmap, <- drop_while_fmap.
  destruct (evict_rep (S (base.size h)) h q cells timestamp Hrep)
    as (h1 & q1 & Hev & Hrep1 & Hnone & Hsame).
  { destruct q as [qu|]; simpl in Hrep.
    - destruct Hrep as [Hl _ _]. apply lseg_length in Hl. lia.
    - subst cells. simpl. lia. }
  set (cells1 := drop_while (expired timestamp ∘ snd) cells) in *.
  set (out := (take_while (expired timestamp ∘ snd) cells).*2) in *.
  assert (∃ qu qu1, q = Some qu ∧ q1 = Some qu1) as (qu & qu1 & -> & ->).
  { destruct q1 as [qu1|].
    - destruct q as [qu|]; [eauto|]. by destruct Hnone as [Hn _]; specialize (Hn eq_refl).
    - simpl in Hrep1. rewrite Hrep1 in Hfull. simpl in Hfull.
      unfold MAX_REQ in Hfull. lia. }
  exists h1, (Some qu1). split; [exact Hev|].
  split; [by apply entries_rep|]. split; [|split; [|split]].
  - intros Hfresh. apply Hsame.
    destruct (drop_while_unexpired (expired timestamp ∘ snd) cells) as [_ Ht];
      [|done].
    intros c Hc. rewrite Forall_forall in Hfresh. simpl. apply Hfresh.
    apply list_elem_of_fmap. exists c. split; [done|].
    eapply list_elem_of_lookup_2; eauto.
  - intros e. unfold ST.check_tenant_allowed. rewrite Hev. simpl.
    pose proof (has_room_rep _ _ _ Hrep1 Hlen1) as Hroom. simpl in Hroom.
    rewrite Hroom. by rewrite bool_decide_false by lia.
  - intros e. unfold MT.check_allowed. rewrite Hev. simpl.
    pose proof (has_room_rep _ _ _ Hrep1 Hlen1) as Hroom. simpl in Hroom.
    rewrite Hroom. by rewrite bool_decide_false by lia.
  - assert (∀ e, ST.check_tenant_allowed e h1 (Some qu1) timestamp
                 = Ok (h1, Some qu1, FAILURE, [])
               ∧ MT.check_allowed e h1 (Some qu1) timestamp
                 = Ok (h1, Some qu1, FAILURE, [MT.Lock; MT.Unlock])) as Hone.
    { intros e. apply (check_reject e h1 (Some qu1) cells1 timestamp Hrep1).
      - lia.
      - intros c Hc. destruct cells1 as [|c1 cells1'] eqn:Hc1; [done|].
        simpl in Hc. injection Hc as <-.
        apply (drop_while_head (expired timestamp ∘ snd) cells c1 cells1' Hc1). }
    induction calls as [|[e ts] calls IH]; intros Hts; [done|].
    apply Forall_cons in Hts as [Hhere Hts]. simpl in Hhere. subst ts.
    destruct (IH Hts) as [IHst IHmt]. destruct (Hone e) as [Hst Hmt].
    split; simpl.
    + rewrite Hst. simpl. rewrite IHst. done.
    + rewrite Hmt. simpl. rewrite IHmt. done.
Qed.

Lemma C3_witness :
  ∃ h1 q1,
    evict (S (base.size full_heap)) full_heap full_queue 9999
      = Ok (h1, q1, take_while (expired 9999) full_cells.*2)
    ∧ entries h1 q1 = drop_while (expired 9999) full_cells.*2
    ∧ (Forall (λ d, expired 9999 d = false) full_cells.*2
       → h1 = full_heap ∧ q1 = full_queue)
    ∧ (∀ e, ST.check_tenant_allowed e full_heap full_queue 9999
            = Ok (h1, q1, FAILURE, take_while (expired 9999) full_cells.*2))
    ∧ (∀ e, MT.check_allowed e full_heap full_queue 9999
            = Ok (h1, q1, FAILURE,
                  [MT.Lock]
                  ++ (MT.Removed <$> take_while (expired 9999) full_cells.*2)
                  ++ [MT.Unlock]))
    ∧ (∀ calls, Forall (λ c, c.2 = 9999) calls →
         ST.run calls h1 q1 = Ok ((λ _, (h1, q1, FAILURE, [])) <$> calls)
         ∧ MT.run calls h1 q1
           = Ok ((λ _, (h1, q1, FAILURE, [MT.Lock; MT.Unlock])) <$> calls)).
Proof.
  apply (C3_saturated_rejected_unchanged full_heap full_queue full_cells 9999).
  - exact full_rep.
  - split; [discriminate|reflexivity].
Defined.

(** C4.  With memory available, rate-limiter.c treats a tenant whose queue
    was never allocated and one whose queue is allocated with no entry alike:
    both checks return [SUCCESS] and leave the same well-formed queue holding
    exactly the new entry, and [enqueue] on the allocated empty queue makes
    the new node head and tail.  rate-limiter-mt.c does so for the queue never
    allocated only: on the allocated empty queue its [enqueue] dereferences
    the [NULL] tail. *)
Theorem C4_absent_and_empty_queue `{!Malloc} e h timestamp d :
  mem_ok e →
  let p := malloc_addr h in
  let one := Some (Queue (Some p) (Some p) 1) in
  ST.check_tenant_allowed e h None timestamp
    = Ok (<[p := Qnode (clock e) None]> h, one, SUCCESS, [])
  ∧ ST.check_tenant_allowed e h drained_queue timestamp
    = Ok (<[p := Qnode (clock e) None]> h, one, SUCCESS, [])
  ∧ slot_rep (<[p := Qnode (clock e) None]> h) one [(p, clock e)]
  ∧ ST.enqueue e h drained_queue d = Ok (<[p := Qnode d None]> h, one, SUCCESS)
  ∧ MT.check_allowed e h None timestamp
    = Ok (<[p := Qnode (clock e) None]> h, one, SUCCESS,
          [MT.Enqueue SUCCESS; MT.Unlock])
  ∧ MT.enqueue e h drained_queue d = Crash NullDeref
  ∧ MT.check_allowed e h drained_queue timestamp = Crash NullDeref.
Proof.
  intros [[g Hg] Hn] p one.
  assert (∀ fuel, evict fuel h None timestamp = Ok (h, None, [])) as Hev0
    by (by intros []).
  assert (∀ fuel, evict fuel h drained_queue timestamp = Ok (h, drained_queue, []))
    as Hev1 by (by intros []).
  unfold ST.check_tenant_allowed, MT.check_allowed. rewrite Hev0, Hev1. simpl.
  unfold ST.enqueue, MT.enqueue, initialize_queue. simpl.
  rewrite !allocate_node_ok, Hg by done. simpl.
  repeat split; try done.
  exists None. subst p. now rewrite lookup_insert_eq.
Qed.

Lemma C4_witness :
  let e := answering 10000 in
  let p := malloc_addr (∅ : heap) in
  let one := Some (Queue (Some p) (Some p) 1) in
  ST.check_tenant_allowed e ∅ None 10000
    = Ok (<[p := Qnode (clock e) None]> ∅, one, SUCCESS, [])
  ∧ ST.check_tenant_allowed e ∅ drained_queue 10000
    = Ok (<[p := Qnode (clock e) None]> ∅, one, SUCCESS, [])
  ∧ slot_rep (<[p := Qnode (clock e) None]> ∅) one [(p, clock e)]
  ∧ ST.enqueue e ∅ drained_queue 7 = Ok (<[p := Qnode 7 None]> ∅, one, SUCCESS)
  ∧ MT.check_allowed e ∅ None 10000
    = Ok (<[p := Qnode (clock e) None]> ∅, one, SUCCESS,
          [MT.Enqueue SUCCESS; MT.Unlock])
  ∧ MT.enqueue e ∅ drained_queue 7 = Crash NullDeref
  ∧ MT.check_allowed e ∅ drained_queue 10000 = Crash NullDeref.
Proof.
  apply (C4_absent_and_empty_queue (answering 10000) ∅ 10000 7).
  apply answering_ok.
Defined.

(** C5, as the claim has it, fails: a request checked against [timestamp] 0
    while the clock reads 5 is admitted and stored as 5. *)
Lemma C5_counterexample :
  ∃ h' q',
    ST.check_tenant_allowed (answering 5) ∅ None 0 = Ok (h', q', SUCCESS, [])
    ∧ tail_data h' q' = Some 5
    ∧ tail_data h' q' ≠ Some 0.
Proof.
  eexists _, _. split; [reflexivity|]. split; [reflexivity|]. discriminate.
Qed.

(** C5.  For every request admitted with memory available, by either file,
    the timestamp stored in the new tail entry is the value
    [get_current_time_ms()] returned to [enqueue] in that call, after the
    eviction and the capacity test; the [timestamp] argument is not stored. *)
Theorem C5_tail_holds_clock_reading `{!Malloc} e h q timestamp h' q' :
  mem_ok e →
  (∃ out, ST.check_tenant_allowed e h q timestamp = Ok (h', q', SUCCESS, out))
  ∨ (∃ evs, MT.check_allowed e h q timestamp = Ok (h', q', SUCCESS, evs)) →
  tail_data h' q' = Some (get_current_time_ms e).
Proof.
  intros Hmem [[out Hst]|[evs Hmt]].
  - unfold ST.check_tenant_allowed in Hst.
    destruct (evict _ h q timestamp) as [[[h1 q1] out1]|]; simpl in Hst; [|done].
    destruct (has_room q1); [|done].
    destruct (ST.enqueue e h1 q1 _) as [[[h2 q2] r]|] eqn:Henq; simpl in Hst; [|done].
    injection Hst as <- <- <-.
    by destruct (st_enqueue_tail _ _ _ _ _ _ _ Hmem Henq).
  - unfold MT.check_allowed in Hmt.
    destruct (evict _ h q timestamp) as [[[h1 q1] out1]|]; simpl in Hmt; [|done].
    destruct (has_room q1); [|done].
    destruct (MT.enqueue e h1 q1 _) as [[[h2 q2] r]|] eqn:Henq; simpl in Hmt; [|done].
    injection Hmt as <- <- _.
    by destruct (mt_enqueue_tail _ _ _ _ _ _ _ Hmem Henq).
Qed.

Lemma C5_witness :
  tail_data {[1%positive := Qnode 5 None]}
            (Some (Queue (Some 1%positive) (Some 1%positive) 1))
  = Some (get_current_time_ms (answering 5)).
Proof.
  apply (C5_tail_holds_clock_reading (answering 5) ∅ None 0).
  - apply answering_ok.
  - left. exists []. reflexivity.
Defined.

(** C6.  In rate-limiter.c, when the queue left by the eviction loop has room
    and the allocation of the header or of the node fails, [enqueue] returns
    [FAILURE], the heap is untouched and the queue holds the entries it held,
    and [check_tenant_allowed] returns [SUCCESS] all the same. *)
Theorem C6_allocation_failure_reported_allowed `{!Malloc}
    e h q timestamp h1 q1 out :
  evict (S (base.size h)) h q timestamp = Ok (h1, q1, out) →
  has_room q1 = true →
  alloc_fails e q1 →
  ∃ q2,
    ST.enqueue e h1 q1 (get_current_time_ms e) = Ok (h1, q2, FAILURE)
    ∧ entries h1 q2 = entries h1 q1
    ∧ ST.check_tenant_allowed e h q timestamp = Ok (h1, q2, SUCCESS, out).
Proof.
  intros Hev Hroom Hfail. unfold ST.check_tenant_allowed. rewrite Hev. simpl.
  rewrite Hroom. destruct q1 as [qu1|]; simpl in Hfail.
  - exists (Some qu1). rewrite enqueue_node_fail by done. done.
  - unfold ST.enqueue, initialize_queue.
    destruct (queue_mem e) as [g|] eqn:Hg.
    + destruct Hfail as [?|Hn]; [done|]. rewrite allocate_node_fail by done.
      exists (Some (Queue None None (uint g))). simpl.
      split; [done|]. split; [|done]. by destruct (base.size h1).
    + exists None. done.
Qed.

Lemma C6_witness :
  ∃ q2,
    ST.enqueue (Env 3 (Some 7) false) ∅ None (get_current_time_ms (Env 3 (Some 7) false))
      = Ok (∅, q2, FAILURE)
    ∧ entries ∅ q2 = entries ∅ None
    ∧ ST.check_tenant_allowed (Env 3 (Some 7) false) ∅ None 3 = Ok (∅, q2, SUCCESS, []).
Proof.
  apply (C6_allocation_failure_reported_allowed (Env 3 (Some 7) false) ∅ None 3 ∅ None []).
  - reflexivity.
  - reflexivity.
  - right. reflexivity.
Defined.

(** C7, as the claim has it, fails.  [size] is an [unsigned int]: after
    4294967296 successful calls of [enqueue] on a tenant that had no queue,
    4294967296 nodes are linked from [head] and [size] reads 0. *)
Lemma C7_counterexample :
  ∃ h qu cells,
    ST.run_ops (replicate (Z.to_nat UINT_RANGE) (answering 0, ST.OpEnqueue 0))
               ∅ None = Ok (h, Some qu)
    ∧ lseg h (head qu) cells
    ∧ Z.of_nat (length cells) = 4294967296
    ∧ size qu = 0
    ∧ size qu ≠ Z.of_nat (length cells).
Proof.
  destruct (enqueue_many (Z.to_nat UINT_RANGE) (answering 0) 0 ∅ None []
              (answering_ok 0) eq_refl) as (h & q & cells & Hrun & Hrep & Hlen).
  { rewrite Z2Nat.id by (unfold UINT_RANGE; lia). change (Z.of_nat (length [])) with 0. lia. }
  rewrite Z2Nat.id in Hlen by (unfold UINT_RANGE; lia).
  change (Z.of_nat (length [])) with 0 in Hlen.
  destruct q as [qu|].
  - destruct Hrep as [Hl _ Hs]. rewrite Hlen in Hs.
    change (uint (0 + UINT_RANGE)) with 0 in Hs.
    exists h, qu, cells. split; [exact Hrun|]. split; [exact Hl|].
    split; [exact Hlen|]. split; [exact Hs|].
    rewrite Hs, Hlen. unfold UINT_RANGE. lia.
  - red in Hrep. rewrite Hrep in Hlen. change (Z.of_nat (length [])) with 0 in Hlen.
    unfold UINT_RANGE in Hlen. lia.
Qed.

(** C7.  Take any sequence of [initialize_queue], [enqueue] and [dequeue] of
    rate-limiter.c on a tenant that had no queue, in which no
    [initialize_queue] gets a header and then no node.  It never crashes and
    leaves a well-formed queue: [size] is the number of entries linked from
    [head] to [tail] modulo 2^32, hence that number while it is below 2^32.
    From there a successful [enqueue] adds one to [size] modulo 2^32, and a
    [dequeue] of a queue that has a head takes one off modulo 2^32. *)
Theorem C7_size_counts_entries_mod_uint `{!Malloc} ops h :
  Forall (λ o, half_init o.1 = false) ops →
  ∃ h' q',
    ST.run_ops ops h None = Ok (h', q')
    ∧ (∃ cells, slot_rep h' q' cells)
    ∧ (∀ qu, q' = Some qu →
         size qu = uint (Z.of_nat (length (entries h' q')))
         ∧ (Z.of_nat (length (entries h' q')) < UINT_RANGE →
            size qu = Z.of_nat (length (entries h' q'))))
    ∧ (∀ e d h1 q1, ST.enqueue e h' q' d = Ok (h1, q1, SUCCESS) →
         ∃ qu1, q1 = Some qu1 ∧ size qu1 = uint (size_of q' + 1))
    ∧ (∀ qu, q' = Some qu → head qu ≠ None →
         ∃ h1 qu1 d, dequeue h' q' = Ok (h1, Some qu1, d)
                     ∧ size qu1 = uint (size qu - 1)).
Proof.
  intros Hops.
  destruct (run_ops_rep ops h None [] eq_refl Hops) as (h' & q' & cells & Hrun & Hrep).
  exists h', q'. split; [done|]. split; [eauto|]. split; [|split].
  - intros qu ->. rewrite (entries_rep _ _ _ Hrep), length_fmap.
    destruct Hrep as [_ _ Hs]. split; [done|].
    intros Hsmall. rewrite Hs. apply uint_small. lia.
  - intros e d h1 q1. apply enqueue_success_size.
  - intros qu -> Hhead. destruct cells as [|[a d] cells].
    + destruct Hrep as [Hl _ _]. done.
    + destruct (dequeue_rep _ _ _ _ _ Hrep) as (qu' & Hdq & _ & Hs). eauto.
Qed.

Lemma C7_witness :
  ∃ h' q',
    ST.run_ops [(answering 0, ST.OpEnqueue 1); (answering 0, ST.OpEnqueue 2);
                (answering 0, ST.OpDequeue)] ∅ None = Ok (h', q')
    ∧ (∃ cells, slot_rep h' q' cells)
    ∧ (∀ qu, q' = Some qu →
         size qu = uint (Z.of_nat (length (entries h' q')))
         ∧ (Z.of_nat (length (entries h' q')) < UINT_RANGE →
            size qu = Z.of_nat (length (entries h' q'))))
    ∧ (∀ e d h1 q1, ST.enqueue e h' q' d = Ok (h1, q1, SUCCESS) →
         ∃ qu1, q1 = Some qu1 ∧ size qu1 = uint (size_of q' + 1))
    ∧ (∀ qu, q' = Some qu → head qu ≠ None →
         ∃ h1 qu1 d, dequeue h' q' = Ok (h1, Some qu1, d)
                     ∧ size qu1 = uint (size qu - 1)).
Proof.
  apply (C7_size_counts_entries_mod_uint
           [(answering 0, ST.OpEnqueue 1); (answering 0, ST.OpEnqueue 2);
            (answering 0, ST.OpDequeue)] ∅).
  repeat constructor.
Defined.

(** The half-done initialisation that C7 leaves out, computed: the header is
    left with the 7 its memory held as [size] and no entry, and the next
    [enqueue] dereferences its [NULL] tail. *)
Example half_initialised_queue :
  ST.run_ops [(Env 0 (Some 7) false, ST.OpInitialize 0)] ∅ None
    = Ok (∅, Some (Queue None None 7))
  ∧ ST.run_ops [(Env 0 (Some 7) false, ST.OpInitialize 0);
                (answering 0, ST.OpEnqueue 0)] ∅ None = Crash NullDeref.
Proof. split; vm_compute; reflexivity. Qed.

(** C8, as the claim has it, fails.  Two calls with [timestamp] 0 and then 1
    while the wall clock, which may be set back, reads 5 and then 3: both are
    admitted, and the queue holds 5 before 3.  And where the order holds it is
    the other way round from the claim's last words: a call at 10000 removes
    the entry stored at 0, which is below the head it leaves, 10000. *)
Lemma C8_counterexample :
  (Sorted Z.le (snd <$> [(answering 5, 0); (answering 3, 1)])
   ∧ ∃ steps st,
       ST.run [(answering 5, 0); (answering 3, 1)] ∅ None = Ok steps
       ∧ last steps = Some st
       ∧ entries st.1.1.1 st.1.1.2 = [5; 3]
       ∧ ¬ Sorted Z.le (entries st.1.1.1 st.1.1.2))
  ∧ (Sorted Z.le (snd <$> [(answering 0, 0); (answering 10000, 10000)])
     ∧ ∃ steps,
         ST.run [(answering 0, 0); (answering 10000, 10000)] ∅ None = Ok steps
         ∧ observe <$> steps = [([0], SUCCESS, []); ([10000], SUCCESS, [0])]
         ∧ 0 ≤ 10000).
Proof.
  split; split.
  - repeat constructor. done.
  - eexists _, _. split; [vm_compute; reflexivity|].
    split; [reflexivity|]. split; [reflexivity|].
    intros Hs. apply Sorted_inv in Hs as [_ Hhd]. apply HdRel_inv in Hhd. done.
  - repeat constructor. done.
  - eexists. split; [vm_compute; reflexivity|]. split; [reflexivity|]. done.
Qed.

(** C8.  A tenant that starts without a queue, a clock whose readings never
    decrease from one call to the next, any [timestamp] arguments and any
    answers of the allocator: after every call of a run of rate-limiter.c
    that returns, the queue is in non-decreasing order from head to tail; the
    head timestamp after a call is at most the head timestamp after any later
    call; and a timestamp removed by a call is at most every head from that
    call on.  The same holds of every run of rate-limiter-mt.c that returns.
    With memory at every call the run of rate-limiter.c does return. *)
Theorem C8_order_follows_the_clock `{!Malloc} calls h :
  Sorted Z.le (clocks calls) →
  (∀ steps, ST.run calls h None = Ok steps →
     queues_sorted (observe <$> steps)
     ∧ heads_monotone (observe <$> steps)
     ∧ removed_below_heads (observe <$> steps))
  ∧ (∀ steps, MT.run calls h None = Ok steps →
       queues_sorted (observe_mt <$> steps)
       ∧ heads_monotone (observe_mt <$> steps)
       ∧ removed_below_heads (observe_mt <$> steps))
  ∧ (Forall (λ c, mem_ok c.1) calls → ∃ steps, ST.run calls h None = Ok steps).
Proof.
  intros Hclock.
  assert (StronglySorted Z.le ([] ++ clocks calls)) as Hs.
  { simpl. apply Sorted_StronglySorted; [|done]. intros x y z. lia. }
  assert (tenant_inv h None) as Hinv by (left; apply tenant_ok_absent).
  split; [|split].
  - intros steps Hrun. apply (steps_rel_order calls [] _ Hs).
    exact (run_any calls h None steps Hinv Hrun).
  - intros steps Hrun. apply (steps_rel_order calls [] _ Hs).
    exact (mt_run_any calls h None steps Hinv Hrun).
  - intros Hmem.
    destruct (run_ok calls h None (tenant_ok_absent h) Hmem) as (steps & Hrun & _).
    eauto.
Qed.

Lemma C8_witness :
  (∀ steps, ST.run [(answering 0, 7); (answering 3, 1)] ∅ None = Ok steps →
     queues_sorted (observe <$> steps)
     ∧ heads_monotone (observe <$> steps)
     ∧ removed_below_heads (observe <$> steps))
  ∧ (∀ steps, MT.run [(answering 0, 7); (answering 3, 1)] ∅ None = Ok steps →
       queues_sorted (observe_mt <$> steps)
       ∧ heads_monotone (observe_mt <$> steps)
       ∧ removed_below_heads (observe_mt <$> steps))
  ∧ (Forall (λ c, mem_ok c.1) [(answering 0, 7); (answering 3, 1)] →
     ∃ steps, ST.run [(answering 0, 7); (answering 3, 1)] ∅ None = Ok steps).
Proof.
  apply (C8_order_follows_the_clock [(answering 0, 7); (answering 3, 1)] ∅).
  repeat constructor. done.
Defined.

(** C9, at the failing input.  In rate-limiter-mt.c a check that finds no
    queue takes no lock: the queue is created and linked unguarded, and the
    call ends by unlocking a lock it never locked.  Only a check that finds a
    queue runs between one [Lock] and one [Unlock]. *)
Theorem C9_first_request_takes_no_lock `{!Malloc} e h timestamp :
  mem_ok e →
  (∃ h' qu', MT.check_allowed e h None timestamp
             = Ok (h', Some qu', SUCCESS, [MT.Enqueue SUCCESS; MT.Unlock]))
  ∧ (∀ qu st, MT.check_allowed e h (Some qu) timestamp = Ok st →
       ∃ mid, st.2 = MT.Lock :: mid ++ [MT.Unlock]
              ∧ (MT.Lock ∉ mid) ∧ (MT.Unlock ∉ mid)).
Proof.
  intros Hmem. split.
  - eexists _, _. by apply mt_first_request.
  - intros qu st. unfold MT.check_allowed.
    destruct (evict _ h (Some qu) timestamp) as [[[h1 q1] out]|] eqn:Hev;
      simpl; [|done].
    destruct (evict_some _ _ _ _ _ _ _ Hev) as [qu1 ->].
    assert (∀ did : list MT.event,
              (∀ ev, ev ∈ did → ∃ r, ev = MT.Enqueue r) →
              (MT.Lock ∉ (MT.Removed <$> out) ++ did)
              ∧ (MT.Unlock ∉ (MT.Removed <$> out) ++ did)) as Hmid.
    { intros did Hdid. split; intros Hin; apply elem_of_app in Hin as [Hin|Hin].
      - apply list_elem_of_fmap in Hin as (? & ? & _). done.
      - apply Hdid in Hin as [? ?]. done.
      - apply list_elem_of_fmap in Hin as (? & ? & _). done.
      - apply Hdid in Hin as [? ?]. done. }
    destruct (has_room (Some qu1)).
    + destruct (MT.enqueue e h1 (Some qu1) _) as [[[h2 q2] r]|] eqn:Henq;
        simpl; [|done].
      destruct (mt_enqueue_some _ _ _ _ _ _ _ Henq) as [qu2 ->].
      intros [= <-]. simpl.
      exists ((MT.Removed <$> out) ++ [MT.Enqueue r]).
      split; [by rewrite <- app_assoc|]. apply Hmid.
      intros ev Hev'. apply list_elem_of_singleton in Hev'. eauto.
    + simpl. intros [= <-]. simpl.
      exists ((MT.Removed <$> out) ++ []).
      split; [by rewrite <- app_assoc|]. apply Hmid.
      intros ev Hev'. by apply elem_of_nil in Hev'.
Qed.

Lemma C9_witness :
  (∃ h' qu', MT.check_allowed (answering 0) ∅ None 0
             = Ok (h', Some qu', SUCCESS, [MT.Enqueue SUCCESS; MT.Unlock]))
  ∧ (∀ qu st, MT.check_allowed (answering 0) ∅ (Some qu) 0 = Ok st →
       ∃ mid, st.2 = MT.Lock :: mid ++ [MT.Unlock]
              ∧ (MT.Lock ∉ mid) ∧ (MT.Unlock ∉ mid)).
Proof.
  apply (C9_first_request_takes_no_lock (answering 0) ∅ 0).
  apply answering_ok.
Defined.

(** C10.  A tenant that starts without a queue and gets memory at every call:
    rate-limiter.c never crashes, after every call the queue holds what
    [window_steps] computes (the entries left by the eviction, and the new
    one only if fewer than [MAX_REQ] were left), so its [size] field counts
    its entries and is at most [MAX_REQ]; and the memory the tenant takes is
    bounded with it: after every call the heap holds, besides the nodes it
    held at the start, one node for every stored timestamp and no other, at
    most [MAX_REQ] nodes more.  The same holds after every call that
    rate-limiter-mt.c completes. *)
Theorem C10_size_at_most_max_req `{!Malloc} calls h :
  Forall (λ c, mem_ok c.1) calls →
  (∃ steps, ST.run calls h None = Ok steps
            ∧ observe <$> steps = window_steps calls []
            ∧ Forall (λ s, size_bounded s.1.1.1 s.1.1.2) steps
            ∧ Forall (λ s, heap_bounded h s.1.1.1 s.1.1.2) steps)
  ∧ (∀ steps, MT.run calls h None = Ok steps →
       observe_mt <$> steps = window_steps calls []
       ∧ Forall (λ s, size_bounded s.1.1.1 s.1.1.2) steps
       ∧ Forall (λ s, heap_bounded h s.1.1.1 s.1.1.2) steps).
Proof.
  intros Hmem.
  destruct (run_heap_bounded calls h Hmem) as (steps0 & Hrun0 & Hheap).
  split.
  - destruct (run_ok calls h None (tenant_ok_absent h) Hmem)
      as (steps & Hrun & Hok & Hobs).
    exists steps. split; [done|]. split; [done|]. split.
    + eapply Forall_impl; [exact Hok|]. intros s. apply tenant_ok_size.
    + rewrite Hrun0 in Hrun. by injection Hrun as <-.
  - intros steps Hrun.
    destruct (mt_run_ok calls h None steps (tenant_ok_absent h) Hmem Hrun)
      as (Hok & Hobs).
    split; [done|]. split.
    + eapply Forall_impl; [exact Hok|]. intros s. apply tenant_ok_size.
    + apply (mt_run_returns _ _ _ _ (tenant_ok_absent h) Hmem) in Hrun.
      rewrite Hrun0 in Hrun. injection Hrun as ->.
      apply Forall_fmap in Hheap. exact Hheap.
Qed.

Lemma C10_witness :
  (∃ steps, ST.run (replicate 10 (answering 0, 0) ++ [(answering 10000, 10000)])
                   full_heap None = Ok steps
            ∧ observe <$> steps
              = window_steps (replicate 10 (answering 0, 0)
                              ++ [(answering 10000, 10000)]) []
            ∧ Forall (λ s, size_bounded s.1.1.1 s.1.1.2) steps
            ∧ Forall (λ s, heap_bounded full_heap s.1.1.1 s.1.1.2) steps)
  ∧ (∀ steps, MT.run (replicate 10 (answering 0, 0) ++ [(answering 10000, 10000)])
                     full_heap None = Ok steps →
       observe_mt <$> steps
       = window_steps (replicate 10 (answering 0, 0)
                       ++ [(answering 10000, 10000)]) []
       ∧ Forall (λ s, size_bounded s.1.1.1 s.1.1.2) steps
       ∧ Forall (λ s, heap_bounded full_heap s.1.1.1 s.1.1.2) steps).
Proof.
  apply (C10_size_at_most_max_req
           (replicate 10 (answering 0, 0) ++ [(answering 10000, 10000)]) full_heap).
  simpl. repeat (constructor; [apply answering_ok|]). constructor.
Defined.

(** * The rest of the code *)

(** ** The clock *)

(** X1.  [get_current_time_ms] returns whole milliseconds since the epoch:
    for a [struct timeval] with a non-negative [tv_sec] whose milliseconds fit
    a [long] and [tv_usec] below a million, the value is the number of
    microseconds divided by 1000, rounded down, nothing wraps around, and a
    later timeval never gives a smaller value. *)
Theorem X1_time_in_whole_milliseconds tv_sec tv_usec tv_sec' tv_usec' :
  0 ≤ tv_sec → tv_sec' * 1000 + 999 ≤ LONG_MAX →
  0 ≤ tv_usec < 1000000 → 0 ≤ tv_usec' < 1000000 →
  tv_sec * 1000000 + tv_usec ≤ tv_sec' * 1000000 + tv_usec' →
  timeval_ms tv_sec tv_usec = (tv_sec * 1000000 + tv_usec) / 1000
  ∧ 0 ≤ timeval_ms tv_sec tv_usec ≤ timeval_ms tv_sec' tv_usec'
  ∧ timeval_ms tv_sec' tv_usec' ≤ LONG_MAX.
Proof.
  intros Hs Hs' Hu Hu' Hle.
  assert (∀ s u, 0 ≤ s → s * 1000 + 999 ≤ LONG_MAX → 0 ≤ u < 1000000 →
                 timeval_ms s u = (s * 1000000 + u) / 1000
                 ∧ 0 ≤ timeval_ms s u ≤ LONG_MAX) as Hms.
  { intros s u H0 Hmax Hr. unfold timeval_ms.
    rewrite Z.quot_div_nonneg by lia.
    assert (0 ≤ u / 1000 < 1000) as Hq.
    { split; [apply Z.div_pos; lia|apply Z.div_lt_upper_bound; lia]. }
    replace (s * 1000000 + u) with (s * 1000 * 1000 + u) by lia.
    rewrite Z.div_add_l by lia.
    unfold long, LONG_MIN, LONG_MAX in *.
    rewrite (Z.mod_small (s * 1000 - _)) by lia.
    rewrite Z.mod_small by lia. lia. }
  assert (tv_sec ≤ tv_sec') as Hss by lia.
  destruct (Hms tv_sec tv_usec) as [Heq Hr]; [lia|lia|lia|].
  destruct (Hms tv_sec' tv_usec') as [Heq' Hr']; [lia|lia|lia|].
  split; [done|]. split; [|lia]. split; [lia|].
  rewrite Heq, Heq'. apply Z.div_le_mono; lia.
Qed.

Lemma X1_witness :
  timeval_ms 1700000000 999999 = (1700000000 * 1000000 + 999999) / 1000
  ∧ 0 ≤ timeval_ms 1700000000 999999 ≤ timeval_ms 1700000001 0
  ∧ timeval_ms 1700000001 0 ≤ LONG_MAX.
Proof.
  apply (X1_time_in_whole_milliseconds 1700000000 999999 1700000001 0);
    unfold LONG_MAX; lia.
Defined.

(** ** First in, first out *)

(** As many calls of [dequeue] as there are entries return them from the
    head on, free their nodes and leave the queue empty. *)
Lemma dequeues_rep h q cells :
  slot_rep h q cells →
  ∃ h' q',
    dequeues (length cells) h q = Ok (h', q', cells.*2)
    ∧ slot_rep h' q' []
    ∧ ∀ a, h' !! a = if bool_decide (a ∈ cells.*1) then None else h !! a.
Proof.
  revert h q. induction cells as [|[b d] cells IH]; intros h q Hrep.
  - exists h, q. done.
  - destruct q as [qu|]; [|done].
    destruct (dequeue_rep _ _ _ _ _ Hrep) as (qu' & Hdq & Hrep' & _).
    destruct (IH (delete b h) (Some qu') Hrep') as (h' & q' & Hdqs & Hnil & Hh').
    exists h', q'. split; [|split; [done|]].
    + simpl. rewrite Hdq. simpl. rewrite Hdqs. done.
    + intros a. rewrite Hh', fmap_cons. cbn [fst].
      destruct (decide (a = b)) as [->|Hne].
      * rewrite (bool_decide_true (b ∈ b :: _)) by left.
        rewrite lookup_delete_eq. destruct (bool_decide (b ∈ _)); reflexivity.
      * rewrite lookup_delete_ne by done.
        apply (f_equal (λ c : bool, if c then None else h !! a)).
        apply bool_decide_ext. rewrite elem_of_cons. tauto.
Qed.

Section Fifo.
Context `{!Malloc}.

(** Calls of [enqueue] that get memory link their timestamps behind the
    entries there are, in nodes that were free. *)
Lemma enqueue_ops_rep ds h q cells :
  slot_rep h q cells → Forall (λ x, mem_ok x.1) ds →
  Z.of_nat (length cells) + Z.of_nat (length ds) ≤ UINT_RANGE →
  ∃ h1 q1 cells1,
    ST.run_ops (enqueue_ops ds) h q = Ok (h1, q1)
    ∧ slot_rep h1 q1 (cells ++ cells1) ∧ cells1.*2 = ds.*2
    ∧ (∀ a, a ∈ cells1.*1 → h !! a = None)
    ∧ (∀ a, a ∉ (cells ++ cells1).*1 → h1 !! a = h !! a).
Proof.
  revert h q cells. induction ds as [|[e d] ds IH]; intros h q cells Hrep Hmem Hlen.
  - exists h, q, []. rewrite app_nil_r. split; [done|]. split; [done|].
    split; [done|]. split; [|done]. intros a Ha. by apply elem_of_nil in Ha.
  - apply Forall_cons in Hmem as [Hm Hmem]. simpl in Hm. simpl length in Hlen.
    destruct (enqueue_rep e h q cells d Hrep) as (h1 & qu1 & Henq & Hrep1 & _);
      [lia|done|].
    destruct (IH h1 (Some qu1) (cells ++ [(malloc_addr h, d)]) Hrep1 Hmem)
      as (h2 & q2 & cells2 & Hrun & Hrep2 & Hd & Hnew & Hout).
    { rewrite length_app. simpl length. lia. }
    rewrite <- app_assoc in Hrep2, Hout. simpl in Hrep2, Hout.
    pose proof (slot_rep_NoDup _ _ _ Hrep2) as Hnd.
    rewrite fmap_app in Hnd. apply NoDup_app in Hnd as (_ & Hdisj & Hnd2).
    simpl in Hnd2. apply NoDup_cons in Hnd2 as [Hp2 _].
    assert (∀ a, a ∉ cells.*1 → a ≠ malloc_addr h → h1 !! a = h !! a) as Hh1.
    { intros a Ha Hne. apply (st_enqueue_outside _ _ _ _ _ _ _ a Henq Hne).
      intros qu -> Ht. apply Ha. apply last_addr_elem.
      destruct Hrep as [_ <- _]. done. }
    exists h2, q2, ((malloc_addr h, d) :: cells2).
    split; [|split; [done|split; [simpl; by f_equal|split]]].
    + unfold enqueue_ops. rewrite fmap_cons. cbn [ST.run_ops ST.apply_op fst snd].
      rewrite Henq. exact Hrun.
    + intros a [->|Ha]%elem_of_cons; [apply malloc_fresh|].
      rewrite <- Hh1.
      * by apply Hnew.
      * intros Hin. apply (Hdisj a Hin). simpl. by right.
      * intros ->. done.
    + intros a Ha. rewrite (Hout a Ha).
      rewrite fmap_app in Ha. apply not_elem_of_app in Ha as [Ha1 Ha2].
      simpl in Ha2. apply not_elem_of_cons in Ha2 as [Hne _]. by apply Hh1.
Qed.

End Fifo.

(** X2.  The queue of rate-limiter.c is first in, first out.  Timestamps
    enqueued with memory behind the entries of a well-formed queue (no more
    than 4294967296 in all) are linked in the order of the calls; as many
    calls of [dequeue] as there are entries return the old entries and then
    the new ones, in that order; the next [dequeue] returns -1 and changes
    nothing; and the heap is then the one before the calls without the nodes
    the queue had: every node of the queue was freed and no other touched. *)
Theorem X2_first_in_first_out `{!Malloc} ds h q cells :
  slot_rep h q cells → Forall (λ x, mem_ok x.1) ds →
  Z.of_nat (length cells) + Z.of_nat (length ds) ≤ UINT_RANGE →
  ∃ h1 q1 h2 q2,
    ST.run_ops (enqueue_ops ds) h q = Ok (h1, q1)
    ∧ entries h1 q1 = cells.*2 ++ ds.*2
    ∧ dequeues (length cells + length ds) h1 q1 = Ok (h2, q2, cells.*2 ++ ds.*2)
    ∧ dequeue h2 q2 = Ok (h2, q2, -1)
    ∧ ∀ a, h2 !! a = if bool_decide (a ∈ cells.*1) then None else h !! a.
Proof.
  intros Hrep Hmem Hlen.
  destruct (enqueue_ops_rep ds h q cells Hrep Hmem Hlen)
    as (h1 & q1 & cells1 & Hrun & Hrep1 & Hd & Hnew & Hout).
  destruct (dequeues_rep h1 q1 _ Hrep1) as (h2 & q2 & Hdqs & Hnil & Hh2).
  pose proof (slot_rep_NoDup _ _ _ Hrep1) as Hnd.
  rewrite fmap_app in Hnd. apply NoDup_app in Hnd as (_ & Hdisj & _).
  exists h1, q1, h2, q2. split; [done|]. split; [|split; [|split]].
  - rewrite (entries_rep _ _ _ Hrep1), fmap_app, Hd. done.
  - rewrite length_app, fmap_app, Hd in Hdqs.
    rewrite <- (length_fmap snd cells1), Hd, length_fmap in Hdqs. exact Hdqs.
  - destruct q2 as [qu2|]; [|done]. destruct Hnil as [Hl _ _]. simpl in Hl.
    unfold dequeue. by rewrite Hl.
  - intros a. rewrite Hh2, fmap_app.
    destruct (decide (a ∈ cells.*1)) as [Hin|Hnin].
    + rewrite !bool_decide_true; [done|done|]. apply elem_of_app. by left.
    + rewrite (bool_decide_false (a ∈ cells.*1)) by done.
      destruct (decide (a ∈ cells1.*1)) as [Hin1|Hnin1].
      * rewrite bool_decide_true by (apply elem_of_app; by right).
        symmetry. by apply Hnew.
      * rewrite bool_decide_false by (apply not_elem_of_app; done).
        apply Hout. rewrite fmap_app. apply not_elem_of_app. done.
Qed.

Lemma X2_witness :
  ∃ h1 q1 h2 q2,
    ST.run_ops (enqueue_ops [(answering 0, 5); (answering 0, 3); (answering 0, 8)])
               ∅ None = Ok (h1, q1)
    ∧ entries h1 q1 = [] ++ [5; 3; 8]
    ∧ dequeues (0 + 3) h1 q1 = Ok (h2, q2, [] ++ [5; 3; 8])
    ∧ dequeue h2 q2 = Ok (h2, q2, -1)
    ∧ ∀ a, h2 !! a = if bool_decide (a ∈ []) then None else (∅ : heap) !! a.
Proof.
  apply (X2_first_in_first_out
           [(answering 0, 5); (answering 0, 3); (answering 0, 8)] ∅ None []).
  - reflexivity.
  - repeat (constructor; [apply answering_ok|]). constructor.
  - simpl. unfold UINT_RANGE. lia.
Defined.

(** ** rate-limiter-mt.c against rate-limiter.c *)

Lemma drop_while_nil {A} (f : A → bool) (l : list A) :
  drop_while f l = [] ↔ Forall (λ x, f x = true) l.
Proof.
  induction l as [|x l IH]; simpl.
  - split; [constructor|done].
  - destruct (f x) eqn:Hx.
    + rewrite IH. split; [by constructor|]. by intros [_ ?]%Forall_cons.
    + split; [done|]. intros [Hx' _]%Forall_cons. congruence.
Qed.

(** X3.  On a well-formed queue of at most [MAX_REQ] entries, whatever the
    allocator answers: the check of rate-limiter.c always returns; the check
    of rate-limiter-mt.c, when it returns, returns the same value and leaves
    the same heap and queue, having removed the same timestamps; and it
    crashes in one case only, a [NULL] dereference when the queue is allocated,
    every entry has expired and the node is allocated. *)
Theorem X3_mt_check_is_st_check_or_crash `{!Malloc} e h q timestamp :
  tenant_ok h q →
  (∃ st, ST.check_tenant_allowed e h q timestamp = Ok st)
  ∧ (∀ st, MT.check_allowed e h q timestamp = Ok st →
           ST.check_tenant_allowed e h q timestamp = Ok (st.1, removed_of st.2))
  ∧ (∀ f, MT.check_allowed e h q timestamp = Crash f ↔
          f = NullDeref ∧ q ≠ None ∧ node_mem e = true
          ∧ Forall (λ d, expired timestamp d = true) (entries h q)).
Proof.
  intros (cells & Hrep & Hlen).
  destruct (evict_rep (S (base.size h)) h q cells timestamp Hrep)
    as (h1 & q1 & Hev & Hrep1 & Hnone & _).
  { destruct q as [qu|]; simpl in Hrep.
    - destruct Hrep as [Hl _ _]. apply lseg_length in Hl. lia.
    - subst cells. simpl. lia. }
  assert (Forall (λ d, expired timestamp d = true) (entries h q)
          ↔ drop_while (expired timestamp ∘ snd) cells = []) as Hall.
  { rewrite (entries_rep _ _ _ Hrep), <- drop_while_nil, <- drop_while_fmap.
    split; [apply fmap_nil_inv|by intros ->]. }
  set (cells1 := drop_while (expired timestamp ∘ snd) cells) in *.
  set (out := (take_while (expired timestamp ∘ snd) cells).*2) in *.
  assert (Z.of_nat (length cells1) < UINT_RANGE) as Hlen1.
  { pose proof (drop_while_length (expired timestamp ∘ snd) cells) as Hle.
    fold cells1 in Hle. unfold UINT_RANGE, MAX_REQ in *. lia. }
  split; [|split; [intros st; apply mt_check_returns; by exists cells|]].
  - unfold ST.check_tenant_allowed. rewrite Hev. simpl.
    destruct (has_room q1); [|by eexists].
    destruct (node_mem e) eqn:Hn.
    + destruct q1 as [qu1|].
      * destruct (enqueue_any e h1 (Some qu1) cells1 (get_current_time_ms e) Hrep1 Hn)
          as (h2 & qu2 & cells2 & -> & _); [done|]. by eexists.
      * unfold ST.enqueue.
        destruct (initialize_queue _ _ _) as [[h2 q2] r]. by eexists.
    + destruct q1 as [qu1|].
      * rewrite enqueue_node_fail by done. by eexists.
      * unfold ST.enqueue.
        destruct (initialize_queue _ _ _) as [[h2 q2] r]. by eexists.
  - intros f. rewrite Hall. split.
    + intros Hmt. unfold MT.check_allowed in Hmt. rewrite Hev in Hmt.
      simpl in Hmt. destruct (has_room q1) eqn:Hroom; [|done].
      destruct q1 as [qu1|].
      2:{ unfold MT.enqueue in Hmt.
          by destruct (initialize_queue _ _ _) as [[h2 q2] r]. }
      assert (q ≠ None) as Hq by (intros Hq; apply Hnone in Hq; done).
      unfold MT.enqueue, allocate_node in Hmt.
      destruct (node_mem e) eqn:Hn; [|done].
      pose proof Hrep1 as [_ Ht1 _].
      destruct cells1 as [|c cells1] using rev_ind.
      * simpl in Ht1. rewrite Ht1 in Hmt. simpl in Hmt. by injection Hmt as <-.
      * clear IHcells1. rewrite last_addr_snoc in Ht1. rewrite Ht1 in Hmt.
        simpl in Hmt. unfold load in Hmt.
        destruct Hrep1 as [Hl1 _ _]. destruct c as [t x].
        apply lseg_last in Hl1. simpl in Hmt.
        assert (malloc_addr h1 ≠ t) as Hne.
        { intros Heq. pose proof (malloc_fresh h1) as Hf. rewrite Heq in Hf.
          congruence. }
        rewrite lookup_insert_ne, Hl1 in Hmt by done. done.
    + intros (-> & Hq & Hn & Hnil).
      destruct q1 as [qu1|]; [|by destruct Hq; apply Hnone].
      unfold MT.check_allowed. rewrite Hev. simpl.
      pose proof Hrep1 as [_ Ht1 Hs1]. rewrite Hnil in Ht1, Hs1.
      simpl in Ht1, Hs1. rewrite Hs1. simpl.
      by rewrite mt_enqueue_empty.
Qed.

Lemma X3_witness :
  (∃ st, ST.check_tenant_allowed (answering 10000) full_heap full_queue 10000
         = Ok st)
  ∧ (∀ st, MT.check_allowed (answering 10000) full_heap full_queue 10000 = Ok st →
           ST.check_tenant_allowed (answering 10000) full_heap full_queue 10000
           = Ok (st.1, removed_of st.2))
  ∧ (∀ f, MT.check_allowed (answering 10000) full_heap full_queue 10000 = Crash f ↔
          f = NullDeref ∧ full_queue ≠ None
          ∧ node_mem (answering 10000) = true
          ∧ Forall (λ d, expired 10000 d = true) (entries full_heap full_queue)).
Proof.
  apply (X3_mt_check_is_st_check_or_crash (answering 10000) full_heap full_queue
           10000).
  exists full_cells. split; [apply full_rep|]. simpl. unfold MAX_REQ. lia.
Defined.

(** ** No more than [MAX_REQ] admitted in a window *)

Lemma window_bounded_snoc l c :
  window_bounded l →
  (∀ j a, l !! j = Some a → (j + Z.to_nat MAX_REQ = length l)%nat →
          a + WINDOW_SIZE ≤ c) →
  window_bounded (l ++ [c]).
Proof.
  intros Hb Hnew j a b Ha Hc. unfold window_bounded in Hb.
  change (Z.to_nat MAX_REQ) with 10%nat in *.
  pose proof (lookup_lt_Some _ _ _ Hc) as Hlt.
  rewrite length_app in Hlt. simpl in Hlt.
  destruct (decide (j + 10 < length l)%nat) as [Hin|Hout].
  - rewrite lookup_app_l in Ha, Hc by lia. eauto.
  - assert (j + 10 = length l)%nat as Heq by lia.
    rewrite lookup_app_r in Hc by lia.
    rewrite Heq, Nat.sub_diag in Hc. injection Hc as <-.
    rewrite lookup_app_l in Ha by lia. eauto.
Qed.

Lemma admitted_clocks_cons e timestamp calls l :
  admitted_clocks ((e, timestamp) :: calls)
                  (returned (window_steps ((e, timestamp) :: calls) l))
  = (if bool_decide ((window_step timestamp (clock e) l).1.2 = SUCCESS)
     then [clock e] else [])
    ++ admitted_clocks calls
         (returned (window_steps calls (window_step timestamp (clock e) l).1.1)).
Proof.
  cbn [window_steps returned fmap list_fmap admitted_clocks].
  by destruct (bool_decide _).
Qed.

(** The invariant of a tenant's calls: [E] holds the timestamps removed so
    far, [l] the ones stored; whatever was removed is at least [WINDOW_SIZE]
    below every clock reading to come. *)
Lemma window_steps_bounded calls E l :
  Forall timely calls → StronglySorted Z.le (clocks calls) →
  Forall (λ x, 0 ≤ x ≤ LONG_MAX) l →
  (∀ x c, x ∈ E → c ∈ clocks calls → x + WINDOW_SIZE ≤ c) →
  Z.of_nat (length l) ≤ MAX_REQ →
  window_bounded (E ++ l) →
  window_bounded
    (E ++ l ++ admitted_clocks calls (returned (window_steps calls l))).
Proof.
  revert E l. induction calls as [|[e ts] calls IH]; intros E l Ht Hs Hr HE Hlen Hb.
  - simpl. by rewrite app_nil_r.
  - apply Forall_cons in Ht as [[Hts Hc] Ht]. simpl in Hts, Hc.
    change (clocks ((e, ts) :: calls)) with (clock e :: clocks calls) in *.
    apply StronglySorted_inv in Hs as [Hs Hle].
    rewrite Forall_forall in Hle.
    rewrite admitted_clocks_cons. unfold window_step.
    pose proof (take_drop_while (expired ts) l) as Hsplit.
    pose proof (take_while_all (expired ts) l) as Hgone.
    set (l1 := drop_while (expired ts) l) in *.
    set (r := take_while (expired ts) l) in *.
    rewrite <- Hsplit in Hr. apply Forall_app in Hr as [Hr Hr1].
    assert (∀ x, x ∈ r → x + WINDOW_SIZE ≤ clock e) as Hexp.
    { intros x Hx. rewrite Forall_forall in Hgone, Hr.
      specialize (Hgone x Hx). specialize (Hr x Hx). simpl in Hgone.
      rewrite expired_times in Hgone by lia.
      apply bool_decide_eq_true in Hgone. lia. }
    assert (∀ x c, x ∈ E ++ r → c ∈ clock e :: clocks calls →
                   x + WINDOW_SIZE ≤ c) as HE'.
    { intros x c [Hx|Hx]%elem_of_app Hin; [by apply HE|].
      apply elem_of_cons in Hin as [->|Hin]; [by apply Hexp|].
      specialize (Hexp x Hx). specialize (Hle c Hin). lia. }
    assert (length l = length r + length l1)%nat as Hll
      by (by rewrite <- Hsplit, length_app).
    destruct (bool_decide (Z.of_nat (length l1) < MAX_REQ)) eqn:Hroom; simpl.
    + apply bool_decide_eq_true in Hroom.
      specialize (IH (E ++ r) (l1 ++ [clock e]) Ht Hs).
      rewrite <- Hsplit. rewrite <- Hsplit in Hb.
      match goal with |- window_bounded ?L =>
        replace L
          with ((E ++ r) ++ (l1 ++ [clock e]) ++
                admitted_clocks calls (returned (window_steps calls (l1 ++ [clock e]))))
          by (rewrite <- !app_assoc; reflexivity)
      end.
      apply IH.
      * apply Forall_app. split; [done|]. constructor; [lia|constructor].
      * intros x c Hx Hin. apply HE'; [done|by right].
      * rewrite length_app. simpl length. lia.
      * replace ((E ++ r) ++ l1 ++ [clock e]) with ((E ++ r ++ l1) ++ [clock e])
          by (by rewrite <- !app_assoc).
        apply window_bounded_snoc; [done|].
        intros j a Ha Hj. apply HE'; [|left].
        rewrite !length_app in Hj. unfold MAX_REQ in *.
        change (Z.to_nat 10) with 10%nat in Hj.
        rewrite app_assoc in Ha. rewrite lookup_app_l in Ha.
        -- by eapply list_elem_of_lookup_2.
        -- rewrite length_app. lia.
    + apply bool_decide_eq_false in Hroom.
      specialize (IH (E ++ r) l1 Ht Hs).
      rewrite <- Hsplit. rewrite <- Hsplit in Hb.
      match goal with |- window_bounded ?L =>
        replace L
          with ((E ++ r) ++ l1 ++
                admitted_clocks calls (returned (window_steps calls l1)))
          by (rewrite <- !app_assoc; reflexivity)
      end.
      apply IH.
      * done.
      * intros x c Hx Hin. apply HE'; [done|by right].
      * lia.
      * by rewrite <- app_assoc.
Qed.

Lemma admitted_clocks_elem calls rets x :
  x ∈ admitted_clocks calls rets → x ∈ clocks calls.
Proof.
  revert rets. induction calls as [|[e ts] calls IH]; intros rets; simpl.
  - intros Hx. by apply elem_of_nil in Hx.
  - destruct rets as [|ret rets]; [intros Hx; by apply elem_of_nil in Hx|].
    change (clocks ((e, ts) :: calls)) with (clock e :: clocks calls).
    destruct (bool_decide _).
    + intros [->|Hx]%elem_of_cons; [left|right; eauto].
    + intros Hx. right. eauto.
Qed.

Lemma admitted_clocks_sorted calls rets :
  StronglySorted Z.le (clocks calls) →
  StronglySorted Z.le (admitted_clocks calls rets).
Proof.
  revert rets. induction calls as [|[e ts] calls IH]; intros rets Hs; simpl.
  - constructor.
  - destruct rets as [|ret rets]; [constructor|].
    change (clocks ((e, ts) :: calls)) with (clock e :: clocks calls) in Hs.
    apply StronglySorted_inv in Hs as [Hs Hle].
    destruct (bool_decide _); [|eauto].
    constructor; [eauto|]. rewrite Forall_forall in Hle |- *.
    intros x Hx. apply Hle. by apply admitted_clocks_elem in Hx.
Qed.

Lemma in_window_none t l :
  Forall (λ y, t + WINDOW_SIZE ≤ y) l → in_window t l = [].
Proof.
  unfold in_window. induction l as [|y l IH]; [done|].
  intros [Hy Hl]%Forall_cons. rewrite filter_cons_False by lia. eauto.
Qed.

(** In a sorted list where [MAX_REQ] places further is [WINDOW_SIZE] later,
    no window holds more than [MAX_REQ] timestamps. *)
Lemma window_bounded_count t l :
  StronglySorted Z.le l → window_bounded l →
  Z.of_nat (length (in_window t l)) ≤ MAX_REQ.
Proof.
  induction l as [|x l IH]; intros Hs Hb.
  - simpl. unfold MAX_REQ. lia.
  - apply StronglySorted_inv in Hs as [Hs Hx].
    assert (window_bounded l) as Hb'.
    { intros j a b Ha Hc. apply (Hb (S j) a b); done. }
    unfold in_window. rewrite filter_cons. fold (in_window t l).
    destruct (decide (t ≤ x < t + WINDOW_SIZE)) as [Hin|Hout]; [|eauto].
    simpl length. rewrite <- (take_drop 9 l). unfold in_window.
    rewrite filter_app, length_app.
    fold (in_window t (drop 9 l)). rewrite (in_window_none t (drop 9 l)).
    + pose proof (length_filter (λ c, t ≤ c < t + WINDOW_SIZE) (take 9 l)) as Hf.
      rewrite length_take in Hf. simpl length. unfold MAX_REQ. lia.
    + apply Forall_lookup. intros k y Hy. rewrite lookup_drop in Hy.
      rewrite Forall_forall in Hx.
      assert (k < length (x :: l))%nat as Hk.
      { apply lookup_lt_Some in Hy. simpl. lia. }
      apply lookup_lt_is_Some in Hk as [a Ha].
      assert (x ≤ a) as Hxa.
      { destruct k as [|k]; simpl in Ha; [injection Ha as <-; lia|].
        apply Hx. by eapply list_elem_of_lookup_2. }
      specialize (Hb k a y Ha). unfold MAX_REQ in Hb.
      change (Z.to_nat 10) with 10%nat in Hb.
      replace (k + 10)%nat with (S (9 + k)) in Hb by lia.
      specialize (Hb Hy). lia.
Qed.

(** A tenant's admitted requests, from no queue: no window of [WINDOW_SIZE]
    holds more than [MAX_REQ] of them. *)
Lemma window_steps_count calls t :
  Forall timely calls → StronglySorted Z.le (clocks calls) →
  Z.of_nat (length (in_window t
     (admitted_clocks calls (returned (window_steps calls []))))) ≤ MAX_REQ.
Proof.
  intros Ht Hs. apply window_bounded_count; [by apply admitted_clocks_sorted|].
  apply (window_steps_bounded calls [] [] Ht Hs).
  - constructor.
  - intros x c Hx. by apply elem_of_nil in Hx.
  - simpl. unfold MAX_REQ. lia.
  - intros j a b Ha. by destruct j.
Qed.

Lemma returned_observe (steps : list (heap * option queue_t * Z * list Z)) :
  returned (observe <$> steps) = (λ s, s.1.2) <$> steps.
Proof. unfold returned. rewrite <- list_fmap_compose. done. Qed.

Lemma returned_observe_mt (steps : list (heap * option queue_t * Z * list MT.event)) :
  returned (observe_mt <$> steps) = (λ s, s.1.2) <$> steps.
Proof. unfold returned. rewrite <- list_fmap_compose. done. Qed.

(** X4.  The limit itself.  A tenant starts without a queue, every call
    gets memory, the clock never goes back, and every call is [timely]: its
    [timestamp] is not negative and not above what the clock reads inside the
    call, and that reading is at most [LONG_MAX].  Then, whatever window of
    [WINDOW_SIZE] milliseconds one looks at, no more than [MAX_REQ] of the
    requests that rate-limiter.c answered with [SUCCESS] were stored at a
    time in that window; the same holds for every sequence of calls that
    rate-limiter-mt.c completes.  (Without the bounds the subtraction of the
    eviction test wraps around, and a [timestamp] of [LONG_MIN] makes every
    entry look expired.) *)
Theorem X4_no_window_admits_more_than_max_req `{!Malloc} calls h t :
  Forall (λ c, mem_ok c.1) calls → Forall timely calls →
  StronglySorted Z.le (clocks calls) →
  (∃ steps, ST.run calls h None = Ok steps
     ∧ Z.of_nat (length (in_window t
         (admitted_clocks calls ((λ s, s.1.2) <$> steps)))) ≤ MAX_REQ)
  ∧ (∀ steps, MT.run calls h None = Ok steps →
       Z.of_nat (length (in_window t
         (admitted_clocks calls ((λ s, s.1.2) <$> steps)))) ≤ MAX_REQ).
Proof.
  intros Hmem Ht Hs. split.
  - destruct (run_ok calls h None (tenant_ok_absent h) Hmem)
      as (steps & Hrun & _ & Hobs).
    exists steps. split; [done|].
    rewrite <- returned_observe, Hobs. by apply window_steps_count.
  - intros steps Hrun.
    destruct (mt_run_ok calls h None steps (tenant_ok_absent h) Hmem Hrun)
      as (_ & Hobs).
    rewrite <- returned_observe_mt, Hobs. by apply window_steps_count.
Qed.

Lemma X4_witness :
  (∃ steps, ST.run (replicate 12 (answering 7, 7)) ∅ None = Ok steps
     ∧ Z.of_nat (length (in_window 0
         (admitted_clocks (replicate 12 (answering 7, 7))
            ((λ s, s.1.2) <$> steps)))) ≤ MAX_REQ)
  ∧ (∀ steps, MT.run (replicate 12 (answering 7, 7)) ∅ None = Ok steps →
       Z.of_nat (length (in_window 0
         (admitted_clocks (replicate 12 (answering 7, 7))
            ((λ s, s.1.2) <$> steps)))) ≤ MAX_REQ).
Proof.
  apply (X4_no_window_admits_more_than_max_req (replicate 12 (answering 7, 7)) ∅ 0).
  - simpl. repeat (constructor; [apply answering_ok|]). constructor.
  - simpl. repeat (constructor; [unfold timely, LONG_MAX; simpl; lia|]).
    constructor.
  - unfold clocks. simpl.
    repeat (constructor; [|repeat (constructor; [lia|]); constructor]).
    constructor.
Defined.

(** ** One tenant's check and the nodes of the others *)

(** X5.  A check touches the nodes of its own queue only.  For a
    well-formed queue of at most [MAX_REQ] entries and a call that gets
    memory, the check of rate-limiter.c returns, and every node of the heap
    that is not in the queue is afterwards what it was.  So any other
    well-formed queue of the same heap that shares no node with it is still
    well formed, holds the same timestamps and still shares no node with the
    queue the check leaves.  A check of rate-limiter-mt.c that returns leaves
    the same heap. *)
Theorem X5_check_leaves_other_queues `{!Malloc} e h q cells timestamp :
  slot_rep h q cells → Z.of_nat (length cells) ≤ MAX_REQ → mem_ok e →
  ∃ st cells',
    ST.check_tenant_allowed e h q timestamp = Ok st
    ∧ slot_rep st.1.1.1 st.1.1.2 cells'
    ∧ (∀ a n, a ∉ cells.*1 → h !! a = Some n → st.1.1.1 !! a = Some n)
    ∧ (∀ q2 cells2, slot_rep h q2 cells2 → (∀ a, a ∈ cells.*1 → a ∉ cells2.*1) →
         slot_rep st.1.1.1 q2 cells2
         ∧ entries st.1.1.1 q2 = entries h q2
         ∧ ∀ a, a ∈ cells'.*1 → a ∉ cells2.*1)
    ∧ (∀ st', MT.check_allowed e h q timestamp = Ok st' → st'.1.1.1 = st.1.1.1).
Proof.
  intros Hrep Hlen Hmem.
  destruct (check_frame e h q cells timestamp Hrep)
    as (h' & q' & cells' & Hc & Hrep' & _ & Hnew & Hout);
    [unfold UINT_RANGE, MAX_REQ in *; lia|done|].
  assert (∀ a n, a ∉ cells.*1 → h !! a = Some n → h' !! a = Some n) as Hkeep.
  { intros a n Ha Hn. rewrite Hout.
    - by rewrite bool_decide_false.
    - intros Hin. destruct (Hnew a Hin) as [?|Hnone]; [done|congruence]. }
  eexists _, cells'. split; [exact Hc|]. simpl. split; [done|].
  split; [done|]. split.
  - intros q2 cells2 Hrep2 Hdisj.
    assert (slot_rep h' q2 cells2) as Hrep2'.
    { apply (slot_rep_agree h); [|done]. intros a Ha.
      destruct (slot_rep_lookup _ _ _ _ Hrep2 Ha) as [n Hn].
      rewrite Hn. apply Hkeep; [|done]. intros Hin. by apply (Hdisj a). }
    split; [done|]. split.
    + by rewrite (entries_rep _ _ _ Hrep2'), (entries_rep _ _ _ Hrep2).
    + intros a Ha Ha2. destruct (Hnew a Ha) as [Hin|Hnone].
      * by apply (Hdisj a).
      * destruct (slot_rep_lookup _ _ _ _ Hrep2 Ha2) as [n Hn]. congruence.
  - intros st' Hmt. apply mt_check_returns in Hmt; [|by exists cells].
    rewrite Hc in Hmt. by injection Hmt as <-.
Qed.

Lemma X5_witness :
  ∃ st cells',
    ST.check_tenant_allowed (answering 10000) full_heap full_queue 10000 = Ok st
    ∧ slot_rep st.1.1.1 st.1.1.2 cells'
    ∧ (∀ a n, a ∉ full_cells.*1 → full_heap !! a = Some n →
              st.1.1.1 !! a = Some n)
    ∧ (∀ q2 cells2, slot_rep full_heap q2 cells2 →
         (∀ a, a ∈ full_cells.*1 → a ∉ cells2.*1) →
         slot_rep st.1.1.1 q2 cells2
         ∧ entries st.1.1.1 q2 = entries full_heap q2
         ∧ ∀ a, a ∈ cells'.*1 → a ∉ cells2.*1)
    ∧ (∀ st', MT.check_allowed (answering 10000) full_heap full_queue 10000
              = Ok st' → st'.1.1.1 = st.1.1.1).
Proof.
  apply (X5_check_leaves_other_queues (answering 10000) full_heap full_queue
           full_cells 10000).
  - apply full_rep.
  - simpl. unfold MAX_REQ. lia.
  - apply answering_ok.
Defined.

(** ** Freeing a queue *)

Lemma free_nodes_rep fuel h p cells :
  lseg h p cells → (length cells ≤ fuel)%nat →
  ∃ h', free_nodes fuel h p = Ok h'
        ∧ ∀ a, h' !! a = if bool_decide (a ∈ cells.*1) then None else h !! a.
Proof.
  revert fuel h p. induction cells as [|[b d] cells IH]; intros fuel h p Hl Hf.
  - simpl in Hl. subst p. exists h. by destruct fuel.
  - pose proof (lseg_NoDup _ _ _ Hl) as Hnd. simpl in Hnd.
    apply NoDup_cons in Hnd as [Hnb _].
    simpl in Hl. destruct Hl as [-> (nx & Hb & Hl)].
    destruct fuel as [|k]; [simpl in Hf; lia|].
    destruct (IH k (delete b h) nx) as (h' & Hfree & Hh').
    { by apply lseg_delete_other. }
    { simpl in Hf. lia. }
    exists h'. split.
    + simpl. unfold load. rewrite Hb. simpl. exact Hfree.
    + intros a. rewrite Hh', fmap_cons. cbn [fst].
      destruct (decide (a = b)) as [->|Hne].
      * rewrite (bool_decide_true (b ∈ b :: _)) by left.
        rewrite lookup_delete_eq. destruct (bool_decide (b ∈ _)); reflexivity.
      * rewrite lookup_delete_ne by done.
        apply (f_equal (λ c : bool, if c then None else h !! a)).
        apply bool_decide_ext. rewrite elem_of_cons. tauto.
Qed.

Lemma destroy_queue_rep h q cells :
  slot_rep h q cells →
  ∃ h', destroy_queue h q = Ok h'
        ∧ ∀ a, h' !! a = if bool_decide (a ∈ cells.*1) then None else h !! a.
Proof.
  destruct q as [qu|]; simpl.
  - intros [Hl _ _]. apply free_nodes_rep; [done|]. by eapply lseg_length.
  - intros ->. by exists h.
Qed.

(** X6.  [destroy_queue] on a well-formed queue returns with every node of
    the queue freed and every other node of the heap as it was (for [NULL]
    and for an empty queue the heap is unchanged), so that a well-formed
    queue that shares no node with it is left intact. *)
Theorem X6_destroy_queue_frees_its_nodes h q cells :
  slot_rep h q cells →
  ∃ h', destroy_queue h q = Ok h'
        ∧ (∀ a, a ∈ cells.*1 → h' !! a = None)
        ∧ (∀ a, a ∉ cells.*1 → h' !! a = h !! a)
        ∧ (cells = [] → h' = h)
        ∧ ∀ q2 cells2, slot_rep h q2 cells2 →
            (∀ a, a ∈ cells.*1 → a ∉ cells2.*1) →
            slot_rep h' q2 cells2 ∧ entries h' q2 = entries h q2.
Proof.
  intros Hrep. destruct (destroy_queue_rep h q cells Hrep) as (h' & Hd & Hh').
  exists h'. split; [done|]. split; [|split; [|split]].
  - intros a Ha. by rewrite Hh', bool_decide_true.
  - intros a Ha. by rewrite Hh', bool_decide_false.
  - intros ->. apply map_eq. intros a. by rewrite Hh'.
  - intros q2 cells2 Hrep2 Hdisj.
    assert (slot_rep h' q2 cells2) as Hrep2'.
    { apply (slot_rep_agree h); [|done]. intros a Ha.
      rewrite Hh', bool_decide_false; [done|]. intros Hin. by apply (Hdisj a). }
    split; [done|].
    by rewrite (entries_rep _ _ _ Hrep2'), (entries_rep _ _ _ Hrep2).
Qed.

Lemma X6_witness :
  ∃ h', destroy_queue full_heap full_queue = Ok h'
        ∧ (∀ a, a ∈ full_cells.*1 → h' !! a = None)
        ∧ (∀ a, a ∉ full_cells.*1 → h' !! a = full_heap !! a)
        ∧ (full_cells = [] → h' = full_heap)
        ∧ ∀ q2 cells2, slot_rep full_heap q2 cells2 →
            (∀ a, a ∈ full_cells.*1 → a ∉ cells2.*1) →
            slot_rep h' q2 cells2 ∧ entries h' q2 = entries full_heap q2.
Proof.
  apply (X6_destroy_queue_frees_its_nodes full_heap full_queue full_cells).
  apply full_rep.
Defined.

(** ** The table of [main] *)

Lemma table_rep_init h :
  table_rep h h tenant_queues (replicate (Z.to_nat MAX_TENANTS) []).
Proof.
  split.
  - apply length_replicate.
  - by apply Forall2_replicate.
  - apply Forall_replicate. simpl. unfold MAX_REQ. lia.
  - intros i j ci cj a _ [-> _]%lookup_replicate Hj Ha. by apply elem_of_nil in Ha.
  - intros i c a [-> _]%lookup_replicate Ha. by apply elem_of_nil in Ha.
  - done.
Qed.

Lemma table_live h0 h tq cs k ck a :
  table_rep h0 h tq cs → cs !! k = Some ck → a ∈ ck.*1 → is_Some (h !! a).
Proof.
  intros Htab Hk Ha.
  destruct (Forall2_lookup_r _ _ _ _ _ (table_slots _ _ _ _ Htab) Hk)
    as (qk & _ & Hrep).
  by apply (slot_rep_lookup _ _ _ _ Hrep).
Qed.

Lemma calls_of_cons i tenant_id now e rest :
  calls_of i ((tenant_id, now, e) :: rest)
  = if decide (tenant_id = i) then (e, now) :: calls_of i rest
    else calls_of i rest.
Proof. unfold calls_of. simpl. by destruct (decide _). Qed.

Lemma rets_of_cons i tenant_id ret lines :
  rets_of i ((tenant_id, ret) :: lines)
  = if decide (tenant_id = i) then ret :: rets_of i lines else rets_of i lines.
Proof. unfold rets_of. simpl. by destruct (decide _). Qed.

Section Table.
Context `{!Malloc}.

(** One request that gets memory: the check runs on the entry of its
    tenant, and the table stays well formed. *)
Lemma request_rep e h0 h tq cs i now :
  table_rep h0 h tq cs → (i < Z.to_nat MAX_TENANTS)%nat → mem_ok e →
  ∃ h' q' c c',
    cs !! i = Some c
    ∧ request e h tq i now
      = Done (h', <[i := q']> tq, (window_step now (clock e) c.*2).1.2,
              (window_step now (clock e) c.*2).2)
    ∧ table_rep h0 h' (<[i := q']> tq) (<[i := c']> cs)
    ∧ c'.*2 = (window_step now (clock e) c.*2).1.1.
Proof.
  intros Htab Hi Hmem.
  pose proof Htab as [Hlen Hslots Hsizes Hapart Hfresh Hframe].
  pose proof (Forall2_length _ _ _ Hslots) as Hlen2.
  destruct (lookup_lt_is_Some_2 tq i) as [q Hq]; [lia|].
  destruct (Forall2_lookup_l _ _ _ _ _ Hslots Hq) as (c & Hc & Hrep).
  pose proof (Forall_lookup_1 _ _ _ _ Hsizes Hc) as Hsz. simpl in Hsz.
  destruct (check_frame e h q c now Hrep)
    as (h' & q' & c' & Hchk & Hrep' & Hd & Hnew & Hout);
    [unfold UINT_RANGE, MAX_REQ in *; lia|done|].
  assert (∀ k ck a, k ≠ i → cs !! k = Some ck → a ∈ c'.*1 → a ∉ ck.*1) as Hnew_apart.
  { intros k ck a Hk Hck Ha Hin. destruct (Hnew a Ha) as [Hold|Hnone].
    - by apply (Hapart i k c ck a).
    - destruct (table_live _ _ _ _ _ _ _ Htab Hck Hin) as [n Hn]. congruence. }
  exists h', q', c, c'. split; [done|]. split.
  { unfold request. rewrite Hq, Hchk. done. }
  split; [|done]. split.
  - by rewrite length_insert.
  - apply Forall2_same_length_lookup_2; [by rewrite !length_insert|].
    intros k x y Hx Hy. destruct (decide (i = k)) as [->|Hne].
    + rewrite list_lookup_insert_eq in Hx by lia.
      rewrite list_lookup_insert_eq in Hy by lia.
      injection Hx as <-. injection Hy as <-. done.
    + rewrite list_lookup_insert_ne in Hx by done.
      rewrite list_lookup_insert_ne in Hy by done.
      apply (slot_rep_agree h); [|by eapply Forall2_lookup_lr].
      intros a Ha. rewrite Hout.
      * rewrite bool_decide_false; [done|]. intros Hin.
        by apply (Hapart i k c y a).
      * intros Hin. by apply (Hnew_apart k y a).
  - apply Forall_insert; [done|]. simpl.
    rewrite <- (length_fmap snd c'), Hd. apply window_step_length.
    by rewrite length_fmap.
  - intros j k cj ck a Hjk Hj Hk Ha.
    destruct (decide (i = j)) as [->|Hij]; [|destruct (decide (i = k)) as [->|Hik]].
    + rewrite list_lookup_insert_eq in Hj by lia. injection Hj as <-.
      rewrite list_lookup_insert_ne in Hk by done. by apply (Hnew_apart k ck a).
    + rewrite list_lookup_insert_eq in Hk by lia. injection Hk as <-.
      rewrite list_lookup_insert_ne in Hj by done.
      intros Hin. by apply (Hnew_apart j cj a).
    + rewrite list_lookup_insert_ne in Hj, Hk by done. by apply (Hapart j k cj ck a).
  - intros j cj a Hj Ha. destruct (decide (i = j)) as [->|Hij].
    + rewrite list_lookup_insert_eq in Hj by lia. injection Hj as <-.
      destruct (Hnew a Ha) as [Hold|Hnone]; [by apply (Hfresh j c a)|].
      rewrite <- Hnone. symmetry. apply Hframe. intros k ck Hk Hin.
      destruct (table_live _ _ _ _ _ _ _ Htab Hk Hin) as [n Hn]. congruence.
    + rewrite list_lookup_insert_ne in Hj by done. by apply (Hfresh j cj a).
  - intros a Ha. rewrite Hout.
    + case_bool_decide as Hin; [symmetry; by apply (Hfresh i c a)|].
      apply Hframe. intros k ck Hk. destruct (decide (i = k)) as [->|Hne].
      * rewrite Hc in Hk. by injection Hk as <-.
      * apply (Ha k). by rewrite list_lookup_insert_ne.
    + apply (Ha i). apply list_lookup_insert_eq. lia.
Qed.

(** The requests one after the other: none crashes or leaves the table, and
    every tenant is answered as its own calls alone determine. *)
Lemma serve_all_rep reqs h0 h tq cs :
  table_rep h0 h tq cs → Forall request_ok reqs →
  ∃ h' tq' cs' lines,
    serve_all reqs h tq = Done (h', tq', lines)
    ∧ table_rep h0 h' tq' cs'
    ∧ lines.*1 = (λ r, r.1.1) <$> reqs
    ∧ ∀ i c, cs !! i = Some c →
        rets_of i lines = returned (window_steps (calls_of i reqs) c.*2)
        ∧ ∃ c', cs' !! i = Some c'
                ∧ c'.*2 = window_after (calls_of i reqs) c.*2.
Proof.
  revert h tq cs. induction reqs as [|[[id now] e] reqs IH]; intros h tq cs Htab Hok.
  - exists h, tq, cs, []. split; [done|]. split; [done|]. split; [done|].
    intros i c Hc. split; [done|]. by exists c.
  - apply Forall_cons in Hok as [[Hid Hmem] Hok]. simpl in Hid, Hmem.
    destruct (request_rep e h0 h tq cs id now Htab Hid Hmem)
      as (h1 & q1 & c0 & c1 & Hc0 & Hreq & Htab1 & Hd).
    destruct (IH _ _ _ Htab1 Hok) as (h' & tq' & cs' & lines & Hserve & Htab' & Hl & Hten).
    eexists h', tq', cs', _. split.
    { simpl. rewrite Hreq. simpl. rewrite Hserve. simpl. done. }
    split; [done|]. split; [simpl; by f_equal|].
    intros i c Hc. rewrite calls_of_cons, rets_of_cons.
    pose proof (Forall2_length _ _ _ (table_slots _ _ _ _ Htab)) as Hlen2.
    pose proof (table_length _ _ _ _ Htab) as Hlen.
    destruct (decide (id = i)) as [->|Hne].
    + rewrite Hc0 in Hc. injection Hc as <-.
      destruct (Hten i c1) as (Hrets & c' & Hc' & Hd');
        [apply list_lookup_insert_eq; lia|].
      cbn [window_steps window_after returned fmap list_fmap].
      rewrite <- Hd. split.
      * f_equal. exact Hrets.
      * by exists c'.
    + apply Hten. by rewrite list_lookup_insert_ne.
Qed.

(** The teardown frees what the queues of the table hold. *)
Lemma destroy_all_rep tq cs h :
  Forall2 (slot_rep h) tq cs →
  (∀ i j ci cj a, i ≠ j → cs !! i = Some ci → cs !! j = Some cj →
                  a ∈ ci.*1 → a ∉ cj.*1) →
  ∃ h', destroy_all h tq = Ok h'
        ∧ (∀ i c a, cs !! i = Some c → a ∈ c.*1 → h' !! a = None)
        ∧ (∀ a, (∀ i c, cs !! i = Some c → a ∉ c.*1) → h' !! a = h !! a).
Proof.
  revert cs h. induction tq as [|q tq IH]; intros cs h Hslots Hapart.
  - apply Forall2_nil_inv_l in Hslots as ->. exists h. split; [done|].
    split; [|done]. intros i c a Hc. by rewrite lookup_nil in Hc.
  - apply Forall2_cons_inv_l in Hslots as (c & cs' & Hrep & Hslots & ->).
    destruct (destroy_queue_rep h q c Hrep) as (h1 & Hd & Hh1).
    destruct (IH cs' h1) as (h' & Hall & Hnone & Hsame).
    { apply Forall2_same_length_lookup_2; [by eapply Forall2_length|].
      intros k x y Hx Hy.
      apply (slot_rep_agree h); [|by eapply Forall2_lookup_lr].
      intros a Ha. rewrite Hh1, bool_decide_false; [done|].
      intros Hin. by apply (Hapart 0%nat (S k) c y a). }
    { intros i j ci cj a Hij Hi Hj. apply (Hapart (S i) (S j)); [lia|done|done]. }
    exists h'. split; [simpl; rewrite Hd; exact Hall|]. split.
    + intros [|i] ci a Hi Ha; simpl in Hi.
      * injection Hi as <-. rewrite Hsame.
        -- by rewrite Hh1, bool_decide_true.
        -- intros j cj Hj. by apply (Hapart 0%nat (S j) c cj a).
      * by apply (Hnone i ci a).
    + intros a Ha. rewrite Hsame.
      * rewrite Hh1, bool_decide_false; [done|]. by apply (Ha 0%nat c).
      * intros j cj Hj. by apply (Ha (S j) cj).
Qed.

End Table.

Lemma window_after_last calls l :
  window_after calls l = default l ((λ o, o.1.1) <$> last (window_steps calls l)).
Proof.
  revert l. induction calls as [|[e ts] calls IH]; intros l; [done|].
  cbn [window_after window_steps]. rewrite IH.
  destruct (window_steps calls _) as [|o tr] eqn:Htr; [done|].
  rewrite last_cons_cons.
  destruct (last (o :: tr)) eqn:Hlast; [done|]. by apply last_None in Hlast.
Qed.

Lemma calls_of_timely i reqs :
  Forall (λ r, timely (r.2, r.1.2)) reqs → Forall timely (calls_of i reqs).
Proof.
  induction reqs as [|[[id now] e] reqs IH]; [constructor|].
  intros [Hr Hrest]%Forall_cons. rewrite calls_of_cons.
  destruct (decide _); [constructor|]; eauto.
Qed.

Lemma calls_of_clocks_elem i reqs x :
  x ∈ clocks (calls_of i reqs) → x ∈ (λ r, clock r.2) <$> reqs.
Proof.
  induction reqs as [|[[id now] e] reqs IH].
  - intros Hx. by apply elem_of_nil in Hx.
  - rewrite calls_of_cons, fmap_cons. destruct (decide _).
    + change (clocks ((e, now) :: calls_of i reqs))
        with (clock e :: clocks (calls_of i reqs)).
      intros [->|Hx]%elem_of_cons; [left|right; eauto].
    + intros Hx. right. eauto.
Qed.

Lemma calls_of_sorted i reqs :
  StronglySorted Z.le ((λ r, clock r.2) <$> reqs) →
  StronglySorted Z.le (clocks (calls_of i reqs)).
Proof.
  induction reqs as [|[[id now] e] reqs IH]; [constructor|].
  rewrite fmap_cons. intros [Hs Hle]%StronglySorted_inv.
  rewrite calls_of_cons. destruct (decide _); [|eauto].
  change (clocks ((e, now) :: calls_of i reqs))
    with (clock e :: clocks (calls_of i reqs)).
  constructor; [eauto|]. rewrite Forall_forall in Hle |- *.
  intros x Hx. apply Hle. by apply calls_of_clocks_elem in Hx.
Qed.

(** [main] as a whole, when every request gets memory. *)
Lemma main_rep `{!Malloc} reqs h :
  Forall request_ok reqs →
  ∃ h' tq' lines,
    serve_all reqs h tenant_queues = Done (h', tq', lines)
    ∧ main reqs h = Done (h, lines)
    ∧ length tq' = Z.to_nat MAX_TENANTS
    ∧ lines.*1 = (λ r, r.1.1) <$> reqs
    ∧ ∀ i q, tq' !! i = Some q →
        rets_of i lines = returned (window_steps (calls_of i reqs) [])
        ∧ entries h' q = window_after (calls_of i reqs) [].
Proof.
  intros Hok.
  destruct (serve_all_rep reqs h h tenant_queues _ (table_rep_init h) Hok)
    as (h' & tq' & cs' & lines & Hserve & Htab & Hl & Hten).
  destruct (destroy_all_rep tq' cs' h' (table_slots _ _ _ _ Htab)
              (table_apart _ _ _ _ Htab)) as (h2 & Hd & Hnone & Hsame).
  assert (h2 = h) as ->.
  { apply map_eq. intros a.
    destruct (decide (Exists (λ c, a ∈ c.*1) cs')) as [Hex|Hnex].
    - apply Exists_exists in Hex as (c & Hc & Ha).
      apply list_elem_of_lookup in Hc as [i Hi].
      rewrite (Hnone i c a Hi Ha). symmetry.
      by apply (table_fresh _ _ _ _ Htab i c a).
    - assert (∀ i c, cs' !! i = Some c → a ∉ c.*1) as Hout.
      { intros i c Hi Ha. apply Hnex. apply Exists_exists. exists c.
        split; [|done]. by eapply list_elem_of_lookup_2. }
      rewrite (Hsame a Hout). by apply (table_frame _ _ _ _ Htab). }
  exists h', tq', lines. split; [done|]. split.
  { unfold main. rewrite Hserve. simpl. by rewrite Hd. }
  split; [by apply (table_length _ _ _ _ Htab)|]. split; [done|].
  intros i q Hq.
  assert (i < Z.to_nat MAX_TENANTS)%nat as Hi.
  { rewrite <- (table_length _ _ _ _ Htab). by eapply lookup_lt_Some. }
  destruct (Hten i []) as (Hrets & c' & Hc' & Hd'); [by apply lookup_replicate_2|].
  split; [done|].
  pose proof (Forall2_lookup_lr _ _ _ _ _ _ (table_slots _ _ _ _ Htab) Hq Hc') as Hrep.
  by rewrite (entries_rep _ _ _ Hrep).
Qed.

Lemma calls_of_mem i reqs :
  Forall request_ok reqs → Forall (λ c, mem_ok c.1) (calls_of i reqs).
Proof.
  induction reqs as [|[[id now] e] reqs IH]; [constructor|].
  intros [[_ Hm] Hrest]%Forall_cons. rewrite calls_of_cons.
  destruct (decide _); [constructor|]; eauto.
Qed.

(** X7.  In [main] of rate-limiter.c every tenant is served as if it were
    alone.  When every request gets memory and names a tenant of the table,
    the loop runs to its end without a crash and without leaving the table,
    and prints one line for each request; the values printed for a tenant
    are the values [check_tenant_allowed] returns for that tenant's calls
    alone, made from no queue in the heap [main] started with, and the
    tenant's entry of the table holds at the end the timestamps its queue
    would hold then, whatever the other tenants asked in between. *)
Theorem X7_each_tenant_as_if_alone `{!Malloc} reqs h i :
  Forall request_ok reqs → (i < Z.to_nat MAX_TENANTS)%nat →
  ∃ h' tq' lines q steps,
    serve_all reqs h tenant_queues = Done (h', tq', lines)
    ∧ lines.*1 = (λ r, r.1.1) <$> reqs
    ∧ tq' !! i = Some q
    ∧ ST.run (calls_of i reqs) h None = Ok steps
    ∧ rets_of i lines = (λ s, s.1.2) <$> steps
    ∧ entries h' q = default [] ((λ s, entries s.1.1.1 s.1.1.2) <$> last steps).
Proof.
  intros Hok Hi.
  destruct (main_rep reqs h Hok) as (h' & tq' & lines & Hserve & _ & Hlen & Hl & Hten).
  destruct (lookup_lt_is_Some_2 tq' i) as [q Hq]; [lia|].
  destruct (Hten i q Hq) as [Hrets Hent].
  destruct (run_ok (calls_of i reqs) h None (tenant_ok_absent h)
              (calls_of_mem i reqs Hok)) as (steps & Hrun & _ & Hobs).
  simpl in Hobs. exists h', tq', lines, q, steps.
  split; [done|]. split; [done|]. split; [done|]. split; [done|]. split.
  - by rewrite Hrets, <- Hobs, returned_observe.
  - rewrite Hent, window_after_last, <- Hobs, fmap_last.
    by destruct (last steps).
Qed.

Lemma X7_witness :
  ∃ h' tq' lines q steps,
    serve_all [(1%nat, 0, answering 0); (2%nat, 0, answering 0);
               (1%nat, 5, answering 5)] ∅ tenant_queues = Done (h', tq', lines)
    ∧ lines.*1 = (λ r, r.1.1) <$> [(1%nat, 0, answering 0); (2%nat, 0, answering 0);
                                   (1%nat, 5, answering 5)]
    ∧ tq' !! 1%nat = Some q
    ∧ ST.run (calls_of 1 [(1%nat, 0, answering 0); (2%nat, 0, answering 0);
                          (1%nat, 5, answering 5)]) ∅ None = Ok steps
    ∧ rets_of 1 lines = (λ s, s.1.2) <$> steps
    ∧ entries h' q = default [] ((λ s, entries s.1.1.1 s.1.1.2) <$> last steps).
Proof.
  apply (X7_each_tenant_as_if_alone
           [(1%nat, 0, answering 0); (2%nat, 0, answering 0);
            (1%nat, 5, answering 5)] ∅ 1).
  - repeat (constructor;
            [split; [unfold MAX_TENANTS; simpl; lia|apply answering_ok]|]).
    constructor.
  - unfold MAX_TENANTS. lia.
Defined.

(** X8.  [main] keeps the limit for every tenant.  When every request gets
    memory and names a tenant of the table, the clock never goes back from
    one request to the next, and every request is [timely] (the reading
    [main] passes to the check is not negative and not above the one taken
    inside the check, which is at most [LONG_MAX]), then [main] returns and,
    whatever window of [WINDOW_SIZE] milliseconds one looks at, no more than
    [MAX_REQ] of the requests it reported allowed for a tenant were stored at
    a time in that window. *)
Theorem X8_main_keeps_the_limit_for_every_tenant `{!Malloc} reqs h i t :
  Forall request_ok reqs → (i < Z.to_nat MAX_TENANTS)%nat →
  Forall (λ r, timely (r.2, r.1.2)) reqs →
  StronglySorted Z.le ((λ r, clock r.2) <$> reqs) →
  ∃ h' lines,
    main reqs h = Done (h', lines)
    ∧ lines.*1 = (λ r, r.1.1) <$> reqs
    ∧ Z.of_nat (length (in_window t
        (admitted_clocks (calls_of i reqs) (rets_of i lines)))) ≤ MAX_REQ.
Proof.
  intros Hok Hi Ht Hs.
  destruct (main_rep reqs h Hok) as (h' & tq' & lines & _ & Hmain & Hlen & Hl & Hten).
  destruct (lookup_lt_is_Some_2 tq' i) as [q Hq]; [lia|].
  destruct (Hten i q Hq) as [Hrets _].
  exists h, lines. split; [done|]. split; [done|]. rewrite Hrets.
  apply window_steps_count; [by apply calls_of_timely|by apply calls_of_sorted].
Qed.

Lemma X8_witness :
  ∃ h' lines,
    main [(1%nat, 0, answering 0); (2%nat, 0, answering 0);
          (1%nat, 5, answering 5)] ∅ = Done (h', lines)
    ∧ lines.*1 = (λ r, r.1.1) <$> [(1%nat, 0, answering 0); (2%nat, 0, answering 0);
                                   (1%nat, 5, answering 5)]
    ∧ Z.of_nat (length (in_window 0
        (admitted_clocks
           (calls_of 1 [(1%nat, 0, answering 0); (2%nat, 0, answering 0);
                        (1%nat, 5, answering 5)])
           (rets_of 1 lines)))) ≤ MAX_REQ.
Proof.
  apply (X8_main_keeps_the_limit_for_every_tenant
           [(1%nat, 0, answering 0); (2%nat, 0, answering 0);
            (1%nat, 5, answering 5)] ∅ 1 0).
  - repeat (constructor;
            [split; [unfold MAX_TENANTS; simpl; lia|apply answering_ok]|]).
    constructor.
  - unfold MAX_TENANTS. lia.
  - repeat (constructor; [unfold timely, LONG_MAX; simpl; lia|]). constructor.
  - simpl. repeat (constructor; [|repeat (constructor; [lia|]); constructor]).
    constructor.
Defined.

(** X9.  [main] of rate-limiter.c leaks no node and never crashes.  When
    every request gets memory and names a tenant of the table, [main] returns
    after one line for each request, no dereference of [NULL] or of a freed
    node and no access outside [tenant_queues] having happened, and the heap
    of nodes is then exactly the one it started with: every node allocated by
    a check was freed, by [dequeue] or by the [destroy_queue] calls at the
    end, and no other node was touched. *)
Theorem X9_main_returns_and_frees_every_node `{!Malloc} reqs h :
  Forall request_ok reqs →
  ∃ lines, main reqs h = Done (h, lines) ∧ lines.*1 = (λ r, r.1.1) <$> reqs.
Proof.
  intros Hok.
  destruct (main_rep reqs h Hok) as (h' & tq' & lines & _ & Hmain & _ & Hl & _).
  by exists lines.
Qed.

Lemma X9_witness :
  ∃ lines,
    main [(1%nat, 0, answering 0); (2%nat, 0, answering 0);
          (1%nat, 10000, answering 10000)] full_heap = Done (full_heap, lines)
    ∧ lines.*1 = (λ r, r.1.1) <$> [(1%nat, 0, answering 0); (2%nat, 0, answering 0);
                                   (1%nat, 10000, answering 10000)].
Proof.
  apply (X9_main_returns_and_frees_every_node
           [(1%nat, 0, answering 0); (2%nat, 0, answering 0);
            (1%nat, 10000, answering 10000)] full_heap).
  repeat (constructor;
          [split; [unfold MAX_TENANTS; simpl; lia|apply answering_ok]|]).
  constructor.
Defined.

(** ** When a request is rejected *)

Lemma reject_iff timestamp l :
  Z.of_nat (length l) ≤ MAX_REQ →
  ¬ Z.of_nat (length (drop_while (expired timestamp) l)) < MAX_REQ
  ↔ Z.of_nat (length l) = MAX_REQ
    ∧ ∃ d, l !! 0%nat = Some d ∧ expired timestamp d = false.
Proof.
  intros Hlen. split.
  - intros Hfull. destruct l as [|d l].
    + simpl in Hfull. unfold MAX_REQ in Hfull. lia.
    + simpl in Hfull. destruct (expired timestamp d) eqn:Hd.
      * pose proof (drop_while_length (expired timestamp) l) as Hle.
        simpl length in Hlen. lia.
      * split; [lia|]. by exists d.
  - intros [Hfull (d & Hd & Hex)]. destruct l as [|d' l]; [done|].
    injection Hd as ->. simpl. rewrite Hex. lia.
Qed.

(** The check of rate-limiter.c returns on every well-formed queue,
    whatever the allocator answers, and the value only tells whether fewer
    than [MAX_REQ] entries were left by the loop. *)
Lemma check_returns_any `{!Malloc} e h q timestamp :
  tenant_ok h q →
  ∃ st, ST.check_tenant_allowed e h q timestamp = Ok st
        ∧ st.1.2 = if bool_decide (Z.of_nat (length (drop_while (expired timestamp)
                                                       (entries h q))) < MAX_REQ)
                   then SUCCESS else FAILURE.
Proof.
  intros (cells & Hrep & Hlen).
  destruct (evict_rep (S (base.size h)) h q cells timestamp Hrep)
    as (h1 & q1 & Hev & Hrep1 & _ & _).
  { destruct q as [qu|]; simpl in Hrep.
    - destruct Hrep as [Hl _ _]. apply lseg_length in Hl. lia.
    - subst cells. simpl. lia. }
  rewrite (entries_rep _ _ _ Hrep), <- drop_while_fmap, length_fmap.
  set (cells1 := drop_while (expired timestamp ∘ snd) cells) in *.
  assert (Z.of_nat (length cells1) < UINT_RANGE) as Hlen1.
  { pose proof (drop_while_length (expired timestamp ∘ snd) cells) as Hle.
    fold cells1 in Hle. unfold UINT_RANGE, MAX_REQ in *. lia. }
  unfold ST.check_tenant_allowed. rewrite Hev. simpl.
  rewrite (has_room_rep _ _ _ Hrep1 Hlen1).
  destruct (bool_decide (Z.of_nat (length cells1) < MAX_REQ)); [|by eexists].
  destruct (node_mem e) eqn:Hn.
  - destruct q1 as [qu1|].
    + destruct (enqueue_any e h1 (Some qu1) cells1 (get_current_time_ms e) Hrep1 Hn)
        as (h2 & qu2 & cells2 & -> & _); [done|]. by eexists.
    + unfold ST.enqueue.
      destruct (initialize_queue _ _ _) as [[h2 q2] r]. by eexists.
  - destruct q1 as [qu1|].
    + rewrite enqueue_node_fail by done. by eexists.
    + unfold ST.enqueue.
      destruct (initialize_queue _ _ _) as [[h2 q2] r]. by eexists.
Qed.

(** X10.  When a request is rejected.  On a well-formed queue of at most
    [MAX_REQ] entries the check of rate-limiter.c returns [SUCCESS] or
    [FAILURE], whatever the allocator answers, and it returns [FAILURE]
    exactly when the queue holds [MAX_REQ] entries and the one at the head
    has not expired at the [timestamp] given; a check of rate-limiter-mt.c
    that returns gives the same value. *)
Theorem X10_rejected_exactly_when_full `{!Malloc} e h q timestamp :
  tenant_ok h q →
  ∃ st, ST.check_tenant_allowed e h q timestamp = Ok st
        ∧ (st.1.2 = SUCCESS ∨ st.1.2 = FAILURE)
        ∧ (st.1.2 = FAILURE ↔
           Z.of_nat (length (entries h q)) = MAX_REQ
           ∧ ∃ d, entries h q !! 0%nat = Some d ∧ expired timestamp d = false)
        ∧ ∀ st', MT.check_allowed e h q timestamp = Ok st' → st'.1.2 = st.1.2.
Proof.
  intros Hok.
  destruct (check_returns_any e h q timestamp Hok) as (st & Hc & Hret).
  assert (Z.of_nat (length (entries h q)) ≤ MAX_REQ) as Hlen.
  { destruct Hok as (cells & Hrep & Hlen).
    by rewrite (entries_rep _ _ _ Hrep), length_fmap. }
  exists st. split; [done|]. split; [|split].
  - rewrite Hret. destruct (bool_decide _); [by left|by right].
  - rewrite <- (reject_iff timestamp _ Hlen), Hret.
    case_bool_decide as Hroom; unfold SUCCESS, FAILURE; split; done.
  - intros st' Hmt. apply (mt_check_returns _ _ _ _ _ Hok) in Hmt.
    rewrite Hc in Hmt. by injection Hmt as ->.
Qed.

Lemma X10_witness :
  ∃ st, ST.check_tenant_allowed (answering 0) full_heap full_queue 9999 = Ok st
        ∧ (st.1.2 = SUCCESS ∨ st.1.2 = FAILURE)
        ∧ (st.1.2 = FAILURE ↔
           Z.of_nat (length (entries full_heap full_queue)) = MAX_REQ
           ∧ ∃ d, entries full_heap full_queue !! 0%nat = Some d
                  ∧ expired 9999 d = false)
        ∧ ∀ st', MT.check_allowed (answering 0) full_heap full_queue 9999 = Ok st' →
                 st'.1.2 = st.1.2.
Proof.
  apply (X10_rejected_exactly_when_full (answering 0) full_heap full_queue 9999).
  exists full_cells. split; [apply full_rep|]. simpl. unfold MAX_REQ. lia.
Defined.

(** ** The [DEBUG] lines *)

Lemma debug_fields_rep h qu cells :
  queue_rep h qu cells → cells ≠ [] → Z.of_nat (length cells) < UINT_RANGE →
  ∃ x y, debug_fields h (Some qu) = Ok (Z.of_nat (length cells), x, y)
         ∧ cells.*2 !! 0%nat = Some x ∧ last cells.*2 = Some y.
Proof.
  intros [Hl Ht Hs] Hne Hlen. rewrite uint_small in Hs by lia.
  assert (∃ a x nx, head qu = Some a ∧ h !! a = Some (Qnode x nx)
                    ∧ cells.*2 !! 0%nat = Some x) as (a & x & nx & Hh & Ha & Hx).
  { destruct cells as [|[a x] cells]; [done|].
    simpl in Hl. destruct Hl as [Hh (nx & Ha & _)]. by exists a, x, nx. }
  destruct cells as [|[t y] cells _] using rev_ind; [done|].
  rewrite last_addr_snoc in Ht. simpl in Ht.
  pose proof (lseg_last _ _ _ _ _ Hl) as Hlast.
  exists x, y. split; [|split; [done|]].
  - unfold debug_fields, load. rewrite Hh, Ht. simpl. rewrite Ha, Hlast. simpl.
    by rewrite Hs.
  - rewrite fmap_app. apply last_snoc.
Qed.

(** X11.  The [DEBUG] lines of [main] and [client_thread] read [q->size],
    [q->head->data] and [q->tail->data] after every check.  After a check of
    rate-limiter.c that got memory, on a well-formed queue of at most
    [MAX_REQ] entries, the three reads are safe: they give the number of
    stored timestamps, the oldest of them and the newest; and a check of
    rate-limiter-mt.c that returns leaves the same to read.  When the first
    request of a tenant gets no memory for the header, the check reports
    [SUCCESS], the table entry stays [NULL], and the reads dereference it. *)
Theorem X11_debug_lines_read_the_queue `{!Malloc} e h q timestamp :
  tenant_ok h q → mem_ok e →
  (∃ st x y,
     ST.check_tenant_allowed e h q timestamp = Ok st
     ∧ debug_fields st.1.1.1 st.1.1.2
       = Ok (Z.of_nat (length (entries st.1.1.1 st.1.1.2)), x, y)
     ∧ entries st.1.1.1 st.1.1.2 !! 0%nat = Some x
     ∧ last (entries st.1.1.1 st.1.1.2) = Some y
     ∧ ∀ st', MT.check_allowed e h q timestamp = Ok st' →
              debug_fields st'.1.1.1 st'.1.1.2 = debug_fields st.1.1.1 st.1.1.2)
  ∧ (∀ e', queue_mem e' = None →
       ∃ st, ST.check_tenant_allowed e' h None timestamp = Ok st
             ∧ st.1.2 = SUCCESS
             ∧ debug_fields st.1.1.1 st.1.1.2 = Crash NullDeref).
Proof.
  intros Hok Hmem. split.
  - destruct (check_ok e h q timestamp Hok Hmem) as (st & Hc & Hok' & Hobs & Hsome).
    destruct st as [[[h' q'] ret] out]. cbn [fst snd] in *.
    destruct q' as [qu'|]; [|done].
    destruct Hok' as (cells' & Hrep' & Hlen').
    assert (cells' ≠ []) as Hne.
    { intros ->. unfold observe in Hobs. cbn [fst snd] in Hobs.
      rewrite (entries_rep _ _ _ Hrep') in Hobs.
      pose proof (window_step_nonempty timestamp (clock e) (entries h q)) as Hn.
      rewrite <- Hobs in Hn. done. }
    destruct (debug_fields_rep h' qu' cells' Hrep' Hne) as (x & y & Hdbg & Hx & Hy);
      [unfold UINT_RANGE, MAX_REQ in *; lia|].
    exists (h', Some qu', ret, out), x, y. split; [done|]. cbn [fst snd].
    rewrite (entries_rep _ _ _ Hrep'), length_fmap.
    split; [done|]. split; [done|]. split; [done|].
    intros st' Hmt. apply (mt_check_returns _ _ _ _ _ Hok) in Hmt.
    rewrite Hc in Hmt. by injection Hmt as <-.
  - intros e' Hq. unfold ST.check_tenant_allowed. simpl.
    unfold ST.enqueue, initialize_queue. rewrite Hq. simpl. by eexists.
Qed.

Lemma X11_witness :
  (∃ st x y,
     ST.check_tenant_allowed (answering 3) ∅ None 0 = Ok st
     ∧ debug_fields st.1.1.1 st.1.1.2
       = Ok (Z.of_nat (length (entries st.1.1.1 st.1.1.2)), x, y)
     ∧ entries st.1.1.1 st.1.1.2 !! 0%nat = Some x
     ∧ last (entries st.1.1.1 st.1.1.2) = Some y
     ∧ ∀ st', MT.check_allowed (answering 3) ∅ None 0 = Ok st' →
              debug_fields st'.1.1.1 st'.1.1.2 = debug_fields st.1.1.1 st.1.1.2)
  ∧ (∀ e', queue_mem e' = None →
       ∃ st, ST.check_tenant_allowed e' ∅ None 0 = Ok st
             ∧ st.1.2 = SUCCESS
             ∧ debug_fields st.1.1.1 st.1.1.2 = Crash NullDeref).
Proof.
  apply (X11_debug_lines_read_the_queue (answering 3) ∅ None 0).
  - apply tenant_ok_absent.
  - apply answering_ok.
Defined.

(** ** After the window has passed *)

Lemma take_while_nil_all {A} (f : A → bool) (l : list A) :
  Forall (λ x, f x = true) l → take_while f l = l.
Proof.
  induction l as [|x l IH]; [done|]. intros [Hx Hl]%Forall_cons.
  simpl. rewrite Hx. f_equal. eauto.
Qed.

(** Every stored timestamp has expired: up to [MAX_REQ] calls at that time
    are all admitted, and the queue then holds their clock readings. *)
Lemma window_steps_refill timestamp calls l :
  Forall (λ d, expired timestamp d = true) l →
  Forall (λ c, c.2 = timestamp ∧ expired timestamp (clock c.1) = false) calls →
  Z.of_nat (length calls) ≤ MAX_REQ →
  Forall (λ o, o.1.2 = SUCCESS) (window_steps calls l)
  ∧ ∀ o, last (window_steps calls l) = Some o → o.1.1 = clocks calls.
Proof.
  intros Hl Hcalls Hlen. destruct calls as [|[e ts] calls].
  - split; [constructor|done].
  - apply Forall_cons in Hcalls as [[Hts Hc] Hcalls]. simpl in Hts, Hc. subst ts.
    assert (window_step timestamp (clock e) l = ([clock e], SUCCESS, l)) as Hfirst.
    { unfold window_step. rewrite (take_while_nil_all _ _ Hl).
      apply drop_while_nil in Hl. rewrite Hl. done. }
    destruct (window_steps_fill timestamp calls [clock e] true Hcalls)
      as (Hret & Hlast & _).
    { by constructor. }
    { simpl length in *. lia. }
    { by right. }
    cbn [window_steps]. rewrite Hfirst. cbn [fst snd]. split; [by constructor|].
    intros o. rewrite last_cons.
    destruct (last (window_steps calls [clock e])) as [o'|] eqn:Ho'.
    + intros [= <-]. by rewrite (Hlast o' eq_refl).
    + intros [= <-]. apply last_None in Ho'.
      destruct calls as [|[e' ts'] calls]; [done|done].
Qed.

(** X12.  The quota comes back after the window.  When every timestamp a
    tenant's queue holds has expired at [timestamp], then in rate-limiter.c
    up to [MAX_REQ] calls made with that [timestamp], which get memory and
    are stored under clock readings not expired at it, all return [SUCCESS],
    and the queue holds their clock readings and nothing else afterwards.
    rate-limiter-mt.c crashes at the first of these calls if the queue was
    allocated. *)
Theorem X12_quota_back_after_the_window `{!Malloc} h q timestamp calls :
  tenant_ok h q →
  Forall (λ d, expired timestamp d = true) (entries h q) →
  Forall (λ c, mem_ok c.1 ∧ c.2 = timestamp
               ∧ expired timestamp (clock c.1) = false) calls →
  calls ≠ [] → Z.of_nat (length calls) ≤ MAX_REQ →
  (∃ steps, ST.run calls h q = Ok steps
            ∧ Forall (λ s, s.1.2 = SUCCESS) steps
            ∧ ∃ st, last steps = Some st
                    ∧ entries st.1.1.1 st.1.1.2 = clocks calls)
  ∧ (q ≠ None → MT.run calls h q = Crash NullDeref).
Proof.
  intros Hok Hexp Hcalls Hne Hlen.
  assert (Forall (λ c, mem_ok c.1) calls) as Hmem.
  { eapply Forall_impl; [exact Hcalls|]. by intros c (? & _). }
  assert (Forall (λ c, c.2 = timestamp ∧ expired timestamp (clock c.1) = false)
                 calls) as Hcalls'.
  { eapply Forall_impl; [exact Hcalls|]. by intros c (_ & ? & ?). }
  split.
  - destruct (run_ok calls h q Hok Hmem) as (steps & Hrun & _ & Hobs).
    destruct (window_steps_refill timestamp calls (entries h q) Hexp Hcalls' Hlen)
      as [Hret Hlast].
    rewrite <- Hobs in Hret, Hlast. exists steps. split; [done|]. split.
    + apply Forall_fmap in Hret. eapply Forall_impl; [exact Hret|]. by intros s.
    + destruct (last steps) as [st|] eqn:Hst.
      * exists st. split; [done|].
        specialize (Hlast (observe st)). rewrite fmap_last, Hst in Hlast.
        by apply Hlast.
      * apply last_None in Hst. subst steps.
        destruct calls as [|[e ts] calls]; [done|]. simpl in Hrun.
        destruct (ST.check_tenant_allowed e h q ts); simpl in Hrun; [|done].
        by destruct (ST.run calls _ _).
  - intros Hq. destruct calls as [|[e ts] calls]; [done|].
    apply Forall_cons in Hcalls as [(Hm & Hts & _) _]. simpl in Hm, Hts. subst ts.
    pose proof Hok as (cells & Hrep & Hlenc).
    destruct (mt_check_rep e h q cells timestamp Hrep)
      as [(_ & _ & Hcrash)|([Hnone|Hsome] & _)];
      [unfold UINT_RANGE, MAX_REQ in *; lia|done| |done|].
    + simpl. by rewrite Hcrash.
    + rewrite (entries_rep _ _ _ Hrep) in Hexp. by apply drop_while_nil in Hexp.
Qed.

Lemma X12_witness :
  (∃ steps, ST.run (replicate 10 (answering 10000, 10000)) full_heap full_queue
            = Ok steps
            ∧ Forall (λ s, s.1.2 = SUCCESS) steps
            ∧ ∃ st, last steps = Some st
                    ∧ entries st.1.1.1 st.1.1.2
                      = clocks (replicate 10 (answering 10000, 10000)))
  ∧ (full_queue ≠ None →
     MT.run (replicate 10 (answering 10000, 10000)) full_heap full_queue
     = Crash NullDeref).
Proof.
  apply (X12_quota_back_after_the_window full_heap full_queue 10000
           (replicate 10 (answering 10000, 10000))).
  - exists full_cells. split; [apply full_rep|]. simpl. unfold MAX_REQ. lia.
  - rewrite (entries_rep _ _ _ full_rep). simpl. repeat constructor.
  - simpl. repeat (constructor; [split; [apply answering_ok|split; reflexivity]|]).
    constructor.
  - done.
  - simpl. unfold MAX_REQ. lia.
Defined.

(** ** The memory a tenant takes *)

(** The loop of [destroy_queue] never runs out of turns: each turn frees a
    node. *)
Lemma free_nodes_fuel fuel h p :
  (base.size h ≤ fuel)%nat → free_nodes fuel h p ≠ Crash OutOfFuel.
Proof.
  revert h p. induction fuel as [|k IH]; intros h p Hf.
  - assert (h = ∅) as -> by (apply map_size_empty_inv; lia).
    destruct p as [a|]; [|done]. simpl. unfold load. by rewrite lookup_empty.
  - destruct p as [a|]; [|done]. simpl. unfold load.
    destruct (h !! a) as [n|] eqn:Hn; [|done]. simpl. apply IH.
    rewrite map_size_delete_Some by eauto.
    assert (base.size h ≠ 0%nat); [|lia].
    intros Hz. apply map_size_empty_inv in Hz. subst h.
    by rewrite lookup_empty in Hn.
Qed.

(** X13.  A tenant takes no more memory than its queue holds.  For a tenant
    that starts without a queue and gets memory at every call, rate-limiter.c
    leaves after every call a heap that has, besides the nodes it had at the
    start, one node for every stored timestamp and no other: at most
    [MAX_REQ] more nodes than at the start, the nodes of removed timestamps
    having been freed; and [destroy_queue] called at that point gives back
    the heap of the start. *)
Theorem X13_a_tenant_takes_at_most_max_req_nodes `{!Malloc} calls h :
  Forall (λ c, mem_ok c.1) calls →
  ∃ steps,
    ST.run calls h None = Ok steps
    ∧ Forall (λ st,
        base.size st.1.1.1
        = (base.size h + length (entries st.1.1.1 st.1.1.2))%nat
        ∧ Z.of_nat (length (entries st.1.1.1 st.1.1.2)) ≤ MAX_REQ
        ∧ destroy_queue st.1.1.1 st.1.1.2 = Ok h) steps.
Proof.
  intros Hmem.
  destruct (run_owned calls h h None [] eq_refl) as (steps & Hrun & Hall);
    [simpl; unfold MAX_REQ; lia| |done|done|].
  { intros a Ha. by apply elem_of_nil in Ha. }
  exists steps. split; [done|]. eapply Forall_impl; [exact Hall|].
  intros [[[h' q'] ret] out] (cells' & Hrep' & Hlen' & Hin & Hout). cbn [fst snd] in *.
  rewrite (entries_rep _ _ _ Hrep'), length_fmap. split; [|split; [done|]].
  - rewrite <- (length_fmap fst cells').
    apply size_with_cells; [by eapply slot_rep_NoDup| |done].
    intros a Ha. split; [by apply Hin|by eapply slot_rep_lookup].
  - destruct (destroy_queue_rep h' q' cells' Hrep') as (h2 & Hd & Hh2).
    rewrite Hd. f_equal. apply map_eq. intros a. rewrite Hh2.
    case_bool_decide as Ha; [symmetry; by apply Hin|by apply Hout].
Qed.

Lemma X13_witness :
  ∃ steps,
    ST.run (replicate 12 (answering 0, 0)) full_heap None = Ok steps
    ∧ Forall (λ st,
        base.size st.1.1.1
        = (base.size full_heap + length (entries st.1.1.1 st.1.1.2))%nat
        ∧ Z.of_nat (length (entries st.1.1.1 st.1.1.2)) ≤ MAX_REQ
        ∧ destroy_queue st.1.1.1 st.1.1.2 = Ok full_heap) steps.
Proof.
  apply (X13_a_tenant_takes_at_most_max_req_nodes
           (replicate 12 (answering 0, 0)) full_heap).
  simpl. repeat (constructor; [apply answering_ok|]). constructor.
Defined.

(** ** After a header without a node *)

(** X14.  What a first request that gets the header and not the node leaves
    behind.  [initialize_queue] has then stored a header with no node and a
    [size] that was never written; the check reports [SUCCESS].  From then
    on, if that [size] reads [MAX_REQ] or more, every check of either file
    returns [FAILURE] and changes nothing, whatever the clock and the
    timestamps: the tenant is never served again.  If it reads less than
    [MAX_REQ], the next check of rate-limiter-mt.c that gets a node
    dereferences the [NULL] tail, and so does the check of rate-limiter.c
    unless the [size] reads 0. *)
Theorem X14_header_without_node_locks_the_tenant `{!Malloc} e0 g0 h timestamp0 :
  queue_mem e0 = Some g0 → node_mem e0 = false →
  ∃ q,
    q = Some (Queue None None (uint g0))
    ∧ ST.check_tenant_allowed e0 h None timestamp0 = Ok (h, q, SUCCESS, [])
    ∧ MT.check_allowed e0 h None timestamp0
      = Ok (h, q, SUCCESS, [MT.Enqueue FAILURE; MT.Unlock])
    ∧ (MAX_REQ ≤ uint g0 → ∀ calls,
         ST.run calls h q = Ok ((λ _, (h, q, FAILURE, [])) <$> calls)
         ∧ MT.run calls h q
           = Ok ((λ _, (h, q, FAILURE, [MT.Lock; MT.Unlock])) <$> calls))
    ∧ (uint g0 < MAX_REQ → ∀ e timestamp, node_mem e = true →
         MT.check_allowed e h q timestamp = Crash NullDeref
         ∧ (uint g0 ≠ 0 →
            ST.check_tenant_allowed e h q timestamp = Crash NullDeref)).
Proof.
  intros Hq Hn. eexists. split; [reflexivity|].
  assert (∀ fuel ts, evict fuel h (Some (Queue None None (uint g0))) ts
                     = Ok (h, Some (Queue None None (uint g0)), [])) as Hev
    by (by intros []).
  split; [|split; [|split]].
  - unfold ST.check_tenant_allowed. simpl.
    unfold ST.enqueue, initialize_queue. rewrite Hq, allocate_node_fail by done.
    done.
  - unfold MT.check_allowed. simpl.
    unfold MT.enqueue, initialize_queue. rewrite Hq, allocate_node_fail by done.
    done.
  - intros Hfull calls. induction calls as [|[e ts] calls [IHst IHmt]]; [done|].
    split.
    + cbn [ST.run]. unfold ST.check_tenant_allowed. rewrite Hev. simpl.
      rewrite bool_decide_false by lia. simpl. rewrite IHst. done.
    + cbn [MT.run]. unfold MT.check_allowed. rewrite Hev. simpl.
      rewrite bool_decide_false by lia. simpl. rewrite IHmt. done.
  - intros Hroom e ts He. split.
    + unfold MT.check_allowed. rewrite Hev. simpl.
      rewrite bool_decide_true by done. by rewrite mt_enqueue_empty.
    + intros Hnz. unfold ST.check_tenant_allowed. rewrite Hev. simpl.
      rewrite bool_decide_true by done.
      unfold ST.enqueue. rewrite allocate_node_ok by done. simpl.
      by rewrite bool_decide_true.
Qed.

Lemma X14_witness :
  ∃ q,
    q = Some (Queue None None (uint 12))
    ∧ ST.check_tenant_allowed (Env 0 (Some 12) false) ∅ None 0 = Ok (∅, q, SUCCESS, [])
    ∧ MT.check_allowed (Env 0 (Some 12) false) ∅ None 0
      = Ok (∅, q, SUCCESS, [MT.Enqueue FAILURE; MT.Unlock])
    ∧ (MAX_REQ ≤ uint 12 → ∀ calls,
         ST.run calls ∅ q = Ok ((λ _, (∅, q, FAILURE, [])) <$> calls)
         ∧ MT.run calls ∅ q
           = Ok ((λ _, (∅, q, FAILURE, [MT.Lock; MT.Unlock])) <$> calls))
    ∧ (uint 12 < MAX_REQ → ∀ e timestamp, node_mem e = true →
         MT.check_allowed e ∅ q timestamp = Crash NullDeref
         ∧ (uint 12 ≠ 0 →
            ST.check_tenant_allowed e ∅ q timestamp = Crash NullDeref)).
Proof.
  apply (X14_header_without_node_locks_the_tenant (Env 0 (Some 12) false) 12 ∅ 0);
    reflexivity.
Defined.
